(** * SentenceTranslator (TS.py): a shallow embedding and its verification

    The Python class [SentenceTranslator] encodes an automaton-identification
    problem as one boolean formula over edge variables [A_i].  This file
    embeds the class: the z3 expression trees it builds, the process-wide
    class attributes (configuration, variable list, id table, the seven
    occurrence tables), the addressing functions, the determinism formula,
    the aggregation of positive samples and the standalone sentence formula.

    Python integers are [Z]; a dict whose iteration order reaches the output
    is an insertion-ordered association list; [id_table] is a [gmap];
    operations that can raise return in [res]; the aggregation path, which
    mutates class attributes and can raise half-way, lives in a state and
    exception monad [M]. *)

From stdpp Require Import base numbers list gmap strings.

Local Open Scope Z_scope.

(** ** z3 expression trees *)

(** [BoolVar i] is [Bool("A_i")], the only kind of named variable that
    [gen_var_list] creates. *)
#[warnings="-register-all"]
Inductive formula : Type :=
  | BoolVal (b : bool)
  | BoolVar (i : Z)
  | Not (f : formula)
  | And (args : list formula)
  | Or (args : list formula)
  | Implies (a b : formula).

(** Truth value of a formula under an assignment of the variables [A_i]. *)
Fixpoint eval (v : Z → bool) (f : formula) : bool :=
  match f with
  | BoolVal b => b
  | BoolVar i => v i
  | Not g => negb (eval v g)
  | And args => forallb (eval v) args
  | Or args => existsb (eval v) args
  | Implies a b => implb (eval v a) (eval v b)
  end.

(** Logical equivalence of two formulas. *)
Definition equivalent (f g : formula) : Prop := ∀ v, eval v f = eval v g.

(** ** Python outcomes *)

Inductive exn : Set := KeyError | IndexError | ZeroDivisionError | Z3Exception.

Inductive res (A : Type) : Type :=
  | Ok (a : A)
  | Raise (e : exn).
Arguments Ok {A} a.
Arguments Raise {A} e.

#[global] Instance res_ret : MRet res := λ A a, Ok a.
#[global] Instance res_bind : MBind res := λ A B f m,
  match m with Ok a => f a | Raise e => Raise e end.

Fixpoint res_mapM {A B} (f : A → res B) (l : list A) : res (list B) :=
  match l with
  | [] => Ok []
  | x :: l' => y ← f x; ys ← res_mapM f l'; Ok (y :: ys)
  end.

(** [len(l)] *)
Definition len {A} (l : list A) : Z := Z.of_nat (length l).

(** [range(a, b)] *)
Definition py_range (a b : Z) : list Z :=
  (λ i : nat, a + Z.of_nat i) <$> seq 0 (Z.to_nat (b - a)).

(** [l[i]] on a Python list: negative indices count from the end, anything
    else out of range raises [IndexError]. *)
Definition py_index {A} (l : list A) (i : Z) : res A :=
  let j := if decide (i < 0) then len l + i else i in
  if decide (0 ≤ j < len l) then
    match l !! Z.to_nat j with Some x => Ok x | None => Raise IndexError end
  else Raise IndexError.

(** ** Insertion-ordered dicts with integer counters *)

Section dict.
Context {K : Type} `{EqDecision K}.

Fixpoint dict_get (key : K) (d : list (K * Z)) : option Z :=
  match d with
  | [] => None
  | (key', v) :: d' => if decide (key' = key) then Some v else dict_get key d'
  end.

(** [d.setdefault(key, dflt)]: a new key goes to the end. *)
Definition dict_setdefault (key : K) (dflt : Z) (d : list (K * Z)) : list (K * Z) :=
  match dict_get key d with
  | Some _ => d
  | None => d ++ [(key, dflt)]
  end.

(** [d[key] += 1]: the entry keeps its position; a missing key raises. *)
Fixpoint dict_incr (key : K) (d : list (K * Z)) : res (list (K * Z)) :=
  match d with
  | [] => Raise KeyError
  | (key', v) :: d' =>
      if decide (key' = key) then Ok ((key', v + 1) :: d')
      else d'' ← dict_incr key d'; Ok ((key', v) :: d'')
  end.

(** The keys whose counter passes the [value>0] test of the global
    constraint builder, in iteration order. *)
Definition observed (d : list (K * Z)) : list K :=
  (filter (λ kv, 0 < kv.2) d).*1.
End dict.

(** ** The class attributes *)

Record engine : Type := Engine {
  alphabet : list string;
  k : Z;
  var_list : list formula;
  id_table : gmap string Z;
  src_to_alphabet1_table : list (Z * Z);
  alphabet1_to_alphabet_table : list ((Z * Z) * Z);
  alphabet_to_alphabet_table : list ((Z * Z) * Z);
  alphabet_to_snk_table : list (Z * Z);
  alphabet1_to_alphabet_imply_table : list ((Z * Z * Z) * Z);
  alphabet_to_alphabet_imply_table : list ((Z * Z * Z) * Z);
  alphabet_to_snk_imply_table : list ((Z * Z) * Z);
}.

(** [get_size] and [get_number] cache their first result in [__size] and
    [__number]; the configuration is set once, by [global_init], so the
    cached value is the one computed here. *)
Definition get_size (st : engine) : Z := len (alphabet st).
Definition get_number (st : engine) : Z := k st * get_size st + 1.

(** [cls.id_table[ch]] *)
Definition lookup_id (st : engine) (ch : string) : res Z :=
  match id_table st !! ch with Some i => Ok i | None => Raise KeyError end.

(** [cls.var_list[i]] *)
Definition var (st : engine) (i : Z) : res formula := py_index (var_list st) i.

(** [enumerate(l, start)] *)
Fixpoint enumerate {A} (l : list A) (start : Z) : list (Z * A) :=
  match l with
  | [] => []
  | x :: l' => (start, x) :: enumerate l' (start + 1)
  end.

Definition gen_id_table (st : engine) : engine :=
  let t0 := <["src" := 0]> (id_table st) in
  let t1 := <["snk" := get_size st + 1]> t0 in
  let t2 := foldl (λ t ic, <[ic.2 := ic.1]> t) t1 (enumerate (alphabet st) 1) in
  Engine (alphabet st) (k st) (var_list st) t2
    (src_to_alphabet1_table st) (alphabet1_to_alphabet_table st)
    (alphabet_to_alphabet_table st) (alphabet_to_snk_table st)
    (alphabet1_to_alphabet_imply_table st) (alphabet_to_alphabet_imply_table st)
    (alphabet_to_snk_imply_table st).

Definition gen_var_list (st : engine) : engine :=
  let number := get_number st in
  let number := number * number + 1 in
  let vl := var_list st ++ [BoolVal true] ++ (BoolVar <$> py_range 1 number)
              ++ [BoolVal false] in
  Engine (alphabet st) (k st) vl (id_table st)
    (src_to_alphabet1_table st) (alphabet1_to_alphabet_table st)
    (alphabet_to_alphabet_table st) (alphabet_to_snk_table st)
    (alphabet1_to_alphabet_imply_table st) (alphabet_to_alphabet_imply_table st)
    (alphabet_to_snk_imply_table st).

(** [global_init], run on the class as it is defined: empty [var_list],
    [id_table] and occurrence tables. *)
Definition global_init (_alphabet : list string) (_k : Z) : engine :=
  gen_var_list (gen_id_table (Engine _alphabet _k [] ∅ [] [] [] [] [] [] [])).

(** ** Addressing *)

Definition _quadruple_to_idx (st : engine) (id1 k1 id2 k2 : Z) : Z :=
  let size := get_size st in
  if decide (id1 = 0 ∧ id2 = size + 1) then get_number st
  else if decide (id1 = 0) then (id2 - 1) * k st + k2
  else if decide (id2 = size + 1) then ((id1 - 1) * k st + k1 + 1) * get_number st
  else ((id1 - 1) * k st + k1) * get_number st + (id2 - 1) * k st + k2.

(** [divmod(a, b)]: floor division, as [Z.div] and [Z.modulo]; a zero divisor
    raises. *)
Definition divmod (a b : Z) : res (Z * Z) :=
  if decide (b = 0) then Raise ZeroDivisionError else Ok (a `div` b, a `mod` b).

Definition _idx_to_quadruple (st : engine) (idx : Z) : res (Z * Z * Z * Z) :=
  '(row, col) ← divmod idx (get_number st);
  '(id1, k1) ← divmod (row - 1) (k st);
  '(id2, k2) ← divmod (col - 1) (k st);
  Ok (id1 + 1, k1 + 1, id2 + 1, k2 + 1).

(** The call of [_quadruple_to_idx] as a Python call with an outcome: the
    body is integer arithmetic only and has no [raise]. *)
Definition call_quadruple_to_idx (st : engine) (id1 k1 id2 k2 : Z) : res Z :=
  Ok (_quadruple_to_idx st id1 k1 id2 k2).

(** ** Formula helpers *)

Definition _get_and_formula (st : engine) (idx_list : list Z) (ext : bool) : res formula :=
  if decide (len idx_list = 0) then var st 0
  else
    args ← (if ext then res_mapM (var st) idx_list
            else res_mapM (λ i, x ← var st i; Ok (Not x)) idx_list);
    Ok (And args).

Definition _get_or_formula (st : engine) (idx_list : list Z) (ext : bool) : res formula :=
  if decide (len idx_list = 0) then var st 0
  else
    args ← (if ext then res_mapM (var st) idx_list
            else res_mapM (λ i, x ← var st i; Ok (Not x)) idx_list);
    Ok (Or args).

Definition _get_alphabet_to_alphabet_list (st : engine) (id1 id2 : Z) (ext : bool) : list Z :=
  if ext then
    (λ k2, _quadruple_to_idx st id1 1 id2 k2) <$> py_range 1 (k st + 1)
  else if decide (id1 = 0) then
    [_quadruple_to_idx st 0 0 id2 1]
  else if decide (id2 = get_size st + 1) then
    (λ k1, _quadruple_to_idx st id1 k1 id2 0) <$> py_range 1 (k st + 1)
  else
    k1 ← py_range 1 (k st + 1);
    k2 ← py_range 1 (k st + 1);
    [_quadruple_to_idx st id1 k1 id2 k2].

Definition _get_alphabet_to_alphabet_imply_list (st : engine) (id1 id2 id3 : Z) (ext : bool)
    : list (list Z * list Z) :=
  if ext then
    (λ k2, ([_quadruple_to_idx st id1 1 id2 k2],
            (λ k3, _quadruple_to_idx st id2 k2 id3 k3) <$> py_range 1 (k st + 1)))
      <$> py_range 1 (k st + 1)
  else if decide (id3 = get_size st + 1) then
    (λ k2, (if decide (id3 = 3) then [_quadruple_to_idx st id1 1 id2 k2]
            else (λ k1, _quadruple_to_idx st id1 k1 id2 k2) <$> py_range 1 (k st + 1),
            [_quadruple_to_idx st id2 k2 id3 0]))
      <$> py_range 1 (k st + 1)
  else
    (λ k2, ((λ k1, _quadruple_to_idx st id1 k1 id2 k2) <$> py_range 1 (k st + 1),
            (λ k3, _quadruple_to_idx st id2 k2 id3 k3) <$> py_range 1 (k st + 1)))
      <$> py_range 1 (k st + 1).

(** ** The determinism formula *)

(** The body of the loop over [ch1], [ch2], [k1]: one local determinism
    clause. *)
Definition deterministic_clause (st : engine) (ch1 ch2 : string) (k1 : Z) : res formula :=
  id1 ← lookup_id st ch1;
  id2 ← lookup_id st ch2;
  part_2 ← res_mapM (λ m,
      let pos_idx := _quadruple_to_idx st id1 k1 id2 m in
      let neg_idx_list :=
        (λ k2, _quadruple_to_idx st id1 k1 id2 k2)
          <$> filter (λ k2, k2 ≠ m) (py_range 1 (k st + 1)) in
      p ← var st pos_idx;
      n ← _get_and_formula st neg_idx_list false;
      Ok (And [p; n]))
    (py_range 1 (k st + 1));
  let neg_idx_list :=
    (λ k2, _quadruple_to_idx st id1 k1 id2 k2) <$> py_range 1 (k st + 1) in
  none ← _get_and_formula st neg_idx_list false;
  Ok (Or (part_2 ++ [none])).

Definition gen_deterministic_formula (st : engine) : res formula :=
  if decide (k st = 1) then var st 0
  else
    part_1 ← res_mapM (λ ch,
        id2 ← lookup_id st ch;
        let var_idx := _quadruple_to_idx st 0 0 id2 1 in
        let neg_idx_list :=
          (λ k2, _quadruple_to_idx st 0 0 id2 k2) <$> py_range 1 (k st + 1) in
        p ← var st var_idx;
        n ← _get_and_formula st neg_idx_list false;
        Ok (Or [p; n]))
      (alphabet st);
    rest ← res_mapM (λ c, deterministic_clause st c.1.1 c.1.2 c.2)
      (ch1 ← alphabet st; ch2 ← alphabet st; k1 ← py_range 1 (k st + 1);
       [(ch1, ch2, k1)]);
    Ok (And (part_1 ++ rest)).

(** ** The global constraint *)

(** [Implies(_get_or_formula(pre), _get_or_formula(post))] for every pair of
    an imply list. *)
Definition imply_formulas (st : engine) (pre_post_list : list (list Z * list Z))
    : res (list formula) :=
  res_mapM (λ pre_post,
      pre ← _get_or_formula st pre_post.1 true;
      post ← _get_or_formula st pre_post.2 true;
      Ok (Implies pre post))
    pre_post_list.

Definition _generate_global_constraint_a (st : engine) : res (list formula) :=
  let part_1 :=
    id2 ← observed (src_to_alphabet1_table st);
    _get_alphabet_to_alphabet_list st 0 id2 false in
  f1 ← _get_and_formula st part_1 true;
  part_2 ← res_mapM (λ key : Z * Z,
      _get_or_formula st (_get_alphabet_to_alphabet_list st key.1 key.2 true) true)
    (observed (alphabet1_to_alphabet_table st));
  part_3 ← res_mapM (λ key : Z * Z,
      _get_or_formula st (_get_alphabet_to_alphabet_list st key.1 key.2 false) true)
    (observed (alphabet_to_alphabet_table st));
  part_4 ← res_mapM (λ id1 : Z,
      _get_or_formula st (_get_alphabet_to_alphabet_list st id1 (get_size st + 1) false) true)
    (observed (alphabet_to_snk_table st));
  Ok ([f1] ++ part_2 ++ part_3 ++ part_4).

Definition _generate_global_constraint_b (st : engine) : res (list formula) :=
  part_1 ← res_mapM (λ key : Z * Z * Z,
      imply_formulas st
        (_get_alphabet_to_alphabet_imply_list st key.1.1 key.1.2 key.2 true))
    (observed (alphabet1_to_alphabet_imply_table st));
  part_2 ← res_mapM (λ key : Z * Z * Z,
      imply_formulas st
        (_get_alphabet_to_alphabet_imply_list st key.1.1 key.1.2 key.2 false))
    (observed (alphabet_to_alphabet_imply_table st));
  part_3 ← res_mapM (λ key : Z * Z,
      imply_formulas st
        (_get_alphabet_to_alphabet_imply_list st key.1 key.2 (get_size st + 1) false))
    (observed (alphabet_to_snk_imply_table st));
  Ok (concat part_1 ++ concat part_2 ++ concat part_3).

Definition generate_global_constraint (st : engine) : res formula :=
  a ← _generate_global_constraint_a st;
  b ← _generate_global_constraint_b st;
  let parts := a ++ b in
  if decide (len parts = 0) then var st 0 else Ok (And parts).

(** ** The standalone sentence formula (read-only path) *)

(** [SentenceTranslator.id_table[self.sentence[i]]] *)
Definition sentence_id (st : engine) (sentence : list string) (i : Z) : res Z :=
  ch ← py_index sentence i; lookup_id st ch.

Definition __gen_a_src (st : engine) (sentence : list string) : res formula :=
  id2 ← sentence_id st sentence 0;
  var st (_quadruple_to_idx st 0 0 id2 1).

Definition __gen_a_src_1 (st : engine) (sentence : list string) : res formula :=
  id1 ← sentence_id st sentence 0;
  id2 ← sentence_id st sentence 1;
  _get_or_formula st
    ((λ j, _quadruple_to_idx st id1 1 id2 j) <$> py_range 1 (k st + 1)) true.

(** The loop also computes [start_idx], which it never uses; the call has no
    effect and cannot raise, and is left out. *)
Definition __gen_a_common (st : engine) (sentence : list string) : res formula :=
  result ← res_mapM (λ i,
      id1 ← sentence_id st sentence i;
      id2 ← sentence_id st sentence (i + 1);
      _get_or_formula st (_get_alphabet_to_alphabet_list st id1 id2 false) true)
    (py_range 1 (len sentence - 1));
  Ok (And result).

Definition __gen_a_snk (st : engine) (sentence : list string) : res formula :=
  id1 ← sentence_id st sentence (-1);
  let slen := len sentence in
  let size := len (alphabet st) in
  if decide (slen = 1) then var st (_quadruple_to_idx st id1 1 (size + 1) 0)
  else
    _get_or_formula st
      ((λ k1, _quadruple_to_idx st id1 k1 (size + 1) 0) <$> py_range 1 (k st + 1)) true.

Definition __gen_constraint_a_formula (st : engine) (sentence : list string) : res formula :=
  let slen := len sentence in
  p_src ← __gen_a_src st sentence;
  p_src_1 ← (if decide (slen > 1) then x ← __gen_a_src_1 st sentence; Ok [x] else Ok []);
  p_common ← (if decide (slen > 2) then x ← __gen_a_common st sentence; Ok [x] else Ok []);
  p_snk ← __gen_a_snk st sentence;
  Ok (And ([p_src] ++ p_src_1 ++ p_common ++ [p_snk])).

Definition __gen_b_src (st : engine) (sentence : list string) : res formula :=
  id1 ← sentence_id st sentence 0;
  id2 ← sentence_id st sentence 1;
  id3 ← sentence_id st sentence 2;
  result ← res_mapM (λ j,
      pre ← var st (_quadruple_to_idx st id1 1 id2 j);
      post ← _get_or_formula st
        ((λ j1, _quadruple_to_idx st id2 j id3 j1) <$> py_range 1 (k st + 1)) true;
      Ok (Implies pre post))
    (py_range 1 (k st + 1));
  Ok (And result).

Definition __gen_b_common (st : engine) (sentence : list string) : res formula :=
  result ← res_mapM (λ i,
      id1 ← sentence_id st sentence i;
      id2 ← sentence_id st sentence (i + 1);
      id3 ← sentence_id st sentence (i + 2);
      imply_formulas st (_get_alphabet_to_alphabet_imply_list st id1 id2 id3 false))
    (py_range 1 (len sentence - 2));
  let result := concat result in
  if decide (len result = 0) then var st 0 else Ok (And result).

Definition __gen_b_snk (st : engine) (sentence : list string) : res formula :=
  id1 ← sentence_id st sentence (-2);
  id2 ← sentence_id st sentence (-1);
  let size := len (alphabet st) in
  let slen := len sentence in
  result ← res_mapM (λ j,
      pre ← (if decide (slen = 2) then var st (_quadruple_to_idx st id1 1 id2 j)
             else _get_or_formula st
                    ((λ j1, _quadruple_to_idx st id1 j1 id2 j) <$> py_range 1 (k st + 1))
                    true);
      post ← var st (_quadruple_to_idx st id2 j (size + 1) 0);
      Ok (Implies pre post))
    (py_range 1 (k st + 1));
  Ok (And result).

Definition __gen_constraint_b_formula (st : engine) (sentence : list string) : res formula :=
  let slen := len sentence in
  if decide (slen ≤ 1) then var st 0
  else
    p1 ← (if decide (slen > 2) then
            x ← __gen_b_src st sentence; y ← __gen_b_common st sentence; Ok [x; y]
          else Ok []);
    p2 ← (if decide (slen > 1) then x ← __gen_b_snk st sentence; Ok [x] else Ok []);
    Ok (And (p1 ++ p2)).

(** ** The aggregation path: class attributes are mutated *)

(** A computation on the class state: it ends with a value or an exception,
    and with the state as the mutations made so far left it. *)
Definition M (A : Type) : Type := engine → res A * engine.

#[global] Instance M_ret : MRet M := λ A a st, (Ok a, st).
#[global] Instance M_bind : MBind M := λ A B f m st,
  match m st with
  | (Ok a, st') => f a st'
  | (Raise e, st') => (Raise e, st')
  end.

(** [raise e] *)
Definition raise {A} (e : exn) : M A := λ st, (Raise e, st).

(** A read-only step. *)
Definition reads {A} (f : engine → res A) : M A := λ st, (f st, st).

Fixpoint M_for {A} (l : list A) (body : A → M ()) : M () :=
  match l with
  | [] => mret ()
  | x :: l' => _ ← body x; M_for l' body
  end.

(** [count = d.setdefault(key, 0); d[key] += 1] on one table. *)
Definition bump {K} `{EqDecision K} (key : K) (d : list (K * Z)) : res () * list (K * Z) :=
  let d1 := dict_setdefault key 0 d in
  match dict_incr key d1 with
  | Ok d2 => (Ok (), d2)
  | Raise e => (Raise e, d1)
  end.

(** In-place mutation of one table: the other attributes are untouched. *)
Definition set_src_to_alphabet1_table (t : list (Z * Z)) (st : engine) : engine :=
  Engine (alphabet st) (k st) (var_list st) (id_table st)
    t (alphabet1_to_alphabet_table st)
    (alphabet_to_alphabet_table st) (alphabet_to_snk_table st)
    (alphabet1_to_alphabet_imply_table st) (alphabet_to_alphabet_imply_table st) (alphabet_to_snk_imply_table st).

Definition set_alphabet1_to_alphabet_table (t : list (Z * Z * Z)) (st : engine) : engine :=
  Engine (alphabet st) (k st) (var_list st) (id_table st)
    (src_to_alphabet1_table st) t
    (alphabet_to_alphabet_table st) (alphabet_to_snk_table st)
    (alphabet1_to_alphabet_imply_table st) (alphabet_to_alphabet_imply_table st) (alphabet_to_snk_imply_table st).

Definition set_alphabet_to_alphabet_table (t : list (Z * Z * Z)) (st : engine) : engine :=
  Engine (alphabet st) (k st) (var_list st) (id_table st)
    (src_to_alphabet1_table st) (alphabet1_to_alphabet_table st)
    t (alphabet_to_snk_table st)
    (alphabet1_to_alphabet_imply_table st) (alphabet_to_alphabet_imply_table st) (alphabet_to_snk_imply_table st).

Definition set_alphabet_to_snk_table (t : list (Z * Z)) (st : engine) : engine :=
  Engine (alphabet st) (k st) (var_list st) (id_table st)
    (src_to_alphabet1_table st) (alphabet1_to_alphabet_table st)
    (alphabet_to_alphabet_table st) t
    (alphabet1_to_alphabet_imply_table st) (alphabet_to_alphabet_imply_table st) (alphabet_to_snk_imply_table st).

Definition set_alphabet1_to_alphabet_imply_table (t : list (Z * Z * Z * Z)) (st : engine) : engine :=
  Engine (alphabet st) (k st) (var_list st) (id_table st)
    (src_to_alphabet1_table st) (alphabet1_to_alphabet_table st)
    (alphabet_to_alphabet_table st) (alphabet_to_snk_table st)
    t (alphabet_to_alphabet_imply_table st) (alphabet_to_snk_imply_table st).

Definition set_alphabet_to_alphabet_imply_table (t : list (Z * Z * Z * Z)) (st : engine) : engine :=
  Engine (alphabet st) (k st) (var_list st) (id_table st)
    (src_to_alphabet1_table st) (alphabet1_to_alphabet_table st)
    (alphabet_to_alphabet_table st) (alphabet_to_snk_table st)
    (alphabet1_to_alphabet_imply_table st) t (alphabet_to_snk_imply_table st).

Definition set_alphabet_to_snk_imply_table (t : list (Z * Z * Z)) (st : engine) : engine :=
  Engine (alphabet st) (k st) (var_list st) (id_table st)
    (src_to_alphabet1_table st) (alphabet1_to_alphabet_table st)
    (alphabet_to_alphabet_table st) (alphabet_to_snk_table st)
    (alphabet1_to_alphabet_imply_table st) (alphabet_to_alphabet_imply_table st) t.

Definition on_src_to_alphabet1_table
    (f : list (Z * Z) → res () * list (Z * Z)) : M () :=
  λ st, let r := f (src_to_alphabet1_table st) in (r.1, set_src_to_alphabet1_table r.2 st).

Definition on_alphabet1_to_alphabet_table
    (f : list (Z * Z * Z) → res () * list (Z * Z * Z)) : M () :=
  λ st, let r := f (alphabet1_to_alphabet_table st) in (r.1, set_alphabet1_to_alphabet_table r.2 st).

Definition on_alphabet_to_alphabet_table
    (f : list (Z * Z * Z) → res () * list (Z * Z * Z)) : M () :=
  λ st, let r := f (alphabet_to_alphabet_table st) in (r.1, set_alphabet_to_alphabet_table r.2 st).

Definition on_alphabet_to_snk_table
    (f : list (Z * Z) → res () * list (Z * Z)) : M () :=
  λ st, let r := f (alphabet_to_snk_table st) in (r.1, set_alphabet_to_snk_table r.2 st).

Definition on_alphabet1_to_alphabet_imply_table
    (f : list (Z * Z * Z * Z) → res () * list (Z * Z * Z * Z)) : M () :=
  λ st, let r := f (alphabet1_to_alphabet_imply_table st) in (r.1, set_alphabet1_to_alphabet_imply_table r.2 st).

Definition on_alphabet_to_alphabet_imply_table
    (f : list (Z * Z * Z * Z) → res () * list (Z * Z * Z * Z)) : M () :=
  λ st, let r := f (alphabet_to_alphabet_imply_table st) in (r.1, set_alphabet_to_alphabet_imply_table r.2 st).

Definition on_alphabet_to_snk_imply_table
    (f : list (Z * Z * Z) → res () * list (Z * Z * Z)) : M () :=
  λ st, let r := f (alphabet_to_snk_imply_table st) in (r.1, set_alphabet_to_snk_imply_table r.2 st).

(** [_gen_sentence_constraint_a]: the formula when [ext], else the update of
    the four edge tables and Python's [None]. *)
Definition _gen_sentence_constraint_a (sentence : list string) (ext : bool)
    : M (option formula) :=
  if ext then
    f ← reads (λ st, __gen_constraint_a_formula st sentence); mret (Some f)
  else
    id2 ← reads (λ st, sentence_id st sentence 0);
    _ ← on_src_to_alphabet1_table (bump id2);
    id1 ← reads (λ st, sentence_id st sentence (-1));
    _ ← on_alphabet_to_snk_table (bump id1);
    let slen := len sentence in
    _ ← (if decide (slen > 1) then
           id1 ← reads (λ st, sentence_id st sentence 0);
           id2 ← reads (λ st, sentence_id st sentence 1);
           on_alphabet1_to_alphabet_table (bump (id1, id2))
         else mret ());
    _ ← (if decide (slen > 2) then
           M_for (py_range 1 (slen - 1)) (λ i,
             id1 ← reads (λ st, sentence_id st sentence i);
             id2 ← reads (λ st, sentence_id st sentence (i + 1));
             on_alphabet_to_alphabet_table (bump (id1, id2)))
         else mret ());
    mret None.

(** [_gen_sentence_constraint_b]: the formula when [ext], else the update of
    the three transitivity tables and [None]. *)
Definition _gen_sentence_constraint_b (sentence : list string) (ext : bool)
    : M (option formula) :=
  if ext then
    f ← reads (λ st, __gen_constraint_b_formula st sentence); mret (Some f)
  else
    let slen := len sentence in
    _ ← (if decide (slen > 1) then
           id1 ← reads (λ st, sentence_id st sentence (-2));
           id2 ← reads (λ st, sentence_id st sentence (-1));
           on_alphabet_to_snk_imply_table (bump (id1, id2))
         else mret ());
    _ ← (if decide (slen > 2) then
           id1 ← reads (λ st, sentence_id st sentence 0);
           id2 ← reads (λ st, sentence_id st sentence 1);
           id3 ← reads (λ st, sentence_id st sentence 2);
           _ ← on_alphabet1_to_alphabet_imply_table (bump (id1, id2, id3));
           M_for (py_range 1 (slen - 2)) (λ i,
             id1 ← reads (λ st, sentence_id st sentence i);
             id2 ← reads (λ st, sentence_id st sentence (i + 1));
             id3 ← reads (λ st, sentence_id st sentence (i + 2));
             on_alphabet_to_alphabet_imply_table (bump (id1, id2, id3)))
         else mret ());
    mret None.

(** The value bound to [const_a] in [gen_sentence_constraint]. *)
Definition sentence_const_a (sentence : list string) (ext : bool) : M (option formula) :=
  if decide (len sentence = 0) then f ← reads (λ st, var st 0); mret (Some f)
  else _gen_sentence_constraint_a sentence ext.

(** The value bound to [const_b] in [gen_sentence_constraint]. *)
Definition sentence_const_b (sentence : list string) (ext : bool) : M (option formula) :=
  k_le_1 ← reads (λ st, Ok (bool_decide (k st ≤ 1)));
  if k_le_1 : bool then f ← reads (λ st, var st 0); mret (Some f)
  else _gen_sentence_constraint_b sentence ext.

(** [gen_sentence_constraint]: [And(const_a, const_b)] when [ext], else
    [None]; z3's [And] rejects a [None] argument. *)
Definition gen_sentence_constraint (sentence : list string) (ext : bool)
    : M (option formula) :=
  const_a ← sentence_const_a sentence ext;
  const_b ← sentence_const_b sentence ext;
  if ext then
    match const_a, const_b with
    | Some a, Some b => mret (Some (And [a; b]))
    | _, _ => raise Z3Exception
    end
  else mret None.

(** ** Predicates used in the statements *)

(** The tuples [_quadruple_to_idx] is called on: [src] to a symbol slot, a
    symbol slot to [snk], [src] to [snk], and symbol slot to symbol slot. *)
Definition valid_tuple (st : engine) (id1 k1 id2 k2 : Z) : Prop :=
  (id1 = 0 ∧ k1 = 0 ∧ 1 ≤ id2 ≤ get_size st ∧ 1 ≤ k2 ≤ k st) ∨
  (1 ≤ id1 ≤ get_size st ∧ 1 ≤ k1 ≤ k st ∧ id2 = get_size st + 1 ∧ k2 = 0) ∨
  (id1 = 0 ∧ k1 = 0 ∧ id2 = get_size st + 1 ∧ k2 = 0) ∨
  (1 ≤ id1 ≤ get_size st ∧ 1 ≤ k1 ≤ k st ∧ 1 ≤ id2 ≤ get_size st ∧ 1 ≤ k2 ≤ k st).

(** Ids in [0..S+1] and slots in [0..k]. *)
Definition in_domain (st : engine) (id1 k1 id2 k2 : Z) : Prop :=
  0 ≤ id1 ≤ get_size st + 1 ∧ 0 ≤ k1 ≤ k st ∧
  0 ≤ id2 ≤ get_size st + 1 ∧ 0 ≤ k2 ≤ k st.


(** The attributes other than the occurrence tables. *)
Definition same_config (st st' : engine) : Prop :=
  alphabet st' = alphabet st ∧ k st' = k st ∧
  var_list st' = var_list st ∧ id_table st' = id_table st.

(** A computation that ends in the state it started in. *)
Definition read_only {A} (m : M A) : Prop := ∀ st, (m st).2 = st.

(** A computation that may change the occurrence tables only. *)
Definition keeps_config {A} (m : M A) : Prop := ∀ st, same_config st (m st).2.


(** ** The aggregation in closed form *)

Section dict_closed.
Context {K : Type} `{EqDecision K}.

(** What [setdefault(key, 0)] followed by [+= 1] leaves in the table. *)
Fixpoint dict_bump (key : K) (d : list (K * Z)) : list (K * Z) :=
  match d with
  | [] => [(key, 1)]
  | (key', v) :: d' =>
      if decide (key' = key) then (key', v + 1) :: d' else (key', v) :: dict_bump key d'
  end.

Definition dict_bump_all (keys : list K) (d : list (K * Z)) : list (K * Z) :=
  foldl (λ d key, dict_bump key d) d keys.

(** The counter of a key, [0] for a key that is not in the table. *)
Definition count (key : K) (d : list (K * Z)) : Z := default 0 (dict_get key d).

(** No counter is negative: what an occurrence table looks like in every
    state the class can reach, counters only ever being created at [0] and
    incremented. *)
Definition nonneg (d : list (K * Z)) : Prop := Forall (λ kv, 0 ≤ kv.2) d.

Definition positive_at (key : K) (d : list (K * Z)) : Prop :=
  ∃ v, dict_get key d = Some v ∧ 0 < v.
End dict_closed.

(** The id of [sentence[i]] when the lookup succeeds. *)
Definition ident (st : engine) (sentence : list string) (i : Z) : Z :=
  match sentence_id st sentence i with Ok x => x | Raise _ => 0 end.

Definition pair_at (st : engine) (sentence : list string) (i : Z) : Z * Z :=
  (ident st sentence i, ident st sentence (i + 1)).

Definition triple_at (st : engine) (sentence : list string) (i : Z) : Z * Z * Z :=
  (ident st sentence i, ident st sentence (i + 1), ident st sentence (i + 2)).

(** Every symbol of the sentence has an id. *)
Definition known (st : engine) (sentence : list string) : Prop :=
  Forall (λ ch, is_Some (id_table st !! ch)) sentence.

(** The state [_gen_sentence_constraint_a(False)] ends in on a non-empty
    sentence of known symbols. *)
Definition aggregate_a (sentence : list string) (st : engine) : engine :=
  let slen := len sentence in
  set_alphabet_to_alphabet_table
    (if decide (slen > 2) then
       dict_bump_all (pair_at st sentence <$> py_range 1 (slen - 1))
         (alphabet_to_alphabet_table st)
     else alphabet_to_alphabet_table st)
  (set_alphabet1_to_alphabet_table
    (if decide (slen > 1) then
       dict_bump (pair_at st sentence 0) (alphabet1_to_alphabet_table st)
     else alphabet1_to_alphabet_table st)
  (set_alphabet_to_snk_table
    (dict_bump (ident st sentence (-1)) (alphabet_to_snk_table st))
  (set_src_to_alphabet1_table
    (dict_bump (ident st sentence 0) (src_to_alphabet1_table st)) st))).

(** The state [_gen_sentence_constraint_b(False)] ends in on a sentence of
    known symbols. *)
Definition aggregate_b (sentence : list string) (st : engine) : engine :=
  let slen := len sentence in
  set_alphabet_to_alphabet_imply_table
    (if decide (slen > 2) then
       dict_bump_all (triple_at st sentence <$> py_range 1 (slen - 2))
         (alphabet_to_alphabet_imply_table st)
     else alphabet_to_alphabet_imply_table st)
  (set_alphabet1_to_alphabet_imply_table
    (if decide (slen > 2) then
       dict_bump (triple_at st sentence 0) (alphabet1_to_alphabet_imply_table st)
     else alphabet1_to_alphabet_imply_table st)
  (set_alphabet_to_snk_imply_table
    (if decide (slen > 1) then
       dict_bump (pair_at st sentence (-2)) (alphabet_to_snk_imply_table st)
     else alphabet_to_snk_imply_table st) st)).

(** The state [gen_sentence_constraint(False)] ends in on a sentence of known
    symbols. *)
Definition aggregate (sentence : list string) (st : engine) : engine :=
  let st1 := if decide (len sentence = 0) then st else aggregate_a sentence st in
  if decide (k st ≤ 1) then st1 else aggregate_b sentence st1.

(** The loop over the positive samples in [generate_fomula] (ts_demo.py). *)
Definition aggregate_positive (sen_pos : list (list string)) : M () :=
  M_for sen_pos (λ s, _ ← gen_sentence_constraint s false; mret ()).

(** All seven tables have non-negative counters. *)
Definition tables_nonneg (st : engine) : Prop :=
  nonneg (src_to_alphabet1_table st) ∧ nonneg (alphabet1_to_alphabet_table st) ∧
  nonneg (alphabet_to_alphabet_table st) ∧ nonneg (alphabet_to_snk_table st) ∧
  nonneg (alphabet1_to_alphabet_imply_table st) ∧
  nonneg (alphabet_to_alphabet_imply_table st) ∧
  nonneg (alphabet_to_snk_imply_table st).


(** The keys one call of [gen_sentence_constraint(False)] bumps, table by
    table, in the order of the bumps. *)
Definition keys_src_to_alphabet1 (st : engine) (s : list string) : list Z :=
  if decide (len s = 0) then [] else [ident st s 0].

Definition keys_alphabet_to_snk (st : engine) (s : list string) : list Z :=
  if decide (len s = 0) then [] else [ident st s (-1)].

Definition keys_alphabet1_to_alphabet (st : engine) (s : list string) : list (Z * Z) :=
  if decide (len s > 1) then [pair_at st s 0] else [].

Definition keys_alphabet_to_alphabet (st : engine) (s : list string) : list (Z * Z) :=
  if decide (len s > 2) then pair_at st s <$> py_range 1 (len s - 1) else [].

Definition keys_alphabet_to_snk_imply (st : engine) (s : list string) : list (Z * Z) :=
  if decide (k st ≤ 1) then [] else
  if decide (len s > 1) then [pair_at st s (-2)] else [].

Definition keys_alphabet1_to_alphabet_imply (st : engine) (s : list string)
    : list (Z * Z * Z) :=
  if decide (k st ≤ 1) then [] else
  if decide (len s > 2) then [triple_at st s 0] else [].

Definition keys_alphabet_to_alphabet_imply (st : engine) (s : list string)
    : list (Z * Z * Z) :=
  if decide (k st ≤ 1) then [] else
  if decide (len s > 2) then triple_at st s <$> py_range 1 (len s - 2) else [].



(** The state the loop of [generate_fomula] ends in on samples of known
    symbols. *)
Definition aggregate_all (sen_pos : list (list string)) (st : engine) : engine :=
  foldl (λ st s, aggregate s st) st sen_pos.

(** A sample over the configured alphabet. *)
Definition over_alphabet (alph : list string) (s : list string) : Prop :=
  Forall (λ ch, ch ∈ alph) s.

(** What each conjunct of Part A says of an assignment [v], key by key. *)
Definition sat_src (st : engine) (v : Z → bool) (id2 : Z) : bool :=
  forallb v (_get_alphabet_to_alphabet_list st 0 id2 false).

Definition sat_first (st : engine) (v : Z → bool) (key : Z * Z) : bool :=
  existsb v (_get_alphabet_to_alphabet_list st key.1 key.2 true).

Definition sat_interior (st : engine) (v : Z → bool) (key : Z * Z) : bool :=
  existsb v (_get_alphabet_to_alphabet_list st key.1 key.2 false).

Definition sat_snk (st : engine) (v : Z → bool) (id1 : Z) : bool :=
  existsb v (_get_alphabet_to_alphabet_list st id1 (get_size st + 1) false).


(** No edge and no triple is evidenced twice by the samples: the keys bumped
    in each table are pairwise distinct. *)
Definition evidence_no_repeats (st : engine) (samples : list (list string)) : Prop :=
  NoDup (samples ≫= keys_src_to_alphabet1 st) ∧
  NoDup (samples ≫= keys_alphabet1_to_alphabet st) ∧
  NoDup (samples ≫= keys_alphabet_to_alphabet st) ∧
  NoDup (samples ≫= keys_alphabet_to_snk st) ∧
  NoDup (samples ≫= keys_alphabet1_to_alphabet_imply st) ∧
  NoDup (samples ≫= keys_alphabet_to_alphabet_imply st) ∧
  NoDup (samples ≫= keys_alphabet_to_snk_imply st).


(** The index holds the variable of that number. *)
Definition is_var (st : engine) (i : Z) : Prop := var st i = Ok (BoolVar i).

(** The id of an alphabet symbol. *)
Definition valid_id (st : engine) (i : Z) : Prop := 1 ≤ i ≤ get_size st.

(** Every key that passes the [value>0] test in a table is made of ids of
    alphabet symbols: what the tables hold after any number of samples over
    the alphabet have been aggregated. *)
Definition observed_valid (st : engine) : Prop :=
  Forall (valid_id st) (observed (src_to_alphabet1_table st)) ∧
  Forall (λ key, valid_id st key.1 ∧ valid_id st key.2)
    (observed (alphabet1_to_alphabet_table st)) ∧
  Forall (λ key, valid_id st key.1 ∧ valid_id st key.2)
    (observed (alphabet_to_alphabet_table st)) ∧
  Forall (valid_id st) (observed (alphabet_to_snk_table st)) ∧
  Forall (λ key, valid_id st key.1.1 ∧ valid_id st key.1.2 ∧ valid_id st key.2)
    (observed (alphabet1_to_alphabet_imply_table st)) ∧
  Forall (λ key, valid_id st key.1.1 ∧ valid_id st key.1.2 ∧ valid_id st key.2)
    (observed (alphabet_to_alphabet_imply_table st)) ∧
  Forall (λ key, valid_id st key.1 ∧ valid_id st key.2)
    (observed (alphabet_to_snk_imply_table st)).

(** ** Diagnostics *)

(** One [for key, value in table.items()] loop of
    [print_global_table_count]: [count_all += value; count_valid += 1]. *)
Definition count_items {K} (acc : Z * Z) (d : list (K * Z)) : Z * Z :=
  foldl (λ acc kv, (acc.1 + kv.2, acc.2 + 1)) acc d.

(** [print_global_table_count]: the pair [(count_all, count_valid)] that the
    function formats and prints. *)
Definition print_global_table_count (st : engine) : Z * Z :=
  let acc := count_items (0, 0) (src_to_alphabet1_table st) in
  let acc := count_items acc (alphabet1_to_alphabet_table st) in
  let acc := count_items acc (alphabet_to_alphabet_table st) in
  let acc := count_items acc (alphabet_to_snk_table st) in
  let acc := count_items acc (alphabet1_to_alphabet_imply_table st) in
  let acc := count_items acc (alphabet_to_alphabet_imply_table st) in
  count_items acc (alphabet_to_snk_imply_table st).

(** A table as a Python dict holds it: no key twice, and every counter at
    least one. *)
Definition dict_wf {K} (d : list (K * Z)) : Prop :=
  NoDup d.*1 ∧ Forall (λ kv, 1 ≤ kv.2) d.

Definition tables_wf (st : engine) : Prop :=
  dict_wf (src_to_alphabet1_table st) ∧ dict_wf (alphabet1_to_alphabet_table st) ∧
  dict_wf (alphabet_to_alphabet_table st) ∧ dict_wf (alphabet_to_snk_table st) ∧
  dict_wf (alphabet1_to_alphabet_imply_table st) ∧
  dict_wf (alphabet_to_alphabet_imply_table st) ∧
  dict_wf (alphabet_to_snk_imply_table st).

(** The number of counter increments one aggregation of a sample of length
    [n] makes. *)
Definition bumps_per_sample (kk n : Z) : Z :=
  if decide (n = 0) then 0 else if decide (kk ≤ 1) then n + 1 else 2 * n.

(** The sum of the counters of a table. *)
Definition sum_values {K} (d : list (K * Z)) : Z := foldr (λ kv acc, kv.2 + acc) 0 d.

(** ** Reading the formulas *)

(** What a list of implications [Or(pre) → Or(post)] says of an assignment. *)
Definition sat_imply (v : Z → bool) (l : list (list Z * list Z)) : bool :=
  forallb (λ pp, implb (existsb v pp.1) (existsb v pp.2)) l.

(** The automaton that an assignment [v] of the edge variables describes
    accepts the sentence along [slot]: a path from [src] into the canonical
    slot of the first symbol, through slot [slot i] of the symbol at
    position [i], and from the last symbol into [snk]. *)
Definition accepting_path (st : engine) (v : Z → bool) (s : list string)
    (slot : Z → Z) : Prop :=
  slot 0 = 1 ∧
  (∀ i, 0 ≤ i < len s → 1 ≤ slot i ≤ k st) ∧
  v (_quadruple_to_idx st 0 0 (ident st s 0) 1) = true ∧
  (∀ i, 0 ≤ i < len s - 1 →
     v (_quadruple_to_idx st (ident st s i) (slot i) (ident st s (i + 1)) (slot (i + 1)))
     = true) ∧
  v (_quadruple_to_idx st (ident st s (len s - 1)) (slot (len s - 1)) (get_size st + 1) 0)
  = true.

(** What the three conjuncts of the standalone Part b say of an
    assignment. *)
Definition sat_b_src (st : engine) (v : Z → bool) (s : list string) : bool :=
  forallb (λ j,
    implb (v (_quadruple_to_idx st (ident st s 0) 1 (ident st s 1) j))
      (existsb v ((λ j1, _quadruple_to_idx st (ident st s 1) j (ident st s 2) j1)
                    <$> py_range 1 (k st + 1))))
    (py_range 1 (k st + 1)).

Definition sat_b_common (st : engine) (v : Z → bool) (s : list string) : bool :=
  forallb (λ i, sat_imply v
    (_get_alphabet_to_alphabet_imply_list st (ident st s i) (ident st s (i + 1))
       (ident st s (i + 2)) false))
    (py_range 1 (len s - 2)).

Definition sat_b_snk (st : engine) (v : Z → bool) (s : list string) : bool :=
  forallb (λ j,
    implb (if decide (len s = 2)
           then v (_quadruple_to_idx st (ident st s (-2)) 1 (ident st s (-1)) j)
           else existsb v
                  ((λ j1, _quadruple_to_idx st (ident st s (-2)) j1 (ident st s (-1)) j)
                     <$> py_range 1 (k st + 1)))
      (v (_quadruple_to_idx st (ident st s (-1)) j (get_size st + 1) 0)))
    (py_range 1 (k st + 1)).

(** The automaton described by [v] is canonical at [src] and deterministic:
    a symbol entered from [src] at any slot is entered at slot one, and from
    a slot of a symbol at most one slot of any symbol is reached. *)
Definition deterministic (st : engine) (v : Z → bool) : Prop :=
  (∀ ch id2 k2, ch ∈ alphabet st → lookup_id st ch = Ok id2 → 1 ≤ k2 ≤ k st →
     v (_quadruple_to_idx st 0 0 id2 k2) = true →
     v (_quadruple_to_idx st 0 0 id2 1) = true) ∧
  (∀ ch1 ch2 id1 id2 k1 m m', ch1 ∈ alphabet st → ch2 ∈ alphabet st →
     lookup_id st ch1 = Ok id1 → lookup_id st ch2 = Ok id2 →
     1 ≤ k1 ≤ k st → 1 ≤ m ≤ k st → 1 ≤ m' ≤ k st →
     v (_quadruple_to_idx st id1 k1 id2 m) = true →
     v (_quadruple_to_idx st id1 k1 id2 m') = true → m = m').

(** What each kind of Part B entry says of an assignment. *)
Definition sat_first_triple (st : engine) (v : Z → bool) (key : Z * Z * Z) : bool :=
  sat_imply v (_get_alphabet_to_alphabet_imply_list st key.1.1 key.1.2 key.2 true).

Definition sat_interior_triple (st : engine) (v : Z → bool) (key : Z * Z * Z) : bool :=
  sat_imply v (_get_alphabet_to_alphabet_imply_list st key.1.1 key.1.2 key.2 false).

Definition sat_snk_pair (st : engine) (v : Z → bool) (key : Z * Z) : bool :=
  sat_imply v (_get_alphabet_to_alphabet_imply_list st key.1 key.2 (get_size st + 1) false).

(** The global constraint, read off the observed keys of the tables. *)
Definition global_sat (st : engine) (v : Z → bool) : bool :=
  forallb (sat_src st v) (observed (src_to_alphabet1_table st))
  && forallb (sat_first st v) (observed (alphabet1_to_alphabet_table st))
  && forallb (sat_interior st v) (observed (alphabet_to_alphabet_table st))
  && forallb (sat_snk st v) (observed (alphabet_to_snk_table st))
  && forallb (sat_first_triple st v) (observed (alphabet1_to_alphabet_imply_table st))
  && forallb (sat_interior_triple st v) (observed (alphabet_to_alphabet_imply_table st))
  && forallb (sat_snk_pair st v) (observed (alphabet_to_snk_imply_table st)).

(** The same reading of the keys one sample contributes. *)
Definition sample_sat (st : engine) (v : Z → bool) (s : list string) : bool :=
  forallb (sat_src st v) (keys_src_to_alphabet1 st s)
  && forallb (sat_first st v) (keys_alphabet1_to_alphabet st s)
  && forallb (sat_interior st v) (keys_alphabet_to_alphabet st s)
  && forallb (sat_snk st v) (keys_alphabet_to_snk st s)
  && forallb (sat_first_triple st v) (keys_alphabet1_to_alphabet_imply st s)
  && forallb (sat_interior_triple st v) (keys_alphabet_to_alphabet_imply st s)
  && forallb (sat_snk_pair st v) (keys_alphabet_to_snk_imply st s).

Fixpoint M_mapM {A B} (f : A → M B) (l : list A) : M (list B) :=
  match l with
  | [] => mret []
  | x :: l' => y ← f x; ys ← M_mapM f l'; mret (y :: ys)
  end.

(** [generate_fomula] (ts_demo.py); the call of [print_global_table_count]
    only prints.  z3's [Not] rejects a [None] argument. *)
Definition generate_fomula (sen_pos sen_neg : list (list string)) : M formula :=
  d_formula ← reads gen_deterministic_formula;
  _ ← aggregate_positive sen_pos;
  formula_pos ← reads generate_global_constraint;
  negs ← M_mapM (λ s,
      st_const ← gen_sentence_constraint s true;
      match st_const with
      | Some f => mret (Not f)
      | None => raise Z3Exception
      end)
    sen_neg;
  let formula_neg := And ([BoolVal true] ++ negs) in
  mret (And [d_formula; formula_pos; formula_neg]).

(** ** The driver (ts_demo.py)

    A file is the list of the lines its iteration yields; a Python [str] is
    the string of its UTF-8 bytes, in which the three separators below are
    single bytes and the order on strings is the order on code points. *)

From Stdlib Require Import Ascii Sorted.

(** [s.replace(c, "")] for a one-character [c]. *)
Fixpoint remove_char (c : ascii) (s : string) : string :=
  match s with
  | EmptyString => EmptyString
  | String c' s' =>
      if decide (c' = c) then remove_char c s' else String c' (remove_char c s')
  end.

(** [s.split(sep)] for a one-character [sep]: one more piece than there are
    separators, so never the empty list. *)
Fixpoint split (sep : ascii) (s : string) : list string :=
  match s with
  | EmptyString => [EmptyString]
  | String c s' =>
      if decide (c = sep) then EmptyString :: split sep s'
      else match split sep s' with
           | w :: ws => String c w :: ws
           | [] => [String c EmptyString]
           end
  end.

(** The two statements of [read_file] that turn a line into a sample. *)
Definition parse_line (line : string) : list string :=
  let line := remove_char "013" (remove_char "010" line) in
  split "," line.

(** [read_file]: the samples in the order of the lines, and the set of their
    symbols. *)
Definition read_file (fin : list string) : list (list string) * gset string :=
  foldl (λ acc line,
      let tmp := parse_line line in
      (acc.1 ++ [tmp], foldl (λ alphabet ch, alphabet ∪ {[ch]}) acc.2 tmp))
    ([], ∅) fin.

(** [sorted] on strings: the ascending list, by insertion. *)
Fixpoint insert_sorted (x : string) (l : list string) : list string :=
  match l with
  | [] => [x]
  | y :: l' => if String.leb x y then x :: l else y :: insert_sorted x l'
  end.

Definition sorted (l : list string) : list string := foldr insert_sorted [] l.

Definition get_pos_and_neg_from_file (pos_file neg_file : list string)
    : list (list string) * list (list string) * list string :=
  let '(sen_pos, alphabet1) := read_file pos_file in
  let '(sen_neg, alphabet2) := read_file neg_file in
  let alphabet := alphabet1 ∩ alphabet2 in
  (sen_pos, sen_neg, sorted (elements alphabet)).

Definition get_pos_from_file (file : list string) : list (list string) * list string :=
  let '(sen_pos, alphabet) := read_file file in
  (sen_pos, sorted (elements alphabet)).

(** [step1], without its timing and printing. *)
Definition step1 (pos_file : list string) (neg_file : option (list string))
    : list (list string) * list (list string) * list string :=
  match neg_file with
  | None => let '(sen_pos, alphabet) := get_pos_from_file pos_file in (sen_pos, [], alphabet)
  | Some neg_file => get_pos_and_neg_from_file pos_file neg_file
  end.

(** [step2], run on the class as it is defined. *)
Definition step2 (sen_pos sen_neg : list (list string)) (alphabet : list string) (k : Z)
    : res formula * engine :=
  generate_fomula sen_pos sen_neg (global_init alphabet k).

(** * Properties *)

(** Evaluates the configuration of a concrete engine in an arithmetic goal. *)
Ltac eval_config :=
  unfold valid_tuple, in_domain, get_number, get_size, len; cbn.

(** ** Python lists and ranges *)

Lemma length_py_range a b : length (py_range a b) = Z.to_nat (b - a).
Proof. unfold py_range. by rewrite length_fmap, length_seq. Qed.

Lemma elem_of_py_range a b i : i ∈ py_range a b ↔ a ≤ i < b.
Proof.
  unfold py_range. rewrite list_elem_of_fmap. split.
  - intros (n & -> & Hn). apply elem_of_seq in Hn. lia.
  - intros Hi. exists (Z.to_nat (i - a)). split; [simpl; lia|].
    apply elem_of_seq. lia.
Qed.

Lemma py_range_lookup a b (n : nat) :
  (n < Z.to_nat (b - a))%nat → py_range a b !! n = Some (a + Z.of_nat n).
Proof.
  intros Hn. unfold py_range. rewrite list_lookup_fmap, lookup_seq_lt by done.
  done.
Qed.

Lemma py_range_empty a b : b ≤ a → py_range a b = [].
Proof. intros. unfold py_range. by replace (Z.to_nat (b - a)) with 0%nat by lia. Qed.

Lemma py_range_cons a b : a < b → py_range a b = a :: py_range (a + 1) b.
Proof.
  intros. unfold py_range.
  replace (Z.to_nat (b - a)) with (S (Z.to_nat (b - (a + 1)))) by lia.
  cbn [seq fmap list_fmap]. f_equal; [lia|].
  rewrite <- fmap_S_seq, <- list_fmap_compose. apply list_fmap_ext.
  intros _ n _. simpl. lia.
Qed.

Lemma py_index_nonneg {A} (l : list A) (i : Z) x :
  0 ≤ i → l !! Z.to_nat i = Some x → py_index l i = Ok x.
Proof.
  intros Hi Hx. unfold py_index.
  pose proof (lookup_lt_Some _ _ _ Hx). unfold len. cbv zeta.
  destruct (decide (i < 0)); [lia|].
  destruct (decide _); [|lia]. by rewrite Hx.
Qed.

Lemma py_index_neg {A} (l : list A) (i : Z) x :
  i < 0 → 0 ≤ len l + i → l !! Z.to_nat (len l + i) = Some x → py_index l i = Ok x.
Proof.
  intros Hi Hj Hx. unfold py_index.
  pose proof (lookup_lt_Some _ _ _ Hx). unfold len in *. cbv zeta.
  destruct (decide (i < 0)); [|lia].
  destruct (decide _); [|lia]. by rewrite Hx.
Qed.

(** ** The configured engine *)

Lemma alphabet_global_init alph kk : alphabet (global_init alph kk) = alph.
Proof. reflexivity. Qed.

Lemma k_global_init alph kk : k (global_init alph kk) = kk.
Proof. reflexivity. Qed.

Lemma var_list_global_init alph kk :
  var_list (global_init alph kk)
  = BoolVal true ::
      (BoolVar <$> py_range 1 (get_number (global_init alph kk)
                               * get_number (global_init alph kk) + 1))
      ++ [BoolVal false].
Proof. reflexivity. Qed.

Lemma var_global_init_0 alph kk : var (global_init alph kk) 0 = Ok (BoolVal true).
Proof. by apply py_index_nonneg. Qed.

Lemma var_global_init alph kk i :
  1 ≤ i ≤ get_number (global_init alph kk) * get_number (global_init alph kk) →
  var (global_init alph kk) i = Ok (BoolVar i).
Proof.
  intros Hi. apply py_index_nonneg; [lia|].
  rewrite var_list_global_init. set (n := get_number _) in *.
  replace (Z.to_nat i) with (S (Z.to_nat (i - 1))) by lia. rewrite lookup_cons.
  rewrite lookup_app_l by (rewrite length_fmap, length_py_range; lia).
  rewrite list_lookup_fmap, py_range_lookup by lia. simpl. do 2 f_equal. lia.
Qed.

(** ** Addressing *)

Lemma divmod_ok q b r : 0 ≤ r < b → divmod (q * b + r) b = Ok (q, r).
Proof.
  intros Hr. unfold divmod. rewrite decide_False by lia.
  f_equal. f_equal.
  - symmetry. apply (Z.div_unique _ _ q r); lia.
  - symmetry. apply (Z.mod_unique _ _ q r); lia.
Qed.

Lemma quot_rem_unique n r c r' c' :
  0 ≤ c < n → 0 ≤ c' < n → r * n + c = r' * n + c' → r = r' ∧ c = c'.
Proof.
  intros ? ? Heq.
  destruct (Z.lt_trichotomy r r') as [?|[->|?]]; [exfalso; nia|lia|exfalso; nia].
Qed.

Section addressing.
Variable st : engine.
Hypothesis Hsize : 1 ≤ get_size st.
Hypothesis Hk : 1 ≤ k st.

Lemma get_number_ge_2 : 2 ≤ get_number st.
Proof. unfold get_number. nia. Qed.

(** A symbol slot, as a row or column number, lies in [1..N-1]. *)
Lemma slot_row_range id1 k1 :
  1 ≤ id1 ≤ get_size st → 1 ≤ k1 ≤ k st →
  1 ≤ (id1 - 1) * k st + k1 ≤ get_number st - 1.
Proof. unfold get_number. nia. Qed.

Lemma slot_row_inj id1 k1 id1' k1' :
  1 ≤ k1 ≤ k st → 1 ≤ k1' ≤ k st →
  (id1 - 1) * k st + k1 = (id1' - 1) * k st + k1' → id1 = id1' ∧ k1 = k1'.
Proof.
  intros ? ? Heq.
  destruct (Z.lt_trichotomy id1 id1') as [?|[->|?]]; [exfalso; nia|lia|exfalso; nia].
Qed.

Lemma quadruple_to_idx_src id2 k2 :
  id2 ≠ get_size st + 1 → _quadruple_to_idx st 0 0 id2 k2 = (id2 - 1) * k st + k2.
Proof.
  intros. unfold _quadruple_to_idx. rewrite decide_False by lia.
  by rewrite decide_True.
Qed.

Lemma quadruple_to_idx_snk id1 k1 k2 :
  id1 ≠ 0 →
  _quadruple_to_idx st id1 k1 (get_size st + 1) k2
  = ((id1 - 1) * k st + k1 + 1) * get_number st.
Proof.
  intros. unfold _quadruple_to_idx. rewrite decide_False by lia.
  rewrite decide_False by done. by rewrite decide_True.
Qed.

Lemma quadruple_to_idx_src_snk k1 k2 :
  _quadruple_to_idx st 0 k1 (get_size st + 1) k2 = get_number st.
Proof. unfold _quadruple_to_idx. by rewrite decide_True. Qed.

Lemma quadruple_to_idx_interior id1 k1 id2 k2 :
  id1 ≠ 0 → id2 ≠ get_size st + 1 →
  _quadruple_to_idx st id1 k1 id2 k2
  = ((id1 - 1) * k st + k1) * get_number st + ((id2 - 1) * k st + k2).
Proof.
  intros. unfold _quadruple_to_idx. rewrite decide_False by lia.
  rewrite decide_False by done. rewrite decide_False by done. lia.
Qed.

(** Every valid tuple is mapped into [1..N²]. *)
Lemma quadruple_to_idx_range id1 k1 id2 k2 :
  valid_tuple st id1 k1 id2 k2 →
  1 ≤ _quadruple_to_idx st id1 k1 id2 k2 ≤ get_number st * get_number st.
Proof.
  pose proof get_number_ge_2 as HN.
  intros [(-> & -> & H2 & Hk2)|[(H1 & Hk1 & -> & ->)|[(-> & -> & -> & ->)|(H1 & Hk1 & H2 & Hk2)]]].
  - rewrite quadruple_to_idx_src by lia.
    pose proof (slot_row_range _ _ H2 Hk2). nia.
  - rewrite quadruple_to_idx_snk by lia.
    pose proof (slot_row_range _ _ H1 Hk1). nia.
  - rewrite quadruple_to_idx_src_snk. nia.
  - rewrite quadruple_to_idx_interior by lia.
    pose proof (slot_row_range _ _ H1 Hk1). pose proof (slot_row_range _ _ H2 Hk2). nia.
Qed.

(** Which block an index lies in: the quotient and remainder by [N]. *)
Lemma quadruple_to_idx_shape id1 k1 id2 k2 :
  valid_tuple st id1 k1 id2 k2 →
  ∃ row col, _quadruple_to_idx st id1 k1 id2 k2 = row * get_number st + col ∧
    0 ≤ col < get_number st ∧
    row = (if decide (id1 = 0) then (if decide (id2 = get_size st + 1) then 1 else 0)
           else (id1 - 1) * k st + k1 + (if decide (id2 = get_size st + 1) then 1 else 0)) ∧
    col = (if decide (id2 = get_size st + 1) then 0 else (id2 - 1) * k st + k2).
Proof.
  pose proof get_number_ge_2 as HN.
  intros [(-> & -> & H2 & Hk2)|[(H1 & Hk1 & -> & ->)|[(-> & -> & -> & ->)|(H1 & Hk1 & H2 & Hk2)]]].
  - rewrite quadruple_to_idx_src by lia.
    pose proof (slot_row_range _ _ H2 Hk2).
    eexists _, _. split; [|split; [|split; reflexivity]].
    + rewrite decide_True by done. rewrite !decide_False by lia. lia.
    + rewrite decide_False by lia. lia.
  - rewrite quadruple_to_idx_snk by lia.
    eexists _, _. split; [|split; [|split; reflexivity]].
    + rewrite decide_False by lia. rewrite !decide_True by done. lia.
    + rewrite decide_True by done. lia.
  - rewrite quadruple_to_idx_src_snk.
    eexists _, _. split; [|split; [|split; reflexivity]].
    + rewrite !decide_True by done. lia.
    + rewrite decide_True by done. lia.
  - rewrite quadruple_to_idx_interior by lia.
    pose proof (slot_row_range _ _ H2 Hk2).
    eexists _, _. split; [|split; [|split; reflexivity]].
    + rewrite decide_False by lia. rewrite !decide_False by lia. lia.
    + rewrite decide_False by lia. lia.
Qed.

Lemma quadruple_to_idx_inj id1 k1 id2 k2 id1' k1' id2' k2' :
  valid_tuple st id1 k1 id2 k2 → valid_tuple st id1' k1' id2' k2' →
  _quadruple_to_idx st id1 k1 id2 k2 = _quadruple_to_idx st id1' k1' id2' k2' →
  (id1, k1, id2, k2) = (id1', k1', id2', k2').
Proof.
  pose proof get_number_ge_2 as HN.
  intros Hv Hv' Heq.
  destruct (quadruple_to_idx_shape _ _ _ _ Hv) as (r & c & E & Hc & Hr & Hcc).
  destruct (quadruple_to_idx_shape _ _ _ _ Hv') as (r' & c' & E' & Hc' & Hr' & Hcc').
  rewrite E, E' in Heq.
  assert (r = r' ∧ c = c') as [Hrr Hccc] by (by eapply quot_rem_unique).
  clear E E' Heq. subst r' c'.
  destruct Hv as [(-> & -> & H2 & Hk2)|[(H1 & Hk1 & -> & ->)|[(-> & -> & -> & ->)|(H1 & Hk1 & H2 & Hk2)]]];
  destruct Hv' as [(-> & -> & H2' & Hk2')|[(H1' & Hk1' & -> & ->)|[(-> & -> & -> & ->)|(H1' & Hk1' & H2' & Hk2')]]];
  repeat (first [rewrite decide_True in * by lia | rewrite decide_False in * by lia]);
  try (pose proof (slot_row_range _ _ H1 Hk1));
  try (pose proof (slot_row_range _ _ H2 Hk2));
  try (pose proof (slot_row_range _ _ H1' Hk1'));
  try (pose proof (slot_row_range _ _ H2' Hk2'));
  try lia; try done.
  - assert (id2 = id2' ∧ k2 = k2') as [-> ->] by (apply slot_row_inj; lia). done.
  - assert (id1 = id1' ∧ k1 = k1') as [-> ->] by (apply slot_row_inj; lia). done.
  - assert (id1 = id1' ∧ k1 = k1') as [-> ->] by (apply slot_row_inj; lia).
    assert (id2 = id2' ∧ k2 = k2') as [-> ->] by (apply slot_row_inj; lia). done.
Qed.
End addressing.

Lemma var_global_init_last alph kk :
  var (global_init alph kk)
    (get_number (global_init alph kk) * get_number (global_init alph kk) + 1)
  = Ok (BoolVal false).
Proof.
  set (n := get_number _). assert (0 ≤ n * n) by nia.
  apply py_index_nonneg; [lia|].
  rewrite var_list_global_init. fold n.
  replace (Z.to_nat (n * n + 1)) with (S (Z.to_nat (n * n))) by lia.
  rewrite lookup_cons.
  rewrite lookup_app_r by (rewrite length_fmap, length_py_range; lia).
  rewrite length_fmap, length_py_range.
  by replace (Z.to_nat (n * n) - Z.to_nat (n * n + 1 - 1))%nat with 0%nat by lia.
Qed.

(** C2: on the interior block, with [S ≥ 1] and [k ≥ 1], decoding the index
    of a tuple [(id1, slot1, id2, slot2)] returns that tuple. *)
Theorem C2_decode_encode_interior st id1 slot1 id2 slot2 :
  1 ≤ get_size st → 1 ≤ k st →
  1 ≤ id1 ≤ get_size st → 1 ≤ slot1 ≤ k st →
  1 ≤ id2 ≤ get_size st → 1 ≤ slot2 ≤ k st →
  _idx_to_quadruple st (_quadruple_to_idx st id1 slot1 id2 slot2)
  = Ok (id1, slot1, id2, slot2).
Proof.
  intros HS Hk H1 Hk1 H2 Hk2.
  rewrite quadruple_to_idx_interior by lia.
  pose proof (slot_row_range st HS Hk _ _ H2 Hk2).
  unfold _idx_to_quadruple.
  rewrite divmod_ok by lia. cbn [mbind res_bind].
  replace ((id1 - 1) * k st + slot1 - 1) with ((id1 - 1) * k st + (slot1 - 1)) by lia.
  rewrite divmod_ok by lia. cbn [mbind res_bind].
  replace ((id2 - 1) * k st + slot2 - 1) with ((id2 - 1) * k st + (slot2 - 1)) by lia.
  rewrite divmod_ok by lia. cbn [mbind res_bind].
  do 2 f_equal; [do 2 f_equal|]; lia.
Qed.

Lemma C2_decode_encode_interior_witness :
  _idx_to_quadruple (global_init ["a"; "b"] 2)
    (_quadruple_to_idx (global_init ["a"; "b"] 2) 1 2 1 1)
  = Ok (1, 2, 1, 1).
Proof. apply C2_decode_encode_interior; eval_config; lia. Defined.

(** C3, as stated, fails: no single constant is the [src→snk] index of
    every configuration. *)
Lemma C3_src_snk_index_not_constant :
  ¬ ∃ c : Z, ∀ (alph : list string) (kk : Z),
      _quadruple_to_idx (global_init alph kk) 0 0 (len alph + 1) 0 = c.
Proof.
  intros [c Hc].
  pose proof (Hc ["a"] 1) as H1. pose proof (Hc ["a"; "b"] 1) as H2.
  vm_compute in H1, H2. congruence.
Qed.

(** C3, amended: the [src→snk] index is [N = k·S + 1], whatever the slot
    arguments; it is fixed within a configuration and varies with [S] and
    [k]. *)
Theorem C3_src_snk_index_is_number st k1 k2 :
  _quadruple_to_idx st 0 k1 (get_size st + 1) k2 = k st * get_size st + 1.
Proof.
  unfold _quadruple_to_idx, get_number.
  rewrite decide_True by done. reflexivity.
Qed.

(** C7, as stated, fails: on ids and slots far outside the domain the call
    returns an index. *)
Lemma C7_out_of_range_returns :
  ¬ in_domain (global_init ["a"] 1) 7 9 (-4) 12 ∧
  call_quadruple_to_idx (global_init ["a"] 1) 7 9 (-4) 12 = Ok 37.
Proof. split; [|reflexivity]. eval_config. lia. Qed.

(** C7, amended: [_quadruple_to_idx] validates nothing; for any integers,
    in the domain or not, the call returns the value of its arithmetic and
    never raises. *)
Theorem C7_quadruple_to_idx_never_raises st id1 k1 id2 k2 :
  call_quadruple_to_idx st id1 k1 id2 k2 = Ok (_quadruple_to_idx st id1 k1 id2 k2) ∧
  (id1 ≠ 0 → id2 ≠ get_size st + 1 →
   _quadruple_to_idx st id1 k1 id2 k2
   = ((id1 - 1) * k st + k1) * get_number st + (id2 - 1) * k st + k2).
Proof.
  split; [reflexivity|]. intros. unfold _quadruple_to_idx.
  rewrite decide_False by lia. rewrite decide_False by done.
  by rewrite decide_False by done.
Qed.

(** C8: with [k = 1], for any alphabet, [gen_deterministic_formula] returns
    the constant-true sentinel [var_list[0]]. *)
Theorem C8_deterministic_formula_k1 (alph : list string) :
  ∃ f, gen_deterministic_formula (global_init alph 1) = Ok f ∧
       var (global_init alph 1) 0 = Ok f ∧
       equivalent f (BoolVal true).
Proof.
  exists (BoolVal true). split; [|split].
  - unfold gen_deterministic_formula. rewrite decide_True by done.
    apply var_global_init_0.
  - apply var_global_init_0.
  - done.
Qed.

(** C9: with [S ≥ 1] and [k ≥ 1], [_quadruple_to_idx] maps the valid tuples
    injectively into [1..N²]; the variable stored there is [A_idx], never
    the true sentinel at [0] nor the false sentinel at [N² + 1]. *)
Theorem C9_quadruple_to_idx_injective alph kk id1 k1 id2 k2 id1' k1' id2' k2' :
  1 ≤ len alph → 1 ≤ kk →
  valid_tuple (global_init alph kk) id1 k1 id2 k2 →
  valid_tuple (global_init alph kk) id1' k1' id2' k2' →
  1 ≤ _quadruple_to_idx (global_init alph kk) id1 k1 id2 k2
    ≤ (kk * len alph + 1) * (kk * len alph + 1) ∧
  (_quadruple_to_idx (global_init alph kk) id1 k1 id2 k2
   = _quadruple_to_idx (global_init alph kk) id1' k1' id2' k2' →
   (id1, k1, id2, k2) = (id1', k1', id2', k2')) ∧
  var (global_init alph kk) (_quadruple_to_idx (global_init alph kk) id1 k1 id2 k2)
  = Ok (BoolVar (_quadruple_to_idx (global_init alph kk) id1 k1 id2 k2)) ∧
  var (global_init alph kk) 0 = Ok (BoolVal true) ∧
  var (global_init alph kk) ((kk * len alph + 1) * (kk * len alph + 1) + 1)
  = Ok (BoolVal false).
Proof.
  intros HS Hk Hv Hv'.
  pose proof (quadruple_to_idx_range (global_init alph kk) HS Hk _ _ _ _ Hv) as Hr.
  split; [exact Hr|]. split; [|split; [|split]].
  - by apply quadruple_to_idx_inj.
  - by apply var_global_init.
  - apply var_global_init_0.
  - apply var_global_init_last.
Qed.

Lemma C9_quadruple_to_idx_injective_witness :
  1 ≤ _quadruple_to_idx (global_init ["a"; "b"] 2) 1 2 3 0 ≤ 25 ∧
  (_quadruple_to_idx (global_init ["a"; "b"] 2) 1 2 3 0
   = _quadruple_to_idx (global_init ["a"; "b"] 2) 2 1 1 2 →
   (1, 2, 3, 0) = (2, 1, 1, 2)) ∧
  var (global_init ["a"; "b"] 2) (_quadruple_to_idx (global_init ["a"; "b"] 2) 1 2 3 0)
  = Ok (BoolVar (_quadruple_to_idx (global_init ["a"; "b"] 2) 1 2 3 0)) ∧
  var (global_init ["a"; "b"] 2) 0 = Ok (BoolVal true) ∧
  var (global_init ["a"; "b"] 2) 26 = Ok (BoolVal false).
Proof.
  apply (C9_quadruple_to_idx_injective ["a"; "b"] 2 1 2 3 0 2 1 1 2);
    eval_config; lia.
Defined.

(** ** The frame of the two sentence paths *)

Lemma read_only_ret {A} (a : A) : read_only (mret a : M A).
Proof. by intros st. Qed.

Lemma read_only_raise {A} e : read_only (raise e : M A).
Proof. by intros st. Qed.

Lemma read_only_reads {A} (f : engine → res A) : read_only (reads f).
Proof. by intros st. Qed.

Lemma read_only_bind {A B} (m : M A) (f : A → M B) :
  read_only m → (∀ a, read_only (f a)) → read_only (m ≫= f).
Proof.
  intros Hm Hf st. unfold mbind, M_bind.
  specialize (Hm st). destruct (m st) as [[a|e] st']; simpl in Hm; subst st'.
  - apply Hf.
  - done.
Qed.

Lemma same_config_refl st : same_config st st.
Proof. by repeat split. Qed.

Lemma same_config_trans st1 st2 st3 :
  same_config st1 st2 → same_config st2 st3 → same_config st1 st3.
Proof. unfold same_config. intros (?&?&?&?) (?&?&?&?). repeat split; congruence. Qed.

Lemma read_only_keeps_config {A} (m : M A) : read_only m → keeps_config m.
Proof. intros Hm st. rewrite Hm. apply same_config_refl. Qed.

Lemma keeps_config_bind {A B} (m : M A) (f : A → M B) :
  keeps_config m → (∀ a, keeps_config (f a)) → keeps_config (m ≫= f).
Proof.
  intros Hm Hf st. unfold mbind, M_bind.
  specialize (Hm st). destruct (m st) as [[a|e] st']; simpl in Hm.
  - eapply same_config_trans; [exact Hm|apply Hf].
  - done.
Qed.

Lemma keeps_config_for {A} (l : list A) (body : A → M ()) :
  (∀ x, keeps_config (body x)) → keeps_config (M_for l body).
Proof.
  intros Hb. induction l as [|x l IH]; simpl.
  - apply read_only_keeps_config, read_only_ret.
  - apply keeps_config_bind; [apply Hb|]. by intros _.
Qed.

Lemma keeps_config_if {A} (P : Prop) `{Decision P} (m1 m2 : M A) :
  keeps_config m1 → keeps_config m2 → keeps_config (if decide P then m1 else m2).
Proof. by destruct (decide P). Qed.

Create HintDb frame discriminated.

#[local] Hint Resolve read_only_ret read_only_raise read_only_reads : frame.
#[local] Hint Extern 1 (keeps_config (on_src_to_alphabet1_table _)) => by intros [] : frame.
#[local] Hint Extern 1 (keeps_config (on_alphabet1_to_alphabet_table _)) => by intros [] : frame.
#[local] Hint Extern 1 (keeps_config (on_alphabet_to_alphabet_table _)) => by intros [] : frame.
#[local] Hint Extern 1 (keeps_config (on_alphabet_to_snk_table _)) => by intros [] : frame.
#[local] Hint Extern 1 (keeps_config (on_alphabet1_to_alphabet_imply_table _)) => by intros [] : frame.
#[local] Hint Extern 1 (keeps_config (on_alphabet_to_alphabet_imply_table _)) => by intros [] : frame.
#[local] Hint Extern 1 (keeps_config (on_alphabet_to_snk_imply_table _)) => by intros [] : frame.

(** Walks through a monadic body, one bind at a time. *)
Ltac frame_steps :=
  repeat first
    [ apply read_only_bind; [|intros ?]
    | apply keeps_config_bind; [|intros ?]
    | apply keeps_config_if
    | apply keeps_config_for; intros ?
    | solve [auto with frame]
    | apply read_only_keeps_config ].

Lemma read_only_gen_sentence_constraint_ext sentence :
  read_only (gen_sentence_constraint sentence true).
Proof.
  unfold gen_sentence_constraint, sentence_const_a, sentence_const_b,
    _gen_sentence_constraint_a, _gen_sentence_constraint_b.
  apply read_only_bind; [destruct (decide _); frame_steps|intros const_a].
  apply read_only_bind; [|intros const_b; destruct const_a, const_b; frame_steps].
  apply read_only_bind; [frame_steps|intros []; frame_steps].
Qed.

Lemma keeps_config_gen_sentence_constraint_a sentence ext :
  keeps_config (_gen_sentence_constraint_a sentence ext).
Proof. unfold _gen_sentence_constraint_a. destruct ext; frame_steps. Qed.

Lemma keeps_config_gen_sentence_constraint_b sentence ext :
  keeps_config (_gen_sentence_constraint_b sentence ext).
Proof. unfold _gen_sentence_constraint_b. destruct ext; frame_steps. Qed.

Lemma keeps_config_gen_sentence_constraint sentence ext :
  keeps_config (gen_sentence_constraint sentence ext).
Proof.
  unfold gen_sentence_constraint, sentence_const_a, sentence_const_b.
  apply keeps_config_bind.
  { destruct (decide _); [frame_steps|apply keeps_config_gen_sentence_constraint_a]. }
  intros const_a. apply keeps_config_bind.
  { apply keeps_config_bind; [frame_steps|].
    intros []; [frame_steps|apply keeps_config_gen_sentence_constraint_b]. }
  intros const_b. destruct ext; [destruct const_a, const_b|]; frame_steps.
Qed.

(** C10: the standalone path ([ext=True]) ends, on every input and whether
    it returns or raises, in the state it started in: tables, [id_table],
    [var_list] and configuration alike.  The aggregation path ([ext=False])
    keeps the configuration, [var_list] and [id_table], and does change the
    tables. *)
Theorem C10_standalone_is_read_only :
  (∀ sentence st, (gen_sentence_constraint sentence true st).2 = st) ∧
  (∀ sentence st, same_config st (gen_sentence_constraint sentence false st).2) ∧
  (∃ sentence st, (gen_sentence_constraint sentence false st).2 ≠ st).
Proof.
  split; [|split].
  - intros sentence. apply read_only_gen_sentence_constraint_ext.
  - intros sentence. apply keeps_config_gen_sentence_constraint.
  - exists ["a"], (global_init ["a"] 1). intros Heq.
    apply (f_equal src_to_alphabet1_table) in Heq. vm_compute in Heq. discriminate.
Qed.

(** ** The pair-before-snk implications of the global constraint *)

(** With any alphabet size but two, the antecedent lists every slot of the
    predecessor. *)
Lemma snk_imply_list_any_slot st id1 id2 :
  get_size st ≠ 2 →
  _get_alphabet_to_alphabet_imply_list st id1 id2 (get_size st + 1) false
  = (λ k2, ((λ k1, _quadruple_to_idx st id1 k1 id2 k2) <$> py_range 1 (k st + 1),
            [_quadruple_to_idx st id2 k2 (get_size st + 1) 0]))
      <$> py_range 1 (k st + 1).
Proof.
  intros HS. unfold _get_alphabet_to_alphabet_imply_list. cbn [negb].
  rewrite decide_True by done. apply list_fmap_ext. intros _ k2 _.
  by rewrite decide_False by lia.
Qed.

(** With exactly two symbols the sink id is the literal [3] of the source,
    and the antecedent is the canonical slot alone. *)
Lemma snk_imply_list_two_symbols st id1 id2 :
  get_size st = 2 →
  _get_alphabet_to_alphabet_imply_list st id1 id2 (get_size st + 1) false
  = (λ k2, ([_quadruple_to_idx st id1 1 id2 k2],
            [_quadruple_to_idx st id2 k2 (get_size st + 1) 0]))
      <$> py_range 1 (k st + 1).
Proof.
  intros HS. unfold _get_alphabet_to_alphabet_imply_list. cbn [negb].
  rewrite decide_True by done. apply list_fmap_ext. intros _ k2 _.
  by rewrite decide_True by lia.
Qed.

(** C5: the code at alphabet [a, b], [k = 2], after the positive sample
    [a a b].  The pair [(1, 2)] is observed in the pair-before-snk table;
    the Part B implications emitted for it have the canonical-slot variable
    [A_8], resp. [A_9], as their whole antecedent, where the any-slot
    disjunction is over [A_8, A_13], resp. [A_9, A_14]; the two antecedents
    are not equivalent. *)
Theorem C5_snk_imply_two_symbols_canonical_only :
  observed (alphabet_to_snk_imply_table
    (gen_sentence_constraint ["a"; "a"; "b"] false (global_init ["a"; "b"] 2)).2)
  = [(1, 2)] ∧
  imply_formulas (global_init ["a"; "b"] 2)
    (_get_alphabet_to_alphabet_imply_list (global_init ["a"; "b"] 2) 1 2
       (get_size (global_init ["a"; "b"] 2) + 1) false)
  = Ok [Implies (Or [BoolVar 8]) (Or [BoolVar 20]);
        Implies (Or [BoolVar 9]) (Or [BoolVar 25])] ∧
  (λ k2, (λ k1, _quadruple_to_idx (global_init ["a"; "b"] 2) 1 k1 2 k2) <$> py_range 1 3)
    <$> py_range 1 3
  = [[8; 13]; [9; 14]] ∧
  ¬ equivalent (Or [BoolVar 8]) (Or [BoolVar 8; BoolVar 13]).
Proof.
  split; [by vm_compute|]. split; [by vm_compute|]. split; [by vm_compute|].
  intros Heq. specialize (Heq (λ i, bool_decide (i = 13))). by vm_compute in Heq.
Qed.

(** ** Counters *)

Section dict_facts.
Context {K : Type} `{EqDecision K}.
Implicit Types (key : K) (d : list (K * Z)).

Lemma dict_incr_setdefault key d :
  dict_incr key (dict_setdefault key 0 d) = Ok (dict_bump key d).
Proof.
  unfold dict_setdefault. induction d as [|[key' v] d IH]; simpl.
  - by rewrite decide_True.
  - destruct (decide (key' = key)) as [->|Hne]; simpl.
    + by rewrite decide_True.
    + destruct (dict_get key d); simpl; rewrite decide_False by done;
        by rewrite IH.
Qed.

Lemma bump_ok key d : bump key d = (Ok (), dict_bump key d).
Proof. unfold bump. by rewrite dict_incr_setdefault. Qed.

Lemma dict_get_bump_eq key d :
  dict_get key (dict_bump key d) = Some (count key d + 1).
Proof.
  unfold count. induction d as [|[key' v] d IH]; simpl.
  - by rewrite decide_True.
  - destruct (decide (key' = key)) as [->|Hne]; simpl.
    + by rewrite decide_True.
    + by rewrite decide_False.
Qed.

Lemma dict_get_bump_ne key key' d :
  key ≠ key' → dict_get key (dict_bump key' d) = dict_get key d.
Proof.
  intros Hne. induction d as [|[key'' v] d IH]; simpl.
  - by rewrite decide_False.
  - destruct (decide (key'' = key')) as [->|Hne']; simpl.
    + by rewrite !decide_False by done.
    + destruct (decide (key'' = key)); [done|apply IH].
Qed.







Lemma nonneg_bump key d : nonneg d → nonneg (dict_bump key d).
Proof.
  unfold nonneg. induction d as [|[key' v] d IH]; simpl; intros Hd.
  - repeat constructor. simpl. lia.
  - apply Forall_cons in Hd as [Hv Hd]. simpl in Hv.
    destruct (decide (key' = key)); constructor; simpl; auto with lia.
Qed.

Lemma nonneg_bump_all keys d : nonneg d → nonneg (dict_bump_all keys d).
Proof.
  revert d. induction keys as [|key keys IH]; intros d Hd; simpl; [done|].
  by apply IH, nonneg_bump.
Qed.

Lemma observed_cons key v d :
  observed ((key, v) :: d) = if decide (0 < v) then key :: observed d else observed d.
Proof.
  unfold observed. rewrite filter_cons. simpl.
  by destruct (decide (0 < v)).
Qed.

Lemma elem_of_observed_bump key key' d :
  nonneg d →
  key ∈ observed (dict_bump key' d) ↔ key = key' ∨ key ∈ observed d.
Proof.
  unfold nonneg. induction d as [|[key'' v] d IH]; simpl; intros Hd.
  - rewrite observed_cons. rewrite decide_True by lia.
    rewrite elem_of_cons. tauto.
  - apply Forall_cons in Hd as [Hv Hd]. simpl in Hv. specialize (IH Hd).
    destruct (decide (key'' = key')) as [->|Hne].
    + rewrite !observed_cons. rewrite decide_True by lia.
      destruct (decide (0 < v)); rewrite !elem_of_cons; tauto.
    + rewrite !observed_cons.
      destruct (decide (0 < v)); rewrite ?elem_of_cons, IH; tauto.
Qed.

Lemma elem_of_observed_bump_all key keys d :
  nonneg d →
  key ∈ observed (dict_bump_all keys d) ↔ key ∈ keys ∨ key ∈ observed d.
Proof.
  revert d. induction keys as [|key' keys IH]; intros d Hd; simpl.
  - rewrite elem_of_nil. tauto.
  - rewrite IH by by apply nonneg_bump.
    rewrite elem_of_observed_bump by done. rewrite elem_of_cons. tauto.
Qed.

Lemma positive_at_bump key d : nonneg d → positive_at key (dict_bump key d).
Proof.
  intros Hd. exists (count key d + 1). split; [apply dict_get_bump_eq|].
  unfold count. destruct (dict_get key d) as [v|] eqn:E; simpl; [|lia].
  assert (0 ≤ v); [|lia].
  clear -E Hd. induction d as [|[key' v'] d IH]; simpl in *; [done|].
  apply Forall_cons in Hd as [Hv Hd].
  destruct (decide (key' = key)); [by simplify_eq|by apply IH].
Qed.

Lemma positive_at_bump_other key key' d :
  positive_at key d → positive_at key (dict_bump key' d).
Proof.
  intros (v & Hv & Hpos). destruct (decide (key = key')) as [->|Hne].
  - exists (v + 1). rewrite dict_get_bump_eq. unfold count. rewrite Hv. simpl.
    split; [done|lia].
  - exists v. by rewrite dict_get_bump_ne.
Qed.

Lemma observed_bump_positive key d :
  positive_at key d → observed (dict_bump key d) = observed d.
Proof.
  intros (v & Hv & Hpos). induction d as [|[key' v'] d IH]; simpl in *; [done|].
  destruct (decide (key' = key)) as [->|Hne].
  - simplify_eq. rewrite !observed_cons. by rewrite !decide_True by lia.
  - rewrite !observed_cons. by rewrite IH.
Qed.

(** Bumping keys that are already positive leaves the observed keys as
    they are. *)
Lemma observed_bump_all_positive keys d :
  Forall (λ key, positive_at key d) keys →
  observed (dict_bump_all keys d) = observed d.
Proof.
  revert d. induction keys as [|key keys IH]; intros d Hk; simpl; [done|].
  apply Forall_cons in Hk as [Hkey Hk].
  rewrite IH.
  - by apply observed_bump_positive.
  - eapply Forall_impl; [exact Hk|]. intros key'. apply positive_at_bump_other.
Qed.

Lemma positive_at_bump_all keys d :
  nonneg d → Forall (λ key, positive_at key (dict_bump_all keys d)) keys.
Proof.
  assert (∀ key keys d, positive_at key d → positive_at key (dict_bump_all keys d))
    as Hkeep.
  { clear. intros key keys. induction keys as [|key' keys IH]; intros d Hp; simpl;
      [done|]. by apply IH, positive_at_bump_other. }
  revert d. induction keys as [|key keys IH]; intros d Hd; simpl; [constructor|].
  constructor.
  - by apply Hkeep, positive_at_bump.
  - by apply IH, nonneg_bump.
Qed.
End dict_facts.

(** ** The aggregation path, step by step *)

Lemma bind_ok {A B} (m : M A) (f : A → M B) st a st' :
  m st = (Ok a, st') → (m ≫= f) st = f a st'.
Proof. intros Hm. unfold mbind, M_bind. by rewrite Hm. Qed.

Lemma sentence_id_same_table st st' sentence i :
  id_table st' = id_table st → sentence_id st' sentence i = sentence_id st sentence i.
Proof. intros Ht. unfold sentence_id, lookup_id. by rewrite Ht. Qed.

Lemma ident_same_table st st' sentence i :
  id_table st' = id_table st → ident st' sentence i = ident st sentence i.
Proof. intros Ht. unfold ident. by rewrite (sentence_id_same_table st st'). Qed.

Lemma py_index_in_range {A} (l : list A) (i : Z) :
  - len l ≤ i < len l → ∃ x, py_index l i = Ok x ∧ x ∈ l.
Proof.
  intros Hi. unfold len in Hi.
  destruct (decide (i < 0)) as [Hneg|Hpos].
  - destruct (lookup_lt_is_Some_2 l (Z.to_nat (len l + i))) as [x Hx];
      [unfold len; lia|].
    exists x. split; [apply py_index_neg; unfold len; (lia || done)|].
    by eapply list_elem_of_lookup_2.
  - destruct (lookup_lt_is_Some_2 l (Z.to_nat i)) as [x Hx]; [lia|].
    exists x. split; [apply py_index_nonneg; (lia || done)|].
    by eapply list_elem_of_lookup_2.
Qed.

Lemma sentence_id_ok st sentence i :
  known st sentence → - len sentence ≤ i < len sentence →
  sentence_id st sentence i = Ok (ident st sentence i).
Proof.
  intros Hk Hi. destruct (py_index_in_range sentence i Hi) as (ch & Hch & Hin).
  unfold known in Hk. rewrite Forall_forall in Hk. destruct (Hk ch Hin) as [x Hx].
  assert (sentence_id st sentence i = Ok x) as E.
  { unfold sentence_id, lookup_id. rewrite Hch. simpl. by rewrite Hx. }
  unfold ident. by rewrite E.
Qed.

Section aggregation_steps.
Variable st0 : engine.
Variable sentence : list string.
Hypothesis Hknown : known st0 sentence.

Lemma reads_sentence_id_ok {B} (f : Z → M B) st i :
  id_table st = id_table st0 → - len sentence ≤ i < len sentence →
  (reads (λ st, sentence_id st sentence i) ≫= f) st = f (ident st0 sentence i) st.
Proof.
  intros Ht Hi. apply bind_ok. unfold reads.
  by rewrite (sentence_id_same_table st0 st), sentence_id_ok.
Qed.

Lemma for_pairs_ok l st :
  id_table st = id_table st0 →
  Forall (λ i, 0 ≤ i ∧ i + 1 < len sentence) l →
  M_for l (λ i,
    id1 ← reads (λ st, sentence_id st sentence i);
    id2 ← reads (λ st, sentence_id st sentence (i + 1));
    on_alphabet_to_alphabet_table (bump (id1, id2))) st
  = (Ok (), set_alphabet_to_alphabet_table
              (dict_bump_all (pair_at st0 sentence <$> l) (alphabet_to_alphabet_table st))
              st).
Proof.
  intros Ht Hl. revert st Ht.
  induction Hl as [|i l [Hi1 Hi2] Hl IH]; intros st Ht.
  - by destruct st.
  - cbn [M_for]. erewrite bind_ok; last first.
    { rewrite !reads_sentence_id_ok by (done || lia).
      unfold on_alphabet_to_alphabet_table. by rewrite bump_ok. }
    cbn [fst snd]. rewrite IH by done. by destruct st.
Qed.

Lemma for_triples_ok l st :
  id_table st = id_table st0 →
  Forall (λ i, 0 ≤ i ∧ i + 2 < len sentence) l →
  M_for l (λ i,
    id1 ← reads (λ st, sentence_id st sentence i);
    id2 ← reads (λ st, sentence_id st sentence (i + 1));
    id3 ← reads (λ st, sentence_id st sentence (i + 2));
    on_alphabet_to_alphabet_imply_table (bump (id1, id2, id3))) st
  = (Ok (), set_alphabet_to_alphabet_imply_table
              (dict_bump_all (triple_at st0 sentence <$> l)
                 (alphabet_to_alphabet_imply_table st))
              st).
Proof.
  intros Ht Hl. revert st Ht.
  induction Hl as [|i l [Hi1 Hi2] Hl IH]; intros st Ht.
  - by destruct st.
  - cbn [M_for]. erewrite bind_ok; last first.
    { rewrite !reads_sentence_id_ok by (done || lia).
      unfold on_alphabet_to_alphabet_imply_table. by rewrite bump_ok. }
    cbn [fst snd]. rewrite IH by done. by destruct st.
Qed.

Lemma range_pairs : Forall (λ i, 0 ≤ i ∧ i + 1 < len sentence) (py_range 1 (len sentence - 1)).
Proof. apply Forall_forall. intros i Hi%elem_of_py_range. lia. Qed.

Lemma range_triples : Forall (λ i, 0 ≤ i ∧ i + 2 < len sentence) (py_range 1 (len sentence - 2)).
Proof. apply Forall_forall. intros i Hi%elem_of_py_range. lia. Qed.

Lemma gen_sentence_constraint_a_aggregates :
  len sentence ≠ 0 →
  _gen_sentence_constraint_a sentence false st0 = (Ok None, aggregate_a sentence st0).
Proof.
  intros Hlen. assert (0 ≤ len sentence) by (unfold len; lia).
  unfold _gen_sentence_constraint_a, aggregate_a. cbv zeta.
  rewrite reads_sentence_id_ok by (done || lia).
  unfold on_src_to_alphabet1_table at 1. erewrite bind_ok by (by rewrite bump_ok).
  rewrite reads_sentence_id_ok by (done || lia).
  unfold on_alphabet_to_snk_table at 1. erewrite bind_ok by (by rewrite bump_ok).
  cbn [fst snd].
  destruct (decide (len sentence > 1)) as [H1|H1].
  - erewrite bind_ok; last first.
    { rewrite !reads_sentence_id_ok by (done || lia).
      unfold on_alphabet1_to_alphabet_table. by rewrite bump_ok. }
    cbn [fst snd].
    destruct (decide (len sentence > 2)) as [H2|H2].
    + erewrite bind_ok; last first.
      { apply for_pairs_ok; first [apply range_pairs|done]. }
      by destruct st0.
    + by destruct st0.
  - destruct (decide (len sentence > 2)); [lia|]. by destruct st0.
Qed.

Lemma gen_sentence_constraint_b_aggregates :
  _gen_sentence_constraint_b sentence false st0 = (Ok None, aggregate_b sentence st0).
Proof.
  assert (0 ≤ len sentence) by (unfold len; lia).
  unfold _gen_sentence_constraint_b, aggregate_b. cbv zeta.
  destruct (decide (len sentence > 1)) as [H1|H1].
  - erewrite bind_ok; last first.
    { rewrite !reads_sentence_id_ok by (done || lia).
      unfold on_alphabet_to_snk_imply_table. by rewrite bump_ok. }
    cbn [fst snd].
    destruct (decide (len sentence > 2)) as [H2|H2].
    + erewrite bind_ok; last first.
      { rewrite !reads_sentence_id_ok by (done || lia).
        unfold on_alphabet1_to_alphabet_imply_table at 1.
        erewrite bind_ok by (by rewrite bump_ok).
        apply for_triples_ok; first [apply range_triples|done]. }
      by destruct st0.
    + by destruct st0.
  - destruct (decide (len sentence > 2)); [lia|]. by destruct st0.
Qed.
End aggregation_steps.

Lemma gen_sentence_constraint_aggregates st sentence :
  known st sentence →
  (len sentence = 0 ∨ k st ≤ 1 → ∃ f, var st 0 = Ok f) →
  gen_sentence_constraint sentence false st = (Ok None, aggregate sentence st).
Proof.
  intros Hknown Hvar. unfold gen_sentence_constraint, aggregate. cbv zeta.
  set (st1 := if decide (len sentence = 0) then st else aggregate_a sentence st).
  assert (same_config st st1) as (Ha & Hk & Hv & Hi).
  { subst st1. destruct (decide _); [apply same_config_refl|]. by destruct st. }
  assert (∃ a, sentence_const_a sentence false st = (Ok a, st1)) as [a Ea].
  { unfold sentence_const_a. subst st1. destruct (decide (len sentence = 0)).
    - destruct Hvar as [f0 Hf0]; [by left|]. eexists.
      by erewrite bind_ok by (unfold reads; by rewrite Hf0).
    - eexists. by apply gen_sentence_constraint_a_aggregates. }
  erewrite bind_ok by exact Ea.
  assert (∃ b, sentence_const_b sentence false st1
               = (Ok b, if decide (k st ≤ 1) then st1 else aggregate_b sentence st1))
    as [b Eb].
  { unfold sentence_const_b. erewrite bind_ok by reflexivity.
    rewrite Hk. destruct (decide (k st ≤ 1)).
    - rewrite bool_decide_eq_true_2 by done.
      destruct Hvar as [f0 Hf0]; [by right|].
      assert (var st1 0 = Ok f0) as Hf1 by (unfold var in *; by rewrite Hv).
      eexists. by erewrite bind_ok by (unfold reads; by rewrite Hf1).
    - rewrite bool_decide_eq_false_2 by done. eexists.
      apply gen_sentence_constraint_b_aggregates.
      unfold known in *. by rewrite Hi. }
  erewrite bind_ok by exact Eb. done.
Qed.

(** ** What one aggregation does to each table *)

Section aggregate_tables.
Variables (st : engine) (s : list string).

Lemma same_config_aggregate : same_config st (aggregate s st).
Proof.
  unfold aggregate. cbv zeta.
  destruct (decide (len s = 0)), (decide (k st ≤ 1)); by destruct st.
Qed.

Lemma ident_aggregate s' i : ident (aggregate s st) s' i = ident st s' i.
Proof. apply ident_same_table, same_config_aggregate. Qed.

Ltac table_of_aggregate :=
  unfold aggregate, aggregate_a, aggregate_b, keys_src_to_alphabet1,
    keys_alphabet_to_snk, keys_alphabet1_to_alphabet, keys_alphabet_to_alphabet,
    keys_alphabet_to_snk_imply, keys_alphabet1_to_alphabet_imply,
    keys_alphabet_to_alphabet_imply;
  cbv zeta;
  pose proof (Nat2Z.is_nonneg (length s));
  unfold len in *;
  repeat (match goal with |- context [decide ?P] => destruct (decide P) end;
          try lia);
  by destruct st.

Lemma src_to_alphabet1_table_aggregate :
  src_to_alphabet1_table (aggregate s st)
  = dict_bump_all (keys_src_to_alphabet1 st s) (src_to_alphabet1_table st).
Proof. table_of_aggregate. Qed.

Lemma alphabet_to_snk_table_aggregate :
  alphabet_to_snk_table (aggregate s st)
  = dict_bump_all (keys_alphabet_to_snk st s) (alphabet_to_snk_table st).
Proof. table_of_aggregate. Qed.

Lemma alphabet1_to_alphabet_table_aggregate :
  alphabet1_to_alphabet_table (aggregate s st)
  = dict_bump_all (keys_alphabet1_to_alphabet st s) (alphabet1_to_alphabet_table st).
Proof. table_of_aggregate. Qed.

Lemma alphabet_to_alphabet_table_aggregate :
  alphabet_to_alphabet_table (aggregate s st)
  = dict_bump_all (keys_alphabet_to_alphabet st s) (alphabet_to_alphabet_table st).
Proof. table_of_aggregate. Qed.

Lemma alphabet_to_snk_imply_table_aggregate :
  alphabet_to_snk_imply_table (aggregate s st)
  = dict_bump_all (keys_alphabet_to_snk_imply st s) (alphabet_to_snk_imply_table st).
Proof. table_of_aggregate. Qed.

Lemma alphabet1_to_alphabet_imply_table_aggregate :
  alphabet1_to_alphabet_imply_table (aggregate s st)
  = dict_bump_all (keys_alphabet1_to_alphabet_imply st s)
      (alphabet1_to_alphabet_imply_table st).
Proof. table_of_aggregate. Qed.

Lemma alphabet_to_alphabet_imply_table_aggregate :
  alphabet_to_alphabet_imply_table (aggregate s st)
  = dict_bump_all (keys_alphabet_to_alphabet_imply st s)
      (alphabet_to_alphabet_imply_table st).
Proof. table_of_aggregate. Qed.
End aggregate_tables.


Lemma py_index_from_end {A} (l : list A) (i : Z) :
  i < 0 → 0 ≤ len l + i → py_index l i = py_index l (len l + i).
Proof.
  intros Hi Hj. unfold py_index. cbv zeta.
  rewrite (decide_True (P := i < 0)) by done.
  by rewrite (decide_False (P := len l + i < 0)) by lia.
Qed.

Lemma ident_from_end st s i :
  i < 0 → 0 ≤ len s + i → ident st s i = ident st s (len s + i).
Proof. intros. unfold ident, sentence_id. by rewrite py_index_from_end. Qed.

(** ** Recording of triples (C4) *)




(** ** What the global constraint reads of the tables *)

(** The global constraint depends on the state through the configuration,
    [var_list] and the observed keys of the seven tables only. *)
Lemma generate_global_constraint_observed st st' :
  same_config st st' →
  observed (src_to_alphabet1_table st') = observed (src_to_alphabet1_table st) →
  observed (alphabet1_to_alphabet_table st') = observed (alphabet1_to_alphabet_table st) →
  observed (alphabet_to_alphabet_table st') = observed (alphabet_to_alphabet_table st) →
  observed (alphabet_to_snk_table st') = observed (alphabet_to_snk_table st) →
  observed (alphabet1_to_alphabet_imply_table st')
  = observed (alphabet1_to_alphabet_imply_table st) →
  observed (alphabet_to_alphabet_imply_table st')
  = observed (alphabet_to_alphabet_imply_table st) →
  observed (alphabet_to_snk_imply_table st') = observed (alphabet_to_snk_imply_table st) →
  generate_global_constraint st' = generate_global_constraint st.
Proof.
  intros (Ha & Hk & Hv & _) H1 H2 H3 H4 H5 H6 H7.
  unfold generate_global_constraint, _generate_global_constraint_a,
    _generate_global_constraint_b, imply_formulas, _get_or_formula, _get_and_formula,
    _get_alphabet_to_alphabet_list, _get_alphabet_to_alphabet_imply_list,
    _quadruple_to_idx, get_number, get_size, var.
  by rewrite H1, H2, H3, H4, H5, H6, H7, Ha, Hk, Hv.
Qed.

Lemma keys_same_table st st' s :
  id_table st' = id_table st → k st' = k st →
  keys_src_to_alphabet1 st' s = keys_src_to_alphabet1 st s ∧
  keys_alphabet_to_snk st' s = keys_alphabet_to_snk st s ∧
  keys_alphabet1_to_alphabet st' s = keys_alphabet1_to_alphabet st s ∧
  keys_alphabet_to_alphabet st' s = keys_alphabet_to_alphabet st s ∧
  keys_alphabet_to_snk_imply st' s = keys_alphabet_to_snk_imply st s ∧
  keys_alphabet1_to_alphabet_imply st' s = keys_alphabet1_to_alphabet_imply st s ∧
  keys_alphabet_to_alphabet_imply st' s = keys_alphabet_to_alphabet_imply st s.
Proof.
  intros Hi Hk.
  unfold keys_src_to_alphabet1, keys_alphabet_to_snk, keys_alphabet1_to_alphabet,
    keys_alphabet_to_alphabet, keys_alphabet_to_snk_imply,
    keys_alphabet1_to_alphabet_imply, keys_alphabet_to_alphabet_imply,
    pair_at, triple_at, ident, sentence_id, lookup_id.
  by rewrite Hi, Hk.
Qed.

Lemma observed_bump_all_twice {K} `{EqDecision K} (keys : list K) (d : list (K * Z)) :
  nonneg d →
  observed (dict_bump_all keys (dict_bump_all keys d)) = observed (dict_bump_all keys d).
Proof. intros Hd. by apply observed_bump_all_positive, positive_at_bump_all. Qed.

(** ** The id table of a configured engine *)

Lemma length_enumerate {A} (l : list A) start : length (enumerate l start) = length l.
Proof. revert start. induction l; intros; simpl; auto. Qed.

Lemma insert_enumerate_fresh (l : list string) (t : gmap string Z) start ch :
  ch ∉ l → foldl (λ t ic, <[ic.2 := ic.1]> t) t (enumerate l start) !! ch = t !! ch.
Proof.
  revert t start. induction l as [|x l IH]; intros t start Hl; [done|].
  apply not_elem_of_cons in Hl as [Hne Hl].
  cbn [enumerate foldl fst snd]. rewrite IH by done. by rewrite lookup_insert_ne.
Qed.

Lemma insert_enumerate_lookup (l : list string) (t : gmap string Z) start ch :
  ch ∈ l →
  ∃ i, foldl (λ t ic, <[ic.2 := ic.1]> t) t (enumerate l start) !! ch = Some i ∧
       start ≤ i < start + len l.
Proof.
  revert t start. induction l as [|x l IH]; intros t start Hin; [by inversion Hin|].
  unfold len. cbn [enumerate foldl length fst snd].
  destruct (decide (ch ∈ l)) as [Hl|Hl].
  - destruct (IH (<[x := start]> t) (start + 1) Hl) as (i & Hi & Hr).
    exists i. split; [exact Hi|]. unfold len in Hr. lia.
  - apply elem_of_cons in Hin as [->|?]; [|done].
    exists start. split; [|lia].
    rewrite insert_enumerate_fresh by done. apply lookup_insert_eq.
Qed.

Lemma id_table_global_init alph kk ch :
  ch ∈ alph →
  ∃ i, id_table (global_init alph kk) !! ch = Some i ∧
       1 ≤ i ≤ get_size (global_init alph kk).
Proof.
  intros Hin.
  destruct (insert_enumerate_lookup alph
    (<["snk" := len alph + 1]> (<["src" := 0]> ∅)) 1 ch Hin) as (i & Hi & Hr).
  exists i. split; [exact Hi|]. unfold get_size. rewrite alphabet_global_init. lia.
Qed.

(** ** Formulas over variables that exist *)

Lemma res_mapM_Forall2 {A B} (f : A → res B) (Q : A → B → Prop) (l : list A) :
  Forall (λ x, ∃ y, f x = Ok y ∧ Q x y) l →
  ∃ ys, res_mapM f l = Ok ys ∧ Forall2 Q l ys.
Proof.
  induction 1 as [|x l (y & Hy & HQ) _ (ys & Hys & HF)]; simpl.
  - by exists [].
  - exists (y :: ys). rewrite Hy. simpl. rewrite Hys. simpl. split; [done|].
    by constructor.
Qed.

Lemma forallb_eval_Forall2 {A} (g : A → bool) v (l : list A) (fs : list formula) :
  Forall2 (λ x f, eval v f = g x) l fs → forallb (eval v) fs = forallb g l.
Proof. induction 1 as [|x f l fs Hx _ IH]; simpl; [done|]. by rewrite Hx, IH. Qed.

Lemma existsb_eval_Forall2 {A} (g : A → bool) v (l : list A) (fs : list formula) :
  Forall2 (λ x f, eval v f = g x) l fs → existsb (eval v) fs = existsb g l.
Proof. induction 1 as [|x f l fs Hx _ IH]; simpl; [done|]. by rewrite Hx, IH. Qed.

Lemma forallb_true_iff {A} (g : A → bool) (l : list A) :
  forallb g l = true ↔ ∀ x, x ∈ l → g x = true.
Proof.
  rewrite forallb_forall. split; intros H x Hx; apply H; by apply list_elem_of_In.
Qed.

Section formulas.
Variable st : engine.
Hypothesis Htrue : var st 0 = Ok (BoolVal true).

Lemma res_mapM_var l :
  Forall (is_var st) l →
  ∃ args, res_mapM (var st) l = Ok args ∧ ∀ v, Forall2 (λ i f, eval v f = v i) l args.
Proof.
  intros Hl. exists (BoolVar <$> l). split.
  - induction Hl as [|i l Hi _ IH]; simpl; [done|].
    rewrite Hi. simpl. by rewrite IH.
  - intros v. clear Hl. induction l; simpl; by constructor.
Qed.

Lemma get_and_formula_ok l :
  Forall (is_var st) l →
  ∃ f, _get_and_formula st l true = Ok f ∧ ∀ v, eval v f = forallb v l.
Proof.
  intros Hl. unfold _get_and_formula. destruct (decide (len l = 0)) as [H0|H0].
  - exists (BoolVal true). split; [done|]. intros v. by destruct l.
  - destruct (res_mapM_var l Hl) as (args & -> & Hargs). simpl.
    eexists. split; [done|]. intros v. simpl.
    by apply forallb_eval_Forall2.
Qed.

Lemma get_or_formula_ok l :
  l ≠ [] → Forall (is_var st) l →
  ∃ f, _get_or_formula st l true = Ok f ∧ ∀ v, eval v f = existsb v l.
Proof.
  intros Hne Hl. unfold _get_or_formula. rewrite decide_False by (by destruct l).
  destruct (res_mapM_var l Hl) as (args & -> & Hargs). simpl.
  eexists. split; [done|]. intros v. simpl.
  by apply existsb_eval_Forall2.
Qed.
End formulas.

Lemma forallb_bind {A B} (p : B → bool) (g : A → list B) (l : list A) :
  forallb p (l ≫= g) = forallb (λ x, forallb p (g x)) l.
Proof.
  induction l as [|x l IH]; [done|].
  change ((x :: l) ≫= g) with (g x ++ (l ≫= g)).
  rewrite forallb_app. simpl. by rewrite IH.
Qed.

Lemma py_range_nonempty a b : a < b → py_range a b ≠ [].
Proof. intros. by rewrite py_range_cons. Qed.

(** ** An engine configured by [global_init], whatever its tables *)

Section configured.
Variables (alph : list string) (kk : Z) (st : engine).
Hypothesis Hkk : 1 ≤ kk.
Hypothesis Hcfg : same_config (global_init alph kk) st.

Lemma configured_k : k st = kk.
Proof. by destruct Hcfg as (_ & -> & _). Qed.

Lemma configured_size : get_size st = len alph.
Proof. unfold get_size. by destruct Hcfg as (-> & _). Qed.

Lemma configured_number : get_number st = get_number (global_init alph kk).
Proof. unfold get_number, get_size. by destruct Hcfg as (-> & -> & _). Qed.

Lemma configured_var i : var st i = var (global_init alph kk) i.
Proof. unfold var. by destruct Hcfg as (_ & _ & -> & _). Qed.

Lemma configured_true : var st 0 = Ok (BoolVal true).
Proof. rewrite configured_var. apply var_global_init_0. Qed.

Lemma is_var_valid_tuple id1 k1 id2 k2 :
  1 ≤ get_size st → valid_tuple st id1 k1 id2 k2 →
  is_var st (_quadruple_to_idx st id1 k1 id2 k2).
Proof.
  intros HS Hv. unfold is_var. rewrite configured_var.
  apply var_global_init. rewrite <- configured_number.
  apply quadruple_to_idx_range; [done| |done]. by rewrite configured_k.
Qed.

Lemma known_over_alphabet s : over_alphabet alph s → known st s.
Proof.
  unfold over_alphabet, known. intros Hs. eapply Forall_impl; [exact Hs|].
  intros ch Hch. simpl in Hch.
  destruct (id_table_global_init alph kk ch Hch) as (i & Hi & _).
  destruct Hcfg as (_ & _ & _ & ->). eauto.
Qed.

Lemma valid_ident s i :
  over_alphabet alph s → - len s ≤ i < len s → valid_id st (ident st s i).
Proof.
  intros Hs Hi. destruct (py_index_in_range s i Hi) as (ch & Hch & Hin).
  unfold over_alphabet in Hs. rewrite Forall_forall in Hs.
  destruct (id_table_global_init alph kk ch (Hs ch Hin)) as (x & Hx & Hr).
  unfold valid_id, ident, sentence_id, lookup_id. rewrite Hch. simpl.
  destruct Hcfg as (Ha & _ & _ & ->). rewrite Hx.
  rewrite configured_size. unfold get_size in Hr. by rewrite alphabet_global_init in Hr.
Qed.

Lemma slots_nonempty : py_range 1 (k st + 1) ≠ [].
Proof. apply py_range_nonempty. rewrite configured_k. lia. Qed.

Lemma src_list id2 :
  valid_id st id2 →
  _get_alphabet_to_alphabet_list st 0 id2 false = [_quadruple_to_idx st 0 0 id2 1] ∧
  Forall (is_var st) (_get_alphabet_to_alphabet_list st 0 id2 false).
Proof.
  intros H2. unfold valid_id in H2.
  assert (_get_alphabet_to_alphabet_list st 0 id2 false = [_quadruple_to_idx st 0 0 id2 1]) as ->.
  { unfold _get_alphabet_to_alphabet_list. by rewrite decide_True. }
  split; [done|]. repeat constructor. apply is_var_valid_tuple; [lia|].
  left. rewrite configured_k. lia.
Qed.

Lemma first_list id1 id2 :
  valid_id st id1 → valid_id st id2 →
  _get_alphabet_to_alphabet_list st id1 id2 true ≠ [] ∧
  Forall (is_var st) (_get_alphabet_to_alphabet_list st id1 id2 true).
Proof.
  intros H1 H2. unfold valid_id in *. unfold _get_alphabet_to_alphabet_list. split.
  - intros Heq%fmap_nil_inv. by apply slots_nonempty.
  - apply Forall_fmap, Forall_forall. intros k2 Hk2%elem_of_py_range. simpl.
    apply is_var_valid_tuple; [lia|]. do 3 right. lia.
Qed.

Lemma interior_list id1 id2 :
  valid_id st id1 → valid_id st id2 →
  _get_alphabet_to_alphabet_list st id1 id2 false ≠ [] ∧
  Forall (is_var st) (_get_alphabet_to_alphabet_list st id1 id2 false).
Proof.
  intros H1 H2. unfold valid_id in *. unfold _get_alphabet_to_alphabet_list.
  rewrite decide_False by lia. rewrite decide_False by lia.
  pose proof slots_nonempty as Hne. split.
  - destruct (py_range 1 (k st + 1)) as [|k1 l]; [done|]. simpl. discriminate.
  - apply Forall_bind, Forall_forall. intros k1 Hk1%elem_of_py_range. simpl.
    apply Forall_bind, Forall_forall. intros k2 Hk2%elem_of_py_range. simpl.
    repeat constructor. apply is_var_valid_tuple; [lia|]. do 3 right. lia.
Qed.

Lemma snk_list id1 :
  valid_id st id1 →
  _get_alphabet_to_alphabet_list st id1 (get_size st + 1) false
  = (λ k1, _quadruple_to_idx st id1 k1 (get_size st + 1) 0) <$> py_range 1 (k st + 1) ∧
  _get_alphabet_to_alphabet_list st id1 (get_size st + 1) false ≠ [] ∧
  Forall (is_var st) (_get_alphabet_to_alphabet_list st id1 (get_size st + 1) false).
Proof.
  intros H1. unfold valid_id in *.
  assert (_get_alphabet_to_alphabet_list st id1 (get_size st + 1) false
    = (λ k1, _quadruple_to_idx st id1 k1 (get_size st + 1) 0) <$> py_range 1 (k st + 1))
    as ->.
  { unfold _get_alphabet_to_alphabet_list. rewrite decide_False by lia.
    by rewrite decide_True. }
  split; [done|]. split.
  - intros Heq%fmap_nil_inv. by apply slots_nonempty.
  - apply Forall_fmap, Forall_forall. intros k1 Hk1%elem_of_py_range. simpl.
    apply is_var_valid_tuple; [lia|]. right. left. lia.
Qed.

(** Part A of the global constraint, when the observed keys are ids of
    symbols: it is produced, and it holds exactly when each observed key
    is satisfied. *)
Lemma generate_global_constraint_a_ok :
  Forall (valid_id st) (observed (src_to_alphabet1_table st)) →
  Forall (λ key, valid_id st key.1 ∧ valid_id st key.2) (observed (alphabet1_to_alphabet_table st)) →
  Forall (λ key, valid_id st key.1 ∧ valid_id st key.2) (observed (alphabet_to_alphabet_table st)) →
  Forall (valid_id st) (observed (alphabet_to_snk_table st)) →
  ∃ parts, _generate_global_constraint_a st = Ok parts ∧
    ∀ v, eval v (And parts)
         = forallb (sat_src st v) (observed (src_to_alphabet1_table st))
           && forallb (sat_first st v) (observed (alphabet1_to_alphabet_table st))
           && forallb (sat_interior st v) (observed (alphabet_to_alphabet_table st))
           && forallb (sat_snk st v) (observed (alphabet_to_snk_table st)).
Proof.
  intros V1 V2 V3 V4. unfold _generate_global_constraint_a.
  destruct (get_and_formula_ok st configured_true
    (observed (src_to_alphabet1_table st) ≫=
       λ id2, _get_alphabet_to_alphabet_list st 0 id2 false)) as (f1 & -> & E1).
  { apply Forall_bind. eapply Forall_impl; [exact V1|]. intros id2 H2. by apply src_list. }
  cbn [mbind res_bind].
  destruct (res_mapM_Forall2
    (λ key : Z * Z, _get_or_formula st (_get_alphabet_to_alphabet_list st key.1 key.2 true) true)
    (λ key f, ∀ v, eval v f = sat_first st v key)
    (observed (alphabet1_to_alphabet_table st))) as (p2 & -> & E2).
  { eapply Forall_impl; [exact V2|]. intros key [H1 H2].
    destruct (first_list _ _ H1 H2) as [Hne Hv]. by apply get_or_formula_ok. }
  cbn [mbind res_bind].
  destruct (res_mapM_Forall2
    (λ key : Z * Z, _get_or_formula st (_get_alphabet_to_alphabet_list st key.1 key.2 false) true)
    (λ key f, ∀ v, eval v f = sat_interior st v key)
    (observed (alphabet_to_alphabet_table st))) as (p3 & -> & E3).
  { eapply Forall_impl; [exact V3|]. intros key [H1 H2].
    destruct (interior_list _ _ H1 H2) as [Hne Hv]. by apply get_or_formula_ok. }
  cbn [mbind res_bind].
  destruct (res_mapM_Forall2
    (λ id1 : Z, _get_or_formula st
                  (_get_alphabet_to_alphabet_list st id1 (get_size st + 1) false) true)
    (λ id1 f, ∀ v, eval v f = sat_snk st v id1)
    (observed (alphabet_to_snk_table st))) as (p4 & -> & E4).
  { eapply Forall_impl; [exact V4|]. intros id1 H1.
    destruct (snk_list _ H1) as (_ & Hne & Hv). by apply get_or_formula_ok. }
  cbn [mbind res_bind].
  eexists. split; [done|]. intros v.
  cbn [eval]. rewrite !forallb_app. cbn [forallb]. rewrite E1, forallb_bind.
  rewrite (forallb_eval_Forall2 (sat_first st v) v _ p2)
    by (eapply Forall2_impl; [exact E2|]; by intros).
  rewrite (forallb_eval_Forall2 (sat_interior st v) v _ p3)
    by (eapply Forall2_impl; [exact E3|]; by intros).
  rewrite (forallb_eval_Forall2 (sat_snk st v) v _ p4)
    by (eapply Forall2_impl; [exact E4|]; by intros).
  unfold sat_src. by rewrite !andb_true_r, !andb_assoc.
Qed.
(** *** Part B and the whole global constraint are produced *)

Lemma slots_fmap_ok (g : Z → Z) :
  (∀ x, 1 ≤ x ≤ k st → is_var st (g x)) →
  g <$> py_range 1 (k st + 1) ≠ [] ∧ Forall (is_var st) (g <$> py_range 1 (k st + 1)).
Proof.
  intros Hg. split.
  - intros Heq%fmap_nil_inv. by apply slots_nonempty.
  - apply Forall_fmap, Forall_forall. intros x Hx%elem_of_py_range. simpl.
    apply Hg. lia.
Qed.

Lemma imply_list_ok id1 id2 id3 ext :
  valid_id st id1 → valid_id st id2 →
  valid_id st id3 ∨ (id3 = get_size st + 1 ∧ ext = false) →
  Forall (λ pp : list Z * list Z,
            (pp.1 ≠ [] ∧ Forall (is_var st) pp.1) ∧ (pp.2 ≠ [] ∧ Forall (is_var st) pp.2))
    (_get_alphabet_to_alphabet_imply_list st id1 id2 id3 ext).
Proof.
  intros H1 H2 H3. unfold valid_id in *.
  pose proof configured_k as Hk.
  assert (∀ k1 k2, 1 ≤ k1 ≤ k st → 1 ≤ k2 ≤ k st →
            is_var st (_quadruple_to_idx st id1 k1 id2 k2)) as Hpre.
  { intros. apply is_var_valid_tuple; [lia|]. do 3 right. lia. }
  unfold _get_alphabet_to_alphabet_imply_list. destruct ext.
  - destruct H3 as [H3|[_ ?]]; [|done].
    apply Forall_fmap, Forall_forall. intros k2 Hk2%elem_of_py_range. simpl. split.
    + split; [done|]. repeat constructor. apply Hpre; lia.
    + apply slots_fmap_ok. intros k3 Hk3.
      apply is_var_valid_tuple; [lia|]. do 3 right. lia.
  - destruct (decide (id3 = get_size st + 1)) as [->|Hne].
    + apply Forall_fmap, Forall_forall. intros k2 Hk2%elem_of_py_range. simpl. split.
      * destruct (decide (get_size st + 1 = 3)).
        { split; [done|]. repeat constructor. apply Hpre; lia. }
        { apply slots_fmap_ok. intros k1 Hk1. apply Hpre; lia. }
      * split; [done|]. repeat constructor.
        apply is_var_valid_tuple; [lia|]. right. left. lia.
    + destruct H3 as [H3|[? _]]; [|done].
      apply Forall_fmap, Forall_forall. intros k2 Hk2%elem_of_py_range. simpl. split.
      * apply slots_fmap_ok. intros k1 Hk1. apply Hpre; lia.
      * apply slots_fmap_ok. intros k3 Hk3.
        apply is_var_valid_tuple; [lia|]. do 3 right. lia.
Qed.

Lemma imply_formulas_ok l :
  Forall (λ pp : list Z * list Z,
            (pp.1 ≠ [] ∧ Forall (is_var st) pp.1) ∧ (pp.2 ≠ [] ∧ Forall (is_var st) pp.2)) l →
  ∃ fs, imply_formulas st l = Ok fs.
Proof.
  intros Hl. unfold imply_formulas.
  destruct (res_mapM_Forall2
    (λ pre_post : list Z * list Z,
       pre ← _get_or_formula st pre_post.1 true;
       post ← _get_or_formula st pre_post.2 true;
       Ok (Implies pre post))
    (λ _ _, True) l) as (fs & E & _); [|by exists fs].
  eapply Forall_impl; [exact Hl|]. intros [pre post] [[N1 V1] [N2 V2]]. simpl in *.
  destruct (get_or_formula_ok st pre N1 V1) as (f & -> & _).
  destruct (get_or_formula_ok st post N2 V2) as (g & -> & _).
  simpl. eauto.
Qed.

Lemma generate_global_constraint_b_ok :
  Forall (λ key, valid_id st key.1.1 ∧ valid_id st key.1.2 ∧ valid_id st key.2)
    (observed (alphabet1_to_alphabet_imply_table st)) →
  Forall (λ key, valid_id st key.1.1 ∧ valid_id st key.1.2 ∧ valid_id st key.2)
    (observed (alphabet_to_alphabet_imply_table st)) →
  Forall (λ key, valid_id st key.1 ∧ valid_id st key.2)
    (observed (alphabet_to_snk_imply_table st)) →
  ∃ parts, _generate_global_constraint_b st = Ok parts.
Proof.
  intros V1 V2 V3. unfold _generate_global_constraint_b.
  destruct (res_mapM_Forall2
    (λ key : Z * Z * Z, imply_formulas st
       (_get_alphabet_to_alphabet_imply_list st key.1.1 key.1.2 key.2 true))
    (λ _ _, True) (observed (alphabet1_to_alphabet_imply_table st))) as (p1 & -> & _).
  { eapply Forall_impl; [exact V1|]. intros key (H1 & H2 & H3).
    destruct (imply_formulas_ok
      (_get_alphabet_to_alphabet_imply_list st key.1.1 key.1.2 key.2 true)) as [fs ->];
      [apply imply_list_ok; auto|eauto]. }
  cbn [mbind res_bind].
  destruct (res_mapM_Forall2
    (λ key : Z * Z * Z, imply_formulas st
       (_get_alphabet_to_alphabet_imply_list st key.1.1 key.1.2 key.2 false))
    (λ _ _, True) (observed (alphabet_to_alphabet_imply_table st))) as (p2 & -> & _).
  { eapply Forall_impl; [exact V2|]. intros key (H1 & H2 & H3).
    destruct (imply_formulas_ok
      (_get_alphabet_to_alphabet_imply_list st key.1.1 key.1.2 key.2 false)) as [fs ->];
      [apply imply_list_ok; auto|eauto]. }
  cbn [mbind res_bind].
  destruct (res_mapM_Forall2
    (λ key : Z * Z, imply_formulas st
       (_get_alphabet_to_alphabet_imply_list st key.1 key.2 (get_size st + 1) false))
    (λ _ _, True) (observed (alphabet_to_snk_imply_table st))) as (p3 & -> & _).
  { eapply Forall_impl; [exact V3|]. intros key (H1 & H2).
    destruct (imply_formulas_ok
      (_get_alphabet_to_alphabet_imply_list st key.1 key.2 (get_size st + 1) false))
      as [fs ->]; [apply imply_list_ok; auto|eauto]. }
  cbn [mbind res_bind]. eauto.
Qed.

(** On a configured engine whose observed keys are ids of symbols,
    [generate_global_constraint] returns a formula. *)
Lemma generate_global_constraint_ok :
  observed_valid st → ∃ f, generate_global_constraint st = Ok f.
Proof.
  intros (V1 & V2 & V3 & V4 & V5 & V6 & V7). unfold generate_global_constraint.
  destruct (generate_global_constraint_a_ok V1 V2 V3 V4) as (a & -> & _).
  destruct (generate_global_constraint_b_ok V5 V6 V7) as (b & ->).
  cbn [mbind res_bind]. destruct (decide (len (a ++ b) = 0)); [|eauto].
  rewrite configured_true. eauto.
Qed.

(** *** The standalone Part a of one sample over the alphabet *)

Section sample.
Variable s : list string.
Hypothesis Hs : over_alphabet alph s.

Lemma sample_id i :
  - len s ≤ i < len s → sentence_id st s i = Ok (ident st s i).
Proof. intros. apply sentence_id_ok; [by apply known_over_alphabet|done]. Qed.

Lemma gen_a_src_ok :
  len s ≠ 0 →
  ∃ f, __gen_a_src st s = Ok f ∧ ∀ v, eval v f = sat_src st v (ident st s 0).
Proof.
  intros Hlen. assert (0 ≤ len s) by (unfold len; lia).
  unfold __gen_a_src. rewrite sample_id by lia. cbn [mbind res_bind].
  assert (valid_id st (ident st s 0)) as H0 by (apply valid_ident; [done|lia]).
  destruct (src_list _ H0) as [El Hv]. unfold sat_src. rewrite El in *.
  apply Forall_cons in Hv as [Hv _]. rewrite Hv.
  eexists. split; [done|]. intros v. simpl. by rewrite andb_true_r.
Qed.

Lemma gen_a_src_1_ok :
  len s > 1 →
  ∃ f, __gen_a_src_1 st s = Ok f ∧ ∀ v, eval v f = sat_first st v (pair_at st s 0).
Proof.
  intros Hlen. unfold __gen_a_src_1. rewrite !sample_id by lia.
  cbn [mbind res_bind].
  assert (valid_id st (ident st s 0)) as H0 by (apply valid_ident; [done|lia]).
  assert (valid_id st (ident st s 1)) as H1 by (apply valid_ident; [done|lia]).
  destruct (first_list _ _ H0 H1) as [Hne Hv].
  apply (get_or_formula_ok st _ Hne Hv).
Qed.

Lemma gen_a_common_ok :
  ∃ f, __gen_a_common st s = Ok f ∧
    ∀ v, eval v f = forallb (sat_interior st v) (pair_at st s <$> py_range 1 (len s - 1)).
Proof.
  unfold __gen_a_common.
  destruct (res_mapM_Forall2
    (λ i, id1 ← sentence_id st s i; id2 ← sentence_id st s (i + 1);
          _get_or_formula st (_get_alphabet_to_alphabet_list st id1 id2 false) true)
    (λ i f, ∀ v, eval v f = sat_interior st v (pair_at st s i))
    (py_range 1 (len s - 1))) as (result & -> & E).
  { apply Forall_forall. intros i Hi%elem_of_py_range.
    rewrite !sample_id by lia. cbn [mbind res_bind].
    assert (valid_id st (ident st s i)) as H0 by (apply valid_ident; [done|lia]).
    assert (valid_id st (ident st s (i + 1))) as H1 by (apply valid_ident; [done|lia]).
    destruct (interior_list _ _ H0 H1) as [Hne Hv].
    apply (get_or_formula_ok st _ Hne Hv). }
  cbn [mbind res_bind]. eexists. split; [done|]. intros v. cbn [eval].
  apply forallb_eval_Forall2. apply Forall2_fmap_l.
  eapply Forall2_impl; [exact E|]. intros i f Hf. apply Hf.
Qed.

Lemma gen_a_snk_ok :
  len s ≠ 0 →
  ∃ f, __gen_a_snk st s = Ok f ∧
    ∀ v, eval v f
         = if decide (len s = 1)
           then v (_quadruple_to_idx st (ident st s (-1)) 1 (get_size st + 1) 0)
           else sat_snk st v (ident st s (-1)).
Proof.
  intros Hlen. assert (0 ≤ len s) by (unfold len; lia).
  unfold __gen_a_snk. rewrite sample_id by lia. cbn [mbind res_bind]. cbv zeta.
  assert (valid_id st (ident st s (-1))) as H0 by (apply valid_ident; [done|lia]).
  change (len (alphabet st)) with (get_size st).
  destruct (decide (len s = 1)) as [H1|H1].
  - assert (is_var st (_quadruple_to_idx st (ident st s (-1)) 1 (get_size st + 1) 0))
      as Hv.
    { unfold valid_id in H0. apply is_var_valid_tuple; [lia|]. right. left.
      rewrite configured_k. lia. }
    rewrite Hv. eexists. split; [done|]. done.
  - destruct (snk_list _ H0) as (El & Hne & Hv). unfold sat_snk.
    rewrite El in *. apply (get_or_formula_ok st _ Hne Hv).
Qed.

Lemma sentence_const_a_ok :
  ∃ f, sentence_const_a s true st = (Ok (Some f), st) ∧
    ∀ v, eval v f
         = forallb (sat_src st v) (keys_src_to_alphabet1 st s)
           && forallb (sat_first st v) (keys_alphabet1_to_alphabet st s)
           && forallb (sat_interior st v) (keys_alphabet_to_alphabet st s)
           && (if decide (len s = 1)
               then v (_quadruple_to_idx st (ident st s (-1)) 1 (get_size st + 1) 0)
               else forallb (sat_snk st v) (keys_alphabet_to_snk st s)).
Proof.
  assert (0 ≤ len s) by (unfold len; lia).
  unfold sentence_const_a, keys_src_to_alphabet1, keys_alphabet1_to_alphabet,
    keys_alphabet_to_alphabet, keys_alphabet_to_snk.
  destruct (decide (len s = 0)) as [H0|H0].
  - exists (BoolVal true). split.
    + by erewrite bind_ok by (unfold reads; by rewrite configured_true).
    + intros v. rewrite !decide_False by lia. done.
  - destruct (gen_a_src_ok H0) as (f1 & E1 & V1).
    destruct (gen_a_snk_ok H0) as (f4 & E4 & V4).
    destruct gen_a_common_ok as (f3 & E3 & V3).
    unfold _gen_sentence_constraint_a, __gen_constraint_a_formula. cbv zeta.
    destruct (decide (len s > 1)) as [H1|H1].
    + destruct (gen_a_src_1_ok H1) as (f2 & E2 & V2).
      destruct (decide (len s > 2)) as [H2|H2].
      * eexists. split.
        { erewrite bind_ok; [done|]. unfold reads. rewrite E1, E2, E3, E4. done. }
        intros v. cbn [eval app forallb]. rewrite V1, V2, V3, V4.
        destruct (decide (len s = 1)); [lia|].
        by rewrite !andb_true_r, !andb_assoc.
      * eexists. split.
        { erewrite bind_ok; [done|]. unfold reads. rewrite E1, E2, E4. done. }
        intros v. cbn [eval app forallb]. rewrite V1, V2, V4.
        destruct (decide (len s = 1)); [lia|].
        by rewrite !andb_true_r, !andb_assoc.
    + do 2 (destruct (decide (len s > 2)) as [?|_]; [lia|]).
      eexists. split.
      { erewrite bind_ok; [done|]. unfold reads. rewrite E1, E4. done. }
      intros v. cbn [eval app forallb]. rewrite V1, V4.
      destruct (decide (len s = 1)); [|lia]. by rewrite !andb_true_r.
Qed.
(** With a single slot the canonical-slot variable of a one-symbol
    sample is the whole disjunction over the slots. *)
Lemma snk_part_one_slot v :
  len s = 1 → kk = 1 →
  v (_quadruple_to_idx st (ident st s (-1)) 1 (get_size st + 1) 0)
  = forallb (sat_snk st v) (keys_alphabet_to_snk st s).
Proof.
  intros Hlen Hone. unfold keys_alphabet_to_snk. rewrite decide_False by lia.
  assert (valid_id st (ident st s (-1))) as H0 by (apply valid_ident; [done|lia]).
  destruct (snk_list _ H0) as (El & _). cbn [forallb]. unfold sat_snk. rewrite El.
  rewrite configured_k, Hone. change (py_range 1 (1 + 1)) with [1].
  simpl. by rewrite orb_false_r, andb_true_r.
Qed.

Lemma sentence_const_a_sat :
  kk = 1 ∨ len s ≠ 1 →
  ∃ f, sentence_const_a s true st = (Ok (Some f), st) ∧
    ∀ v, eval v f
         = forallb (sat_src st v) (keys_src_to_alphabet1 st s)
           && forallb (sat_first st v) (keys_alphabet1_to_alphabet st s)
           && forallb (sat_interior st v) (keys_alphabet_to_alphabet st s)
           && forallb (sat_snk st v) (keys_alphabet_to_snk st s).
Proof.
  intros Hone. destruct sentence_const_a_ok as (f & Ef & Vf).
  exists f. split; [done|]. intros v. rewrite Vf.
  destruct (decide (len s = 1)) as [H1|H1]; [|done].
  destruct Hone as [Hone|?]; [|done]. by rewrite snk_part_one_slot.
Qed.
(** The keys one sample bumps are ids of symbols. *)
Lemma keys_valid :
  Forall (valid_id st) (keys_src_to_alphabet1 st s) ∧
  Forall (λ key, valid_id st key.1 ∧ valid_id st key.2) (keys_alphabet1_to_alphabet st s) ∧
  Forall (λ key, valid_id st key.1 ∧ valid_id st key.2) (keys_alphabet_to_alphabet st s) ∧
  Forall (valid_id st) (keys_alphabet_to_snk st s) ∧
  Forall (λ key, valid_id st key.1.1 ∧ valid_id st key.1.2 ∧ valid_id st key.2)
    (keys_alphabet1_to_alphabet_imply st s) ∧
  Forall (λ key, valid_id st key.1.1 ∧ valid_id st key.1.2 ∧ valid_id st key.2)
    (keys_alphabet_to_alphabet_imply st s) ∧
  Forall (λ key, valid_id st key.1 ∧ valid_id st key.2) (keys_alphabet_to_snk_imply st s).
Proof.
  assert (0 ≤ len s) by (unfold len; lia).
  assert (∀ i, - len s ≤ i < len s → valid_id st (ident st s i)) as Hid
    by (intros; by apply valid_ident).
  unfold keys_src_to_alphabet1, keys_alphabet1_to_alphabet, keys_alphabet_to_alphabet,
    keys_alphabet_to_snk, keys_alphabet1_to_alphabet_imply,
    keys_alphabet_to_alphabet_imply, keys_alphabet_to_snk_imply, pair_at, triple_at.
  repeat split;
    repeat (match goal with |- context [decide ?P] => destruct (decide P) end);
    try (by constructor);
    try (apply Forall_fmap, Forall_forall; intros i Hi%elem_of_py_range);
    repeat constructor; simpl; apply Hid; lia.
Qed.
End sample.
End configured.

(** ** Aggregating a set of positive samples *)

Lemma same_config_aggregate_all samples st : same_config st (aggregate_all samples st).
Proof.
  revert st. induction samples as [|s samples IH]; intros st; [apply same_config_refl|].
  eapply same_config_trans; [apply (same_config_aggregate st s)|apply IH].
Qed.

Lemma aggregate_positive_ok samples st :
  Forall (known st) samples → (∃ f, var st 0 = Ok f) →
  aggregate_positive samples st = (Ok (), aggregate_all samples st).
Proof.
  unfold aggregate_positive, aggregate_all.
  intros Hs. revert st Hs. induction samples as [|s samples IH]; intros st Hs Hvar; [done|].
  apply Forall_cons in Hs as [Hs Hrest]. cbn [M_for foldl].
  destruct (same_config_aggregate st s) as (_ & _ & Hv & Hi).
  erewrite bind_ok; last first.
  { erewrite bind_ok by (by apply gen_sentence_constraint_aggregates). done. }
  apply IH.
  - eapply Forall_impl; [exact Hrest|]. intros s'. unfold known. by rewrite Hi.
  - unfold var in *. by rewrite Hv.
Qed.

Lemma dict_bump_all_app {K} `{EqDecision K} (l1 l2 : list K) (d : list (K * Z)) :
  dict_bump_all (l1 ++ l2) d = dict_bump_all l2 (dict_bump_all l1 d).
Proof. apply foldl_app. Qed.

Lemma table_aggregate_all {K} `{EqDecision K}
    (table : engine → list (K * Z)) (keys : engine → list string → list K) :
  (∀ st s, table (aggregate s st) = dict_bump_all (keys st s) (table st)) →
  (∀ st st' s, id_table st' = id_table st → k st' = k st → keys st' s = keys st s) →
  ∀ samples st,
    table (aggregate_all samples st) = dict_bump_all (samples ≫= keys st) (table st).
Proof.
  intros Htable Hkeys samples. induction samples as [|s samples IH]; intros st; [done|].
  change (aggregate_all (s :: samples) st) with (aggregate_all samples (aggregate s st)).
  change ((s :: samples) ≫= keys st) with (keys st s ++ (samples ≫= keys st)).
  rewrite IH, Htable, dict_bump_all_app. f_equal.
  destruct (same_config_aggregate st s) as (_ & Hk & _ & Hi).
  clear IH. induction samples as [|s' samples IH]; [done|].
  change ((s' :: samples) ≫= keys (aggregate s st))
    with (keys (aggregate s st) s' ++ (samples ≫= keys (aggregate s st))).
  change ((s' :: samples) ≫= keys st) with (keys st s' ++ (samples ≫= keys st)).
  by rewrite IH, (Hkeys st (aggregate s st)).
Qed.

Lemma Forall_exists_Forall2 {A B} (P : A → B → Prop) (l : list A) :
  Forall (λ x, ∃ y, P x y) l → ∃ ys, Forall2 P l ys.
Proof.
  induction 1 as [|x l [y Hy] _ [ys Hys]]; [by exists []|].
  exists (y :: ys). by constructor.
Qed.

Lemma elem_of_observed_from_empty {K} `{EqDecision K} (key : K) (keys : list K) :
  key ∈ observed (dict_bump_all keys []) ↔ key ∈ keys.
Proof.
  rewrite elem_of_observed_bump_all by constructor.
  unfold observed. simpl. rewrite elem_of_nil. tauto.
Qed.

Lemma observed_aggregate_all {K} `{EqDecision K}
    (table : engine → list (K * Z)) (keys : engine → list string → list K)
    samples st0 (key : K) :
  (∀ st s, table (aggregate s st) = dict_bump_all (keys st s) (table st)) →
  (∀ st st' s, id_table st' = id_table st → k st' = k st → keys st' s = keys st s) →
  table st0 = [] →
  key ∈ observed (table (aggregate_all samples st0))
  ↔ ∃ s, s ∈ samples ∧ key ∈ keys (aggregate_all samples st0) s.
Proof.
  intros Htable Hkeys Hempty.
  rewrite (table_aggregate_all table keys Htable Hkeys), Hempty.
  rewrite elem_of_observed_from_empty, list_elem_of_bind.
  destruct (same_config_aggregate_all samples st0) as (_ & Hk & _ & Hi).
  split; intros (s & H1 & H2); exists s.
  - split; [done|]. by rewrite (Hkeys st0 (aggregate_all samples st0)).
  - split; [|done]. by rewrite <- (Hkeys st0 (aggregate_all samples st0)).
Qed.

(** ** Aggregation against the standalone formulas (C1) *)

(** Where the two paths agree: for positive samples over the configured
    alphabet, [k ≥ 1], none of which has exactly one symbol unless [k = 1],
    the samples are aggregated, Part A of the global constraint and every
    standalone Part a are produced, and the conjunction of the standalone
    formulas is logically equivalent to Part A, with or without repeated
    evidence. *)
Lemma part_a_agrees_without_one_symbol_samples alph kk samples :
  1 ≤ kk →
  Forall (over_alphabet alph) samples →
  kk = 1 ∨ Forall (λ s, len s ≠ 1) samples →
  ∃ st parts fs,
    aggregate_positive samples (global_init alph kk) = (Ok (), st) ∧
    _generate_global_constraint_a st = Ok parts ∧
    Forall2 (λ s f, sentence_const_a s true st = (Ok (Some f), st)) samples fs ∧
    equivalent (And fs) (And parts).
Proof.
  intros Hkk Hover Hone.
  set (st0 := global_init alph kk). set (st := aggregate_all samples st0).
  pose proof (same_config_aggregate_all samples st0) as Hcfg. fold st in Hcfg.
  assert (∀ s, s ∈ samples → kk = 1 ∨ len s ≠ 1) as Hone'.
  { intros s Hs. destruct Hone as [?|Hone]; [by left|right].
    rewrite Forall_forall in Hone. by apply Hone. }
  rewrite Forall_forall in Hover.
  (* the tables, as sets of keys *)
  assert (∀ key, key ∈ observed (src_to_alphabet1_table st)
    ↔ ∃ s, s ∈ samples ∧ key ∈ keys_src_to_alphabet1 st s) as O1.
  { intros key. apply (observed_aggregate_all src_to_alphabet1_table keys_src_to_alphabet1).
    - intros. apply src_to_alphabet1_table_aggregate.
    - intros st1 st2 s Hi Hk. by destruct (keys_same_table st1 st2 s Hi Hk) as (? & _).
    - done. }
  assert (∀ key, key ∈ observed (alphabet1_to_alphabet_table st)
    ↔ ∃ s, s ∈ samples ∧ key ∈ keys_alphabet1_to_alphabet st s) as O2.
  { intros key.
    apply (observed_aggregate_all alphabet1_to_alphabet_table keys_alphabet1_to_alphabet).
    - intros. apply alphabet1_to_alphabet_table_aggregate.
    - intros st1 st2 s Hi Hk.
      by destruct (keys_same_table st1 st2 s Hi Hk) as (_ & _ & ? & _).
    - done. }
  assert (∀ key, key ∈ observed (alphabet_to_alphabet_table st)
    ↔ ∃ s, s ∈ samples ∧ key ∈ keys_alphabet_to_alphabet st s) as O3.
  { intros key.
    apply (observed_aggregate_all alphabet_to_alphabet_table keys_alphabet_to_alphabet).
    - intros. apply alphabet_to_alphabet_table_aggregate.
    - intros st1 st2 s Hi Hk.
      by destruct (keys_same_table st1 st2 s Hi Hk) as (_ & _ & _ & ? & _).
    - done. }
  assert (∀ key, key ∈ observed (alphabet_to_snk_table st)
    ↔ ∃ s, s ∈ samples ∧ key ∈ keys_alphabet_to_snk st s) as O4.
  { intros key. apply (observed_aggregate_all alphabet_to_snk_table keys_alphabet_to_snk).
    - intros. apply alphabet_to_snk_table_aggregate.
    - intros st1 st2 s Hi Hk.
      by destruct (keys_same_table st1 st2 s Hi Hk) as (_ & ? & _).
    - done. }
  (* the keys are ids of symbols *)
  assert (∀ s i, s ∈ samples → - len s ≤ i < len s → valid_id st (ident st s i)) as Hid.
  { intros s i Hs Hi. apply (valid_ident alph kk); auto. }
  destruct (generate_global_constraint_a_ok alph kk st Hkk Hcfg) as (parts & Eparts & Vparts).
  { apply Forall_forall. intros key (s & Hs & Hkey)%O1.
    unfold keys_src_to_alphabet1 in Hkey. destruct (decide (len s = 0)); [by inversion Hkey|].
    apply list_elem_of_singleton in Hkey as ->. apply Hid; [done|]. unfold len in *. lia. }
  { apply Forall_forall. intros key (s & Hs & Hkey)%O2.
    unfold keys_alphabet1_to_alphabet in Hkey.
    destruct (decide (len s > 1)); [|by inversion Hkey].
    apply list_elem_of_singleton in Hkey as ->. split; apply Hid; (done || lia). }
  { apply Forall_forall. intros key (s & Hs & Hkey)%O3.
    unfold keys_alphabet_to_alphabet in Hkey.
    destruct (decide (len s > 2)); [|by inversion Hkey].
    apply list_elem_of_fmap in Hkey as (i & -> & Hi%elem_of_py_range).
    split; apply Hid; (done || lia). }
  { apply Forall_forall. intros key (s & Hs & Hkey)%O4.
    unfold keys_alphabet_to_snk in Hkey. destruct (decide (len s = 0)); [by inversion Hkey|].
    apply list_elem_of_singleton in Hkey as ->. apply Hid; [done|]. unfold len in *. lia. }
  (* the standalone formulas *)
  destruct (Forall_exists_Forall2
    (λ s f, sentence_const_a s true st = (Ok (Some f), st) ∧
       ∀ v, eval v f
            = forallb (sat_src st v) (keys_src_to_alphabet1 st s)
              && forallb (sat_first st v) (keys_alphabet1_to_alphabet st s)
              && forallb (sat_interior st v) (keys_alphabet_to_alphabet st s)
              && forallb (sat_snk st v) (keys_alphabet_to_snk st s)) samples) as [fs Hfs].
  { apply Forall_forall. intros s Hs. apply (sentence_const_a_sat alph kk); auto. }
  exists st, parts, fs. split; [|split; [done|split]].
  - apply aggregate_positive_ok.
    + apply Forall_forall. intros s Hs.
      apply (known_over_alphabet alph kk); [apply same_config_refl|by apply Hover].
    + exists (BoolVal true). apply var_global_init_0.
  - eapply Forall2_impl; [exact Hfs|]. by intros s f [? _].
  - intros v. rewrite Vparts. cbn [eval].
    rewrite (forallb_eval_Forall2 (λ s,
        forallb (sat_src st v) (keys_src_to_alphabet1 st s)
        && forallb (sat_first st v) (keys_alphabet1_to_alphabet st s)
        && forallb (sat_interior st v) (keys_alphabet_to_alphabet st s)
        && forallb (sat_snk st v) (keys_alphabet_to_snk st s)) v samples fs)
      by (eapply Forall2_impl; [exact Hfs|]; by intros s f [_ ?]).
    apply eq_true_iff_eq.
    rewrite !andb_true_iff, !forallb_true_iff. split.
    + intros Hall. repeat split.
      * intros key (s & Hs & Hkey)%O1. specialize (Hall s Hs).
        rewrite !andb_true_iff, !forallb_true_iff in Hall. by apply Hall.
      * intros key (s & Hs & Hkey)%O2. specialize (Hall s Hs).
        rewrite !andb_true_iff, !forallb_true_iff in Hall. by apply Hall.
      * intros key (s & Hs & Hkey)%O3. specialize (Hall s Hs).
        rewrite !andb_true_iff, !forallb_true_iff in Hall. by apply Hall.
      * intros key (s & Hs & Hkey)%O4. specialize (Hall s Hs).
        rewrite !andb_true_iff, !forallb_true_iff in Hall. by apply Hall.
    + intros (((H1 & H2) & H3) & H4) s Hs.
      rewrite !andb_true_iff, !forallb_true_iff. repeat split.
      * intros key Hkey. apply H1, O1. eauto.
      * intros key Hkey. apply H2, O2. eauto.
      * intros key Hkey. apply H3, O3. eauto.
      * intros key Hkey. apply H4, O4. eauto.
Qed.

(** C1: the code at alphabet [a], [k = 2], after the one positive sample
    [a], whose evidence has no repeats.  The standalone Part a, through the
    [slen == 1] branch of [__gen_a_snk], asks for the edge into [snk] from
    the canonical slot of [a], [A_6]; the aggregation records [a] in the
    last-symbol table and Part A of the global constraint asks for the edge
    from any slot, [Or(A_6, A_9)].  The two are not equivalent, and the
    canonical-slot edge is lost: the assignment that makes [A_1] and [A_9]
    true satisfies the whole formula [generate_fomula] builds from this
    positive sample, and the automaton it describes has no accepting path
    for [a].  The same happens at alphabet [a, b], [k = 2], positive samples
    [a] and [a b], negative sample [b]: the assignment that makes [A_1],
    [A_8], [A_15] and [A_20] true satisfies the formula, accepts [a b], and
    has no accepting path for the positive sample [a]. *)
Theorem C1_one_symbol_sample_loses_canonical_snk_edge :
  (Forall (over_alphabet ["a"]) [["a"]] ∧
   evidence_no_repeats (global_init ["a"] 2) [["a"]] ∧
   ∃ st parts f,
     aggregate_positive [["a"]] (global_init ["a"] 2) = (Ok (), st) ∧
     _generate_global_constraint_a st = Ok parts ∧
     sentence_const_a ["a"] true st = (Ok (Some f), st) ∧
     f = And [BoolVar 1; BoolVar 6] ∧
     parts = [And [BoolVar 1]; Or [BoolVar 6; BoolVar 9]] ∧
     ¬ equivalent (And [f]) (And parts)) ∧
  (∃ g st,
     generate_fomula [["a"]] [] (global_init ["a"] 2) = (Ok g, st) ∧
     eval (λ i, bool_decide (i = 1 ∨ i = 9)) g = true ∧
     ¬ ∃ slot, accepting_path st (λ i, bool_decide (i = 1 ∨ i = 9)) ["a"] slot) ∧
  (∃ g st,
     generate_fomula [["a"]; ["a"; "b"]] [["b"]] (global_init ["a"; "b"] 2) = (Ok g, st) ∧
     eval (λ i, bool_decide (i = 1 ∨ i = 8 ∨ i = 15 ∨ i = 20)) g = true ∧
     accepting_path st (λ i, bool_decide (i = 1 ∨ i = 8 ∨ i = 15 ∨ i = 20)) ["a"; "b"]
       (λ _, 1) ∧
     ¬ ∃ slot,
         accepting_path st (λ i, bool_decide (i = 1 ∨ i = 8 ∨ i = 15 ∨ i = 20)) ["a"] slot).
Proof.
  split; [|split].
  - split; [repeat constructor|]. split.
    { unfold evidence_no_repeats. repeat split; apply (bool_decide_unpack _); by vm_compute. }
    eexists _, _, _. split; [by vm_compute|]. split; [by vm_compute|].
    split; [by vm_compute|]. split; [done|]. split; [done|].
    intros Heq. specialize (Heq (λ i, bool_decide (i = 1 ∨ i = 9))).
    by vm_compute in Heq.
  - eexists _, _. split; [by vm_compute|]. split; [by vm_compute|].
    intros (slot & H0 & _ & _ & _ & Hlast).
    change (len ["a"] - 1) with 0 in Hlast. rewrite H0 in Hlast.
    by vm_compute in Hlast.
  - eexists _, _. split; [by vm_compute|]. split; [by vm_compute|]. split.
    + split; [done|]. split; [intros i _; split; by vm_compute|].
      split; [by vm_compute|]. split.
      * intros i Hi. assert (i = 0) as -> by (unfold len in Hi; cbn in Hi; lia).
        by vm_compute.
      * by vm_compute.
    + intros (slot & H0 & _ & _ & _ & Hlast).
      change (len ["a"] - 1) with 0 in Hlast. rewrite H0 in Hlast.
      by vm_compute in Hlast.
Qed.

(** ** Idempotence of aggregation (C6) *)

Lemma Forall_observed_bump_all {K} `{EqDecision K} (P : K → Prop) keys (d : list (K * Z)) :
  nonneg d → Forall P keys → Forall P (observed d) →
  Forall P (observed (dict_bump_all keys d)).
Proof.
  intros Hd Hkeys Hobs. rewrite Forall_forall in *.
  intros key [?|?]%elem_of_observed_bump_all; auto.
Qed.

Lemma valid_id_same_config st st' i : same_config st st' → valid_id st' i ↔ valid_id st i.
Proof. intros (Ha & _). unfold valid_id, get_size. by rewrite Ha. Qed.

Lemma observed_valid_aggregate alph kk st s :
  1 ≤ kk → same_config (global_init alph kk) st → over_alphabet alph s →
  tables_nonneg st → observed_valid st → observed_valid (aggregate s st).
Proof.
  intros Hkk Hcfg Hs (N1 & N2 & N3 & N4 & N5 & N6 & N7) (V1 & V2 & V3 & V4 & V5 & V6 & V7).
  destruct (keys_valid alph kk st Hcfg s Hs) as (K1 & K2 & K3 & K4 & K5 & K6 & K7).
  pose proof (same_config_aggregate st s) as Hsame.
  unfold observed_valid.
  rewrite src_to_alphabet1_table_aggregate, alphabet1_to_alphabet_table_aggregate,
    alphabet_to_alphabet_table_aggregate, alphabet_to_snk_table_aggregate,
    alphabet1_to_alphabet_imply_table_aggregate,
    alphabet_to_alphabet_imply_table_aggregate, alphabet_to_snk_imply_table_aggregate.
  repeat split;
    (eapply Forall_impl;
     [apply Forall_observed_bump_all; [eassumption|eassumption|eassumption]
     |simpl; intros key; rewrite !(valid_id_same_config st (aggregate s st)) by done;
      tauto]).
Qed.

(** C6: on an engine whose counters are non-negative, aggregating a sample
    of known symbols twice returns both times, and
    [generate_global_constraint] then yields the very outcome it yields
    after aggregating the sample once: the same formula, node for node.  On
    an engine configured by [global_init] whose observed keys are ids of
    symbols, and for a sample over the alphabet, that outcome is a
    formula. *)
Theorem C6_aggregation_idempotent st s :
  known st s → (∃ f, var st 0 = Ok f) → tables_nonneg st →
  ∃ st1 st2,
    gen_sentence_constraint s false st = (Ok None, st1) ∧
    gen_sentence_constraint s false st1 = (Ok None, st2) ∧
    generate_global_constraint st2 = generate_global_constraint st1 ∧
    (∀ alph kk, 1 ≤ kk → same_config (global_init alph kk) st →
       over_alphabet alph s → observed_valid st →
       ∃ f, generate_global_constraint st1 = Ok f).
Proof.
  intros Hknown Hvar Hnn. pose proof Hnn as (N1 & N2 & N3 & N4 & N5 & N6 & N7).
  pose proof (same_config_aggregate st s) as Hcfg.
  destruct (Hcfg) as (Ha & Hk & Hv & Hi).
  exists (aggregate s st), (aggregate s (aggregate s st)). split; [|split; [|split]].
  - by apply gen_sentence_constraint_aggregates.
  - apply gen_sentence_constraint_aggregates.
    + unfold known in *. by rewrite Hi.
    + intros _. unfold var in *. by rewrite Hv.
  - destruct (keys_same_table st (aggregate s st) s Hi Hk)
      as (K1 & K2 & K3 & K4 & K5 & K6 & K7).
    apply generate_global_constraint_observed.
    + apply same_config_aggregate.
    + rewrite (src_to_alphabet1_table_aggregate (aggregate s st)), K1,
        src_to_alphabet1_table_aggregate. by apply observed_bump_all_twice.
    + rewrite (alphabet1_to_alphabet_table_aggregate (aggregate s st)), K3,
        alphabet1_to_alphabet_table_aggregate. by apply observed_bump_all_twice.
    + rewrite (alphabet_to_alphabet_table_aggregate (aggregate s st)), K4,
        alphabet_to_alphabet_table_aggregate. by apply observed_bump_all_twice.
    + rewrite (alphabet_to_snk_table_aggregate (aggregate s st)), K2,
        alphabet_to_snk_table_aggregate. by apply observed_bump_all_twice.
    + rewrite (alphabet1_to_alphabet_imply_table_aggregate (aggregate s st)), K6,
        alphabet1_to_alphabet_imply_table_aggregate. by apply observed_bump_all_twice.
    + rewrite (alphabet_to_alphabet_imply_table_aggregate (aggregate s st)), K7,
        alphabet_to_alphabet_imply_table_aggregate. by apply observed_bump_all_twice.
    + rewrite (alphabet_to_snk_imply_table_aggregate (aggregate s st)), K5,
        alphabet_to_snk_imply_table_aggregate. by apply observed_bump_all_twice.
  - intros alph kk Hkk Hinit Hover Hvalid.
    apply (generate_global_constraint_ok alph kk).
    + done.
    + eapply same_config_trans; [exact Hinit|exact Hcfg].
    + by apply (observed_valid_aggregate alph kk).
Qed.

Lemma C6_aggregation_idempotent_witness :
  ∃ st1 st2,
    gen_sentence_constraint ["a"; "b"; "a"] false (global_init ["a"; "b"] 2) = (Ok None, st1) ∧
    gen_sentence_constraint ["a"; "b"; "a"] false st1 = (Ok None, st2) ∧
    generate_global_constraint st2 = generate_global_constraint st1 ∧
    (∀ alph kk, 1 ≤ kk → same_config (global_init alph kk) (global_init ["a"; "b"] 2) →
       over_alphabet alph ["a"; "b"; "a"] → observed_valid (global_init ["a"; "b"] 2) →
       ∃ f, generate_global_constraint st1 = Ok f).
Proof.
  apply C6_aggregation_idempotent.
  - unfold known. apply (bool_decide_unpack _). by vm_compute.
  - exists (BoolVal true). reflexivity.
  - unfold tables_nonneg, nonneg. simpl. repeat split; constructor.
Defined.

(** * Further properties of the code *)

(** ** The id table *)

Lemma insert_enumerate_position (l : list string) (t : gmap string Z) start (i : nat) ch :
  NoDup l → l !! i = Some ch →
  foldl (λ t ic, <[ic.2 := ic.1]> t) t (enumerate l start) !! ch
  = Some (start + Z.of_nat i).
Proof.
  intros Hnd. revert t start i.
  induction Hnd as [|x l Hx Hnd IH]; intros t start i Hi; [done|].
  cbn [enumerate foldl fst snd]. destruct i as [|i]; simpl in Hi.
  - simplify_eq. rewrite insert_enumerate_fresh by done.
    rewrite lookup_insert_eq. f_equal. lia.
  - rewrite (IH _ _ i Hi). f_equal. lia.
Qed.

(** X1: with an alphabet of distinct symbols, [gen_id_table] gives the symbol
    at position [i] (from zero) the id [i + 1], so the ids of two symbols
    are equal only if the symbols are. *)
Theorem id_table_dense (alph : list string) kk (i j : nat) ch ch' :
  NoDup alph → alph !! i = Some ch → alph !! j = Some ch' →
  id_table (global_init alph kk) !! ch = Some (Z.of_nat i + 1) ∧
  (id_table (global_init alph kk) !! ch = id_table (global_init alph kk) !! ch' → ch = ch').
Proof.
  intros Hnd Hi Hj.
  assert (∀ n c, alph !! n = Some c →
            id_table (global_init alph kk) !! c = Some (Z.of_nat n + 1)) as Hpos.
  { intros n c Hn. unfold global_init, gen_var_list, gen_id_table. cbn [id_table alphabet].
    rewrite (insert_enumerate_position alph _ 1 n c Hnd Hn). f_equal. lia. }
  split; [by apply Hpos|].
  rewrite (Hpos i ch Hi), (Hpos j ch' Hj). intros Heq.
  assert (i = j) as -> by (simplify_eq; lia). congruence.
Qed.

Lemma id_table_dense_witness :
  id_table (global_init ["a"; "b"; "c"] 2) !! "c" = Some (Z.of_nat 2 + 1) ∧
  (id_table (global_init ["a"; "b"; "c"] 2) !! "c"
   = id_table (global_init ["a"; "b"; "c"] 2) !! "a" → "c" = "a").
Proof.
  apply (id_table_dense ["a"; "b"; "c"] 2 2 0 "c" "a").
  - apply (bool_decide_unpack _). by vm_compute.
  - reflexivity.
  - reflexivity.
Defined.

(** X2: the sentinel entries of [gen_id_table].  A sentinel name that is not
    an alphabet symbol keeps its id, [0] for [src] and [S + 1] for [snk];
    every alphabet symbol, one spelled [src] or [snk] included, ends with an
    id in [1..S], its sentinel entry overwritten. *)
Theorem id_table_sentinels (alph : list string) kk :
  ("src" ∉ alph → id_table (global_init alph kk) !! "src" = Some 0) ∧
  ("snk" ∉ alph → id_table (global_init alph kk) !! "snk" = Some (len alph + 1)) ∧
  (∀ ch, ch ∈ alph → ∃ i, id_table (global_init alph kk) !! ch = Some i ∧ 1 ≤ i ≤ len alph).
Proof.
  split; [|split].
  - intros Hsrc. unfold global_init, gen_var_list, gen_id_table. cbn [id_table alphabet].
    rewrite insert_enumerate_fresh by done.
    rewrite lookup_insert_ne by done. apply lookup_insert_eq.
  - intros Hsnk. unfold global_init, gen_var_list, gen_id_table. cbn [id_table alphabet].
    rewrite insert_enumerate_fresh by done. apply lookup_insert_eq.
  - intros ch Hch. destruct (id_table_global_init alph kk ch Hch) as (i & Hi & Hr).
    exists i. split; [done|]. unfold get_size in Hr.
    by rewrite alphabet_global_init in Hr.
Qed.

(** ** The variable list *)

Lemma len_var_list_global_init alph kk :
  len (var_list (global_init alph kk))
  = get_number (global_init alph kk) * get_number (global_init alph kk) + 2.
Proof.
  rewrite var_list_global_init. set (n := get_number _).
  assert (0 ≤ n * n) by nia. unfold len. cbn [length].
  rewrite length_app, length_fmap, length_py_range. cbn [length]. lia.
Qed.

(** X3: [gen_var_list] builds [N² + 2] entries.  Reading [var_list] above
    [N² + 1] or below [-(N² + 2)] raises [IndexError]; a negative index in
    between raises nothing and reads the entry [N² + 2] places further on,
    so that [var_list[-1]] is the constant false. *)
Theorem var_list_bounds alph kk i :
  len (var_list (global_init alph kk))
  = get_number (global_init alph kk) * get_number (global_init alph kk) + 2 ∧
  (i < - len (var_list (global_init alph kk)) ∨ len (var_list (global_init alph kk)) ≤ i →
   var (global_init alph kk) i = Raise IndexError) ∧
  (- len (var_list (global_init alph kk)) ≤ i < 0 →
   var (global_init alph kk) i
   = var (global_init alph kk) (len (var_list (global_init alph kk)) + i)) ∧
  var (global_init alph kk) (-1) = Ok (BoolVal false).
Proof.
  split; [apply len_var_list_global_init|]. split; [|split].
  - intros Hi. unfold var, py_index. cbv zeta.
    destruct (decide (i < 0)); destruct (decide _) as [Hr|Hr]; try done; lia.
  - intros Hi. unfold var. apply py_index_from_end; lia.
  - unfold var. rewrite py_index_from_end; [|lia|rewrite len_var_list_global_init; nia].
    rewrite len_var_list_global_init.
    replace (get_number (global_init alph kk) * get_number (global_init alph kk) + 2 + -1)
      with (get_number (global_init alph kk) * get_number (global_init alph kk) + 1) by lia.
    apply var_global_init_last.
Qed.

(** ** Decoding indices *)

Lemma divmod_floor a b : 0 < b → divmod a b = Ok (a `div` b, a `mod` b).
Proof. intros. unfold divmod. by rewrite decide_False by lia. Qed.

(** X4: in the other direction, an index of the interior block, [row·N + col]
    with [row] and [col] in [1..N-1], decodes to an interior tuple whose
    index it is. *)
Theorem encode_decode_interior st row col :
  1 ≤ get_size st → 1 ≤ k st →
  1 ≤ row ≤ get_number st - 1 → 1 ≤ col ≤ get_number st - 1 →
  ∃ id1 k1 id2 k2,
    _idx_to_quadruple st (row * get_number st + col) = Ok (id1, k1, id2, k2) ∧
    (1 ≤ id1 ≤ get_size st ∧ 1 ≤ k1 ≤ k st ∧ 1 ≤ id2 ≤ get_size st ∧ 1 ≤ k2 ≤ k st) ∧
    _quadruple_to_idx st id1 k1 id2 k2 = row * get_number st + col.
Proof.
  intros HS Hk Hrow Hcol. unfold _idx_to_quadruple.
  rewrite divmod_ok by lia. cbn [mbind res_bind].
  rewrite !divmod_floor by lia. cbn [mbind res_bind].
  eexists _, _, _, _. split; [reflexivity|].
  pose proof (Z.mod_pos_bound (row - 1) (k st) ltac:(lia)).
  pose proof (Z.mod_pos_bound (col - 1) (k st) ltac:(lia)).
  pose proof (Z.div_mod (row - 1) (k st) ltac:(lia)) as Er.
  pose proof (Z.div_mod (col - 1) (k st) ltac:(lia)) as Ec.
  assert (0 ≤ (row - 1) `div` k st) by (apply Z.div_pos; lia).
  assert (0 ≤ (col - 1) `div` k st) by (apply Z.div_pos; lia).
  assert ((row - 1) `div` k st < get_size st).
  { apply Z.div_lt_upper_bound; [lia|]. unfold get_number in Hrow. lia. }
  assert ((col - 1) `div` k st < get_size st).
  { apply Z.div_lt_upper_bound; [lia|]. unfold get_number in Hcol. lia. }
  split; [lia|].
  rewrite quadruple_to_idx_interior by lia.
  replace ((row - 1) `div` k st + 1 - 1) with ((row - 1) `div` k st) by lia.
  replace ((col - 1) `div` k st + 1 - 1) with ((col - 1) `div` k st) by lia.
  nia.
Qed.

Lemma encode_decode_interior_witness :
  ∃ id1 k1 id2 k2,
    _idx_to_quadruple (global_init ["a"; "b"] 2)
      (2 * get_number (global_init ["a"; "b"] 2) + 3) = Ok (id1, k1, id2, k2) ∧
    (1 ≤ id1 ≤ get_size (global_init ["a"; "b"] 2) ∧ 1 ≤ k1 ≤ k (global_init ["a"; "b"] 2) ∧
     1 ≤ id2 ≤ get_size (global_init ["a"; "b"] 2) ∧ 1 ≤ k2 ≤ k (global_init ["a"; "b"] 2)) ∧
    _quadruple_to_idx (global_init ["a"; "b"] 2) id1 k1 id2 k2
    = 2 * get_number (global_init ["a"; "b"] 2) + 3.
Proof. apply encode_decode_interior; eval_config; lia. Defined.

Lemma divmod_minus_one b : 1 ≤ b → divmod (-1) b = Ok (-1, b - 1).
Proof.
  intros. replace (-1) with ((-1) * b + (b - 1)) at 1 by lia. apply divmod_ok. lia.
Qed.

(** X5: outside the interior block [_idx_to_quadruple] does not invert
    [_quadruple_to_idx].  The index of a [src] edge decodes with slot [k] in
    place of the [src] slot [0]; the index of an edge into [snk] decodes to
    the next symbol slot in row order and to column id [0], slot [k]; no
    sentinel id [S + 1] ever comes back. *)
Theorem decode_outside_interior st :
  1 ≤ get_size st → 1 ≤ k st →
  (∀ id2 k2, 1 ≤ id2 ≤ get_size st → 1 ≤ k2 ≤ k st →
     _idx_to_quadruple st (_quadruple_to_idx st 0 0 id2 k2) = Ok (0, k st, id2, k2)) ∧
  (∀ id1 k1, 1 ≤ id1 ≤ get_size st → 1 ≤ k1 ≤ k st →
     _idx_to_quadruple st (_quadruple_to_idx st id1 k1 (get_size st + 1) 0)
     = Ok (if decide (k1 < k st) then (id1, k1 + 1, 0, k st) else (id1 + 1, 1, 0, k st))) ∧
  _idx_to_quadruple st (_quadruple_to_idx st 0 0 (get_size st + 1) 0) = Ok (1, 1, 0, k st).
Proof.
  intros HS Hk. pose proof (get_number_ge_2 st HS Hk) as HN.
  split; [|split].
  - intros id2 k2 H2 Hk2. rewrite quadruple_to_idx_src by lia.
    pose proof (slot_row_range st HS Hk _ _ H2 Hk2).
    unfold _idx_to_quadruple.
    replace ((id2 - 1) * k st + k2) with (0 * get_number st + ((id2 - 1) * k st + k2)) by lia.
    rewrite divmod_ok by lia. cbn [mbind res_bind].
    change (0 - 1) with (-1). rewrite divmod_minus_one by done. cbn [mbind res_bind].
    replace ((id2 - 1) * k st + k2 - 1) with ((id2 - 1) * k st + (k2 - 1)) by lia.
    rewrite divmod_ok by lia. cbn [mbind res_bind].
    f_equal. repeat (apply pair_equal_spec; split); lia.
  - intros id1 k1 H1 Hk1. rewrite quadruple_to_idx_snk by lia.
    unfold _idx_to_quadruple.
    replace (((id1 - 1) * k st + k1 + 1) * get_number st)
      with (((id1 - 1) * k st + k1 + 1) * get_number st + 0) by lia.
    rewrite divmod_ok by lia. cbn [mbind res_bind].
    change (0 - 1) with (-1). destruct (decide (k1 < k st)) as [Hlt|Hge].
    + replace ((id1 - 1) * k st + k1 + 1 - 1) with ((id1 - 1) * k st + k1) by lia.
      rewrite divmod_ok by lia. cbn [mbind res_bind].
      rewrite divmod_minus_one by done. cbn [mbind res_bind].
      f_equal. repeat (apply pair_equal_spec; split); lia.
    + replace ((id1 - 1) * k st + k1 + 1 - 1) with (id1 * k st + 0) by lia.
      rewrite divmod_ok by lia. cbn [mbind res_bind].
      rewrite divmod_minus_one by done. cbn [mbind res_bind].
      f_equal. repeat (apply pair_equal_spec; split); lia.
  - rewrite quadruple_to_idx_src_snk. unfold _idx_to_quadruple.
    replace (get_number st) with (1 * get_number st + 0) at 1 by lia.
    rewrite divmod_ok by lia. cbn [mbind res_bind].
    change (1 - 1) with (0 * k st + 0). rewrite divmod_ok by lia. cbn [mbind res_bind].
    change (0 - 1) with (-1). rewrite divmod_minus_one by done. cbn [mbind res_bind].
    f_equal. repeat (apply pair_equal_spec; split); lia.
Qed.

Lemma decode_outside_interior_witness :
  (∀ id2 k2, 1 ≤ id2 ≤ get_size (global_init ["a"; "b"] 2) →
     1 ≤ k2 ≤ k (global_init ["a"; "b"] 2) →
     _idx_to_quadruple (global_init ["a"; "b"] 2)
       (_quadruple_to_idx (global_init ["a"; "b"] 2) 0 0 id2 k2)
     = Ok (0, k (global_init ["a"; "b"] 2), id2, k2)) ∧
  (∀ id1 k1, 1 ≤ id1 ≤ get_size (global_init ["a"; "b"] 2) →
     1 ≤ k1 ≤ k (global_init ["a"; "b"] 2) →
     _idx_to_quadruple (global_init ["a"; "b"] 2)
       (_quadruple_to_idx (global_init ["a"; "b"] 2) id1 k1
          (get_size (global_init ["a"; "b"] 2) + 1) 0)
     = Ok (if decide (k1 < k (global_init ["a"; "b"] 2))
           then (id1, k1 + 1, 0, k (global_init ["a"; "b"] 2))
           else (id1 + 1, 1, 0, k (global_init ["a"; "b"] 2)))) ∧
  _idx_to_quadruple (global_init ["a"; "b"] 2)
    (_quadruple_to_idx (global_init ["a"; "b"] 2) 0 0
       (get_size (global_init ["a"; "b"] 2) + 1) 0)
  = Ok (1, 1, 0, k (global_init ["a"; "b"] 2)).
Proof. apply decode_outside_interior; eval_config; lia. Defined.

(** ** Sentences at the edges *)

Lemma bind_raise {A B} (m : M A) (f : A → M B) st e st' :
  m st = (Raise e, st') → (m ≫= f) st = (Raise e, st').
Proof. intros Hm. unfold mbind, M_bind. by rewrite Hm. Qed.

(** X6: the empty sentence.  On an engine whose [var_list] has been built,
    the standalone formula is [And(True, True)] for every [k], the
    aggregation returns [None], and neither changes the state; on a class
    whose [var_list] is still empty both calls raise [IndexError]. *)
Theorem empty_sentence st :
  (∀ f0, var st 0 = Ok f0 →
     gen_sentence_constraint [] true st = (Ok (Some (And [f0; f0])), st) ∧
     gen_sentence_constraint [] false st = (Ok None, st)) ∧
  (var_list st = [] →
     gen_sentence_constraint [] true st = (Raise IndexError, st) ∧
     gen_sentence_constraint [] false st = (Raise IndexError, st)).
Proof.
  assert (∀ ext f0, var st 0 = Ok f0 →
            sentence_const_a [] ext st = (Ok (Some f0), st)) as Ea.
  { intros ext f0 Hf0. unfold sentence_const_a. rewrite decide_True by done.
    by erewrite bind_ok by (unfold reads; by rewrite Hf0). }
  split.
  - intros f0 Hf0. split.
    + unfold gen_sentence_constraint. erewrite bind_ok by (by apply Ea).
      erewrite bind_ok; last first.
      { unfold sentence_const_b. erewrite bind_ok by reflexivity.
        destruct (bool_decide (k st ≤ 1)).
        - by erewrite bind_ok by (unfold reads; by rewrite Hf0).
        - unfold _gen_sentence_constraint_b. erewrite bind_ok; [done|].
          unfold reads, __gen_constraint_b_formula. cbv zeta.
          rewrite decide_True by done. by rewrite Hf0. }
      done.
    + unfold gen_sentence_constraint. erewrite bind_ok by (by apply Ea).
      assert (∃ b, sentence_const_b [] false st = (Ok b, st)) as [b Eb].
      { unfold sentence_const_b. erewrite bind_ok by reflexivity.
        destruct (bool_decide (k st ≤ 1)).
        - eexists. by erewrite bind_ok by (unfold reads; by rewrite Hf0).
        - eexists. unfold _gen_sentence_constraint_b. cbv zeta.
          rewrite !decide_False by done. done. }
      by erewrite bind_ok by exact Eb.
  - intros Hvl.
    assert (var st 0 = Raise IndexError) as Hv by (unfold var; by rewrite Hvl).
    assert (∀ ext, sentence_const_a [] ext st = (Raise IndexError, st)) as Er.
    { intros ext. unfold sentence_const_a. rewrite decide_True by done.
      unfold mbind, M_bind, reads. by rewrite Hv. }
    unfold gen_sentence_constraint. unfold mbind at 1, M_bind at 1.
    rewrite Er. unfold mbind at 1, M_bind at 1. by rewrite Er.
Qed.

(** X7: the aggregation is not atomic.  When the first symbol of a sample
    has an id and the last has none, [gen_sentence_constraint(False)] raises
    [KeyError] after it has counted the first symbol in the [src→first]
    table, and the table keeps that count. *)
Theorem aggregation_stops_midway st s i0 :
  len s ≠ 0 →
  sentence_id st s 0 = Ok i0 →
  sentence_id st s (-1) = Raise KeyError →
  gen_sentence_constraint s false st
  = (Raise KeyError,
     set_src_to_alphabet1_table (dict_bump i0 (src_to_alphabet1_table st)) st).
Proof.
  intros Hlen H0 Hlast.
  unfold gen_sentence_constraint. apply bind_raise.
  unfold sentence_const_a. rewrite decide_False by done.
  unfold _gen_sentence_constraint_a.
  erewrite bind_ok by (unfold reads; by rewrite H0).
  unfold on_src_to_alphabet1_table at 1.
  erewrite bind_ok by (by rewrite bump_ok). cbn [fst snd].
  apply bind_raise. unfold reads.
  rewrite (sentence_id_same_table st) by done. by rewrite Hlast.
Qed.

Lemma aggregation_stops_midway_witness :
  gen_sentence_constraint ["a"; "z"] false (global_init ["a"] 2)
  = (Raise KeyError,
     set_src_to_alphabet1_table
       (dict_bump 1 (src_to_alphabet1_table (global_init ["a"] 2))) (global_init ["a"] 2)).
Proof. apply aggregation_stops_midway; [done|by vm_compute|by vm_compute]. Defined.

(** ** The counts printed by [print_global_table_count] *)

Lemma count_items_sum {K} (acc : Z * Z) (d : list (K * Z)) :
  count_items acc d = (acc.1 + sum_values d, acc.2 + len d).
Proof.
  unfold count_items, len. revert acc.
  induction d as [|kv d IH]; intros [a v]; simpl.
  - f_equal; lia.
  - rewrite IH. simpl. f_equal; lia.
Qed.

Lemma print_global_table_count_sum st :
  print_global_table_count st
  = (sum_values (src_to_alphabet1_table st) + sum_values (alphabet1_to_alphabet_table st)
     + sum_values (alphabet_to_alphabet_table st) + sum_values (alphabet_to_snk_table st)
     + sum_values (alphabet1_to_alphabet_imply_table st)
     + sum_values (alphabet_to_alphabet_imply_table st)
     + sum_values (alphabet_to_snk_imply_table st),
     len (src_to_alphabet1_table st) + len (alphabet1_to_alphabet_table st)
     + len (alphabet_to_alphabet_table st) + len (alphabet_to_snk_table st)
     + len (alphabet1_to_alphabet_imply_table st)
     + len (alphabet_to_alphabet_imply_table st)
     + len (alphabet_to_snk_imply_table st)).
Proof.
  unfold print_global_table_count. cbv zeta. rewrite !count_items_sum. cbn [fst snd].
  f_equal; lia.
Qed.

Lemma sum_values_bump {K} `{EqDecision K} (key : K) (d : list (K * Z)) :
  sum_values (dict_bump key d) = sum_values d + 1.
Proof.
  induction d as [|[key' v] d IH]; simpl; [done|].
  destruct (decide (key' = key)); simpl; lia.
Qed.

Lemma sum_values_bump_all {K} `{EqDecision K} (keys : list K) (d : list (K * Z)) :
  sum_values (dict_bump_all keys d) = sum_values d + len keys.
Proof.
  unfold len. revert d. induction keys as [|key keys IH]; intros d; simpl; [lia|].
  change (foldl (λ d key, dict_bump key d) (dict_bump key d) keys)
    with (dict_bump_all keys (dict_bump key d)).
  rewrite IH, sum_values_bump. lia.
Qed.

Lemma len_keys st s :
  len (keys_src_to_alphabet1 st s) + len (keys_alphabet1_to_alphabet st s)
  + len (keys_alphabet_to_alphabet st s) + len (keys_alphabet_to_snk st s)
  + len (keys_alphabet1_to_alphabet_imply st s)
  + len (keys_alphabet_to_alphabet_imply st s) + len (keys_alphabet_to_snk_imply st s)
  = bumps_per_sample (k st) (len s).
Proof.
  assert (0 ≤ len s) by (unfold len; lia).
  unfold keys_src_to_alphabet1, keys_alphabet1_to_alphabet, keys_alphabet_to_alphabet,
    keys_alphabet_to_snk, keys_alphabet1_to_alphabet_imply,
    keys_alphabet_to_alphabet_imply, keys_alphabet_to_snk_imply, bumps_per_sample.
  repeat (match goal with |- context [decide ?P] => destruct (decide P) end; try lia);
    unfold len in *; rewrite ?length_fmap, ?length_py_range; cbn [length]; lia.
Qed.

(** X8: the first number [print_global_table_count] prints, [count_all],
    grows with every aggregated sample of known symbols by the number of
    counter increments: none for the empty sample, [n + 1] for a sample of
    [n] symbols when [k ≤ 1], and [2n] when [k ≥ 2]. *)
Theorem count_all_after_sample st s :
  known st s →
  (len s = 0 ∨ k st ≤ 1 → ∃ f, var st 0 = Ok f) →
  ∃ st', gen_sentence_constraint s false st = (Ok None, st') ∧
    (print_global_table_count st').1
    = (print_global_table_count st).1 + bumps_per_sample (k st) (len s).
Proof.
  intros Hknown Hvar. exists (aggregate s st).
  split; [by apply gen_sentence_constraint_aggregates|].
  rewrite !print_global_table_count_sum. cbn [fst].
  rewrite src_to_alphabet1_table_aggregate, alphabet1_to_alphabet_table_aggregate,
    alphabet_to_alphabet_table_aggregate, alphabet_to_snk_table_aggregate,
    alphabet1_to_alphabet_imply_table_aggregate,
    alphabet_to_alphabet_imply_table_aggregate, alphabet_to_snk_imply_table_aggregate.
  rewrite !sum_values_bump_all. pose proof (len_keys st s). lia.
Qed.

Lemma count_all_after_sample_witness :
  ∃ st', gen_sentence_constraint ["a"; "b"; "b"] false (global_init ["a"; "b"] 2)
         = (Ok None, st') ∧
    (print_global_table_count st').1
    = (print_global_table_count (global_init ["a"; "b"] 2)).1
      + bumps_per_sample (k (global_init ["a"; "b"] 2)) (len ["a"; "b"; "b"]).
Proof.
  apply count_all_after_sample.
  - unfold known. apply (bool_decide_unpack _). by vm_compute.
  - intros _. exists (BoolVal true). reflexivity.
Defined.

(** ** The tables stay Python dicts *)

Lemma dict_bump_keys {K} `{EqDecision K} (key : K) (d : list (K * Z)) :
  (dict_bump key d).*1 = if decide (key ∈ d.*1) then d.*1 else d.*1 ++ [key].
Proof.
  induction d as [|[key' v] d IH].
  - destruct (decide (key ∈ ([] : list (K * Z)).*1)) as [Hin|_]; [|done].
    by apply not_elem_of_nil in Hin.
  - cbn [dict_bump]. destruct (decide (key' = key)) as [->|Hne].
    + destruct (decide (key ∈ ((key, v) :: d).*1)) as [_|Hin]; [done|].
      exfalso. apply Hin. apply list_elem_of_here.
    + rewrite fmap_cons, IH. cbn [fst].
      destruct (decide (key ∈ d.*1)) as [Hin|Hin];
        destruct (decide (key ∈ ((key', v) :: d).*1)) as [Hin'|Hin']; try done.
      * exfalso. apply Hin'. by apply list_elem_of_further.
      * rewrite fmap_cons in Hin'. apply elem_of_cons in Hin' as [?|?]; simpl in *; congruence.
Qed.

Lemma dict_wf_bump {K} `{EqDecision K} (key : K) (d : list (K * Z)) :
  dict_wf d → dict_wf (dict_bump key d).
Proof.
  intros [Hnd Hpos]. split.
  - rewrite dict_bump_keys. destruct (decide (key ∈ d.*1)); [done|].
    apply NoDup_app. split; [done|]. split; [|apply NoDup_singleton].
    intros x Hx ->%list_elem_of_singleton. done.
  - clear Hnd. induction d as [|[key' v] d IH]; simpl.
    + repeat constructor. done.
    + apply Forall_cons in Hpos as [Hv Hpos]. simpl in Hv.
      destruct (decide (key' = key)); constructor; simpl; auto with lia.
Qed.

Lemma dict_wf_bump_all {K} `{EqDecision K} (keys : list K) (d : list (K * Z)) :
  dict_wf d → dict_wf (dict_bump_all keys d).
Proof.
  revert d. induction keys as [|key keys IH]; intros d Hd; simpl; [done|].
  by apply IH, dict_wf_bump.
Qed.

Lemma tables_wf_aggregate st s : tables_wf st → tables_wf (aggregate s st).
Proof.
  intros (W1 & W2 & W3 & W4 & W5 & W6 & W7). unfold tables_wf.
  rewrite src_to_alphabet1_table_aggregate, alphabet1_to_alphabet_table_aggregate,
    alphabet_to_alphabet_table_aggregate, alphabet_to_snk_table_aggregate,
    alphabet1_to_alphabet_imply_table_aggregate,
    alphabet_to_alphabet_imply_table_aggregate, alphabet_to_snk_imply_table_aggregate.
  repeat split; by apply dict_wf_bump_all.
Qed.

Lemma tables_wf_aggregate_all samples st : tables_wf st → tables_wf (aggregate_all samples st).
Proof.
  revert st. induction samples as [|s samples IH]; intros st Hst; [done|].
  apply IH. by apply tables_wf_aggregate.
Qed.

Lemma dict_wf_sum {K} (d : list (K * Z)) : dict_wf d → len d ≤ sum_values d.
Proof.
  intros [_ Hpos]. unfold len. induction Hpos as [|kv d Hv _ IH]; simpl; lia.
Qed.

Lemma dict_wf_observed {K} (d : list (K * Z)) : dict_wf d → observed d = d.*1.
Proof.
  intros [_ Hpos]. unfold observed. f_equal.
  induction Hpos as [|kv d Hv _ IH]; [done|].
  rewrite filter_cons. rewrite decide_True by lia. by rewrite IH.
Qed.

(** X9: whatever positive samples over the alphabet are aggregated from a
    fresh [global_init], the loop of [generate_fomula] returns, and the seven
    tables it leaves are dicts with counters: no key twice, every counter at
    least one.  So the [value>0] test of the global constraint builder lets
    every key through, and the printed [count_valid] never exceeds
    [count_all]. *)
Theorem tables_wf_reachable alph kk sen_pos :
  Forall (over_alphabet alph) sen_pos →
  ∃ st, aggregate_positive sen_pos (global_init alph kk) = (Ok (), st) ∧
    tables_wf st ∧
    observed (src_to_alphabet1_table st) = (src_to_alphabet1_table st).*1 ∧
    observed (alphabet1_to_alphabet_table st) = (alphabet1_to_alphabet_table st).*1 ∧
    observed (alphabet_to_alphabet_table st) = (alphabet_to_alphabet_table st).*1 ∧
    observed (alphabet_to_snk_table st) = (alphabet_to_snk_table st).*1 ∧
    observed (alphabet1_to_alphabet_imply_table st)
    = (alphabet1_to_alphabet_imply_table st).*1 ∧
    observed (alphabet_to_alphabet_imply_table st)
    = (alphabet_to_alphabet_imply_table st).*1 ∧
    observed (alphabet_to_snk_imply_table st) = (alphabet_to_snk_imply_table st).*1 ∧
    (print_global_table_count st).2 ≤ (print_global_table_count st).1.
Proof.
  intros Hover. exists (aggregate_all sen_pos (global_init alph kk)).
  assert (tables_wf (aggregate_all sen_pos (global_init alph kk)))
    as Hwf.
  { apply tables_wf_aggregate_all. repeat split; constructor. }
  split; [|split; [exact Hwf|]].
  - apply aggregate_positive_ok.
    + eapply Forall_impl; [exact Hover|]. intros s Hs.
      by apply (known_over_alphabet alph kk); [apply same_config_refl|].
    + exists (BoolVal true). apply var_global_init_0.
  - destruct Hwf as (W1 & W2 & W3 & W4 & W5 & W6 & W7).
    repeat (split; [by apply dict_wf_observed|]).
    rewrite print_global_table_count_sum. cbn [fst snd].
    pose proof (dict_wf_sum _ W1). pose proof (dict_wf_sum _ W2).
    pose proof (dict_wf_sum _ W3). pose proof (dict_wf_sum _ W4).
    pose proof (dict_wf_sum _ W5). pose proof (dict_wf_sum _ W6).
    pose proof (dict_wf_sum _ W7). lia.
Qed.

Lemma tables_wf_reachable_witness :
  ∃ st, aggregate_positive [["a"; "b"]; ["a"]; ["a"; "b"]] (global_init ["a"; "b"] 2)
        = (Ok (), st) ∧
    tables_wf st ∧
    observed (src_to_alphabet1_table st) = (src_to_alphabet1_table st).*1 ∧
    observed (alphabet1_to_alphabet_table st) = (alphabet1_to_alphabet_table st).*1 ∧
    observed (alphabet_to_alphabet_table st) = (alphabet_to_alphabet_table st).*1 ∧
    observed (alphabet_to_snk_table st) = (alphabet_to_snk_table st).*1 ∧
    observed (alphabet1_to_alphabet_imply_table st)
    = (alphabet1_to_alphabet_imply_table st).*1 ∧
    observed (alphabet_to_alphabet_imply_table st)
    = (alphabet_to_alphabet_imply_table st).*1 ∧
    observed (alphabet_to_snk_imply_table st) = (alphabet_to_snk_imply_table st).*1 ∧
    (print_global_table_count st).2 ≤ (print_global_table_count st).1.
Proof.
  apply tables_wf_reachable.
  unfold over_alphabet. apply (bool_decide_unpack _). by vm_compute.
Defined.

(** ** The standalone formula of a sample over the alphabet *)

Lemma existsb_slots (v : Z → bool) (g : Z → Z) kk :
  existsb v (g <$> py_range 1 (kk + 1)) = true ↔ ∃ x, 1 ≤ x ≤ kk ∧ v (g x) = true.
Proof.
  rewrite existsb_exists. split.
  - intros (y & Hy & Hv). apply list_elem_of_In, list_elem_of_fmap in Hy as (x & -> & Hx).
    apply elem_of_py_range in Hx. exists x. split; [lia|done].
  - intros (x & Hx & Hv). exists (g x). split; [|done].
    apply list_elem_of_In, list_elem_of_fmap. exists x. split; [done|].
    apply elem_of_py_range. lia.
Qed.

Lemma forallb_slots (p : Z → bool) a b :
  forallb p (py_range a b) = true ↔ ∀ x, a ≤ x < b → p x = true.
Proof.
  rewrite forallb_true_iff. split; intros H x Hx; apply H; by apply elem_of_py_range.
Qed.

Lemma imply_formulas_sat st l :
  Forall (λ pp : list Z * list Z,
            (pp.1 ≠ [] ∧ Forall (is_var st) pp.1) ∧ (pp.2 ≠ [] ∧ Forall (is_var st) pp.2)) l →
  ∃ fs, imply_formulas st l = Ok fs ∧ ∀ v, forallb (eval v) fs = sat_imply v l.
Proof.
  intros Hl. unfold imply_formulas.
  destruct (res_mapM_Forall2
    (λ pre_post : list Z * list Z,
       pre ← _get_or_formula st pre_post.1 true;
       post ← _get_or_formula st pre_post.2 true;
       Ok (Implies pre post))
    (λ pp f, ∀ v, eval v f = implb (existsb v pp.1) (existsb v pp.2)) l) as (fs & E & HF).
  - eapply Forall_impl; [exact Hl|]. intros [pre post] [[N1 V1] [N2 V2]]. simpl in *.
    destruct (get_or_formula_ok st pre N1 V1) as (f & -> & Ef).
    destruct (get_or_formula_ok st post N2 V2) as (g & -> & Eg).
    simpl. eexists. split; [done|]. intros v. simpl. by rewrite Ef, Eg.
  - exists fs. split; [done|]. intros v. unfold sat_imply.
    apply forallb_eval_Forall2. eapply Forall2_impl; [exact HF|]. intros pp f Hf. apply Hf.
Qed.

Lemma forallb_concat {A} (p : A → bool) (ls : list (list A)) :
  forallb p (concat ls) = forallb (forallb p) ls.
Proof.
  induction ls as [|l ls IH]; [done|]. simpl. by rewrite forallb_app, IH.
Qed.

Section standalone.
Variables (alph : list string) (kk : Z) (st : engine).
Hypothesis Hkk : 1 ≤ kk.
Hypothesis Hcfg : same_config (global_init alph kk) st.
Variable s : list string.
Hypothesis Hs : over_alphabet alph s.

Lemma sid i : - len s ≤ i < len s → sentence_id st s i = Ok (ident st s i).
Proof. by apply (sample_id alph kk). Qed.

Lemma vid i : - len s ≤ i < len s → 1 ≤ ident st s i ≤ get_size st.
Proof. by apply (valid_ident alph kk). Qed.

Lemma interior_var id1 k1 id2 k2 :
  1 ≤ id1 ≤ get_size st → 1 ≤ k1 ≤ k st → 1 ≤ id2 ≤ get_size st → 1 ≤ k2 ≤ k st →
  is_var st (_quadruple_to_idx st id1 k1 id2 k2).
Proof.
  intros. apply (is_var_valid_tuple alph kk); [done|done|lia|]. do 3 right. lia.
Qed.

Lemma snk_var id1 k1 :
  1 ≤ id1 ≤ get_size st → 1 ≤ k1 ≤ k st →
  is_var st (_quadruple_to_idx st id1 k1 (get_size st + 1) 0).
Proof.
  intros. apply (is_var_valid_tuple alph kk); [done|done|lia|]. right. left. lia.
Qed.

Lemma gen_b_src_ok :
  len s > 2 →
  ∃ f, __gen_b_src st s = Ok f ∧ ∀ v, eval v f = sat_b_src st v s.
Proof.
  intros Hlen. unfold sat_b_src. pose proof (configured_k alph kk st Hcfg) as Hk.
  unfold __gen_b_src. rewrite !sid by lia. cbn [mbind res_bind].
  pose proof (vid 0 ltac:(lia)). pose proof (vid 1 ltac:(lia)). pose proof (vid 2 ltac:(lia)).
  destruct (res_mapM_Forall2
    (λ j, pre ← var st (_quadruple_to_idx st (ident st s 0) 1 (ident st s 1) j);
          post ← _get_or_formula st
            ((λ j1, _quadruple_to_idx st (ident st s 1) j (ident st s 2) j1)
               <$> py_range 1 (k st + 1)) true;
          Ok (Implies pre post))
    (λ j f, ∀ v, eval v f
       = implb (v (_quadruple_to_idx st (ident st s 0) 1 (ident st s 1) j))
           (existsb v ((λ j1, _quadruple_to_idx st (ident st s 1) j (ident st s 2) j1)
                         <$> py_range 1 (k st + 1))))
    (py_range 1 (k st + 1))) as (result & -> & E).
  { apply Forall_forall. intros j Hj%elem_of_py_range.
    rewrite (interior_var (ident st s 0) 1 (ident st s 1) j) by lia. cbn [mbind res_bind].
    destruct (slots_fmap_ok alph kk st Hkk Hcfg
      (λ j1, _quadruple_to_idx st (ident st s 1) j (ident st s 2) j1)) as [Hne Hv].
    { intros j1 Hj1. apply interior_var; lia. }
    destruct (get_or_formula_ok st _ Hne Hv) as (g & -> & Eg). cbn [mbind res_bind].
    eexists. split; [done|]. intros v. simpl. by rewrite Eg. }
  cbn [mbind res_bind]. eexists. split; [done|]. intros v. cbn [eval].
  apply forallb_eval_Forall2. eapply Forall2_impl; [exact E|]. intros j f Hf. apply Hf.
Qed.

Lemma gen_b_common_ok :
  ∃ f, __gen_b_common st s = Ok f ∧ ∀ v, eval v f = sat_b_common st v s.
Proof.
  unfold __gen_b_common, sat_b_common.
  destruct (res_mapM_Forall2
    (λ i, id1 ← sentence_id st s i; id2 ← sentence_id st s (i + 1);
          id3 ← sentence_id st s (i + 2);
          imply_formulas st (_get_alphabet_to_alphabet_imply_list st id1 id2 id3 false))
    (λ i fs, ∀ v, forallb (eval v) fs = sat_imply v
       (_get_alphabet_to_alphabet_imply_list st (ident st s i) (ident st s (i + 1))
          (ident st s (i + 2)) false))
    (py_range 1 (len s - 2))) as (result & -> & E).
  { apply Forall_forall. intros i Hi%elem_of_py_range.
    rewrite !sid by lia. cbn [mbind res_bind].
    apply imply_formulas_sat. apply (imply_list_ok alph kk); try done.
    - apply vid. lia.
    - apply vid. lia.
    - left. apply vid. lia. }
  cbn [mbind res_bind]. cbv zeta.
  assert (∀ v, forallb (eval v) (concat result)
    = forallb (λ i, sat_imply v
        (_get_alphabet_to_alphabet_imply_list st (ident st s i) (ident st s (i + 1))
           (ident st s (i + 2)) false)) (py_range 1 (len s - 2))) as Hall.
  { intros v. rewrite forallb_concat.
    clear -E. induction E as [|i fs l ls Hi _ IH]; [done|]. simpl. by rewrite Hi, IH. }
  destruct (decide (len (concat result) = 0)) as [H0|H0].
  - rewrite (configured_true alph kk st Hcfg). eexists. split; [done|].
    intros v. rewrite <- Hall. destruct (concat result); [done|]. unfold len in H0.
    simpl in H0. lia.
  - eexists. split; [done|]. intros v. cbn [eval]. apply Hall.
Qed.

Lemma gen_b_snk_ok :
  len s > 1 →
  ∃ f, __gen_b_snk st s = Ok f ∧ ∀ v, eval v f = sat_b_snk st v s.
Proof.
  intros Hlen. unfold sat_b_snk. pose proof (configured_k alph kk st Hcfg) as Hk.
  unfold __gen_b_snk. rewrite !sid by lia. cbn [mbind res_bind]. cbv zeta.
  change (len (alphabet st)) with (get_size st).
  pose proof (vid (-2) ltac:(lia)). pose proof (vid (-1) ltac:(lia)).
  destruct (res_mapM_Forall2
    (λ j, pre ← (if decide (len s = 2)
                 then var st (_quadruple_to_idx st (ident st s (-2)) 1 (ident st s (-1)) j)
                 else _get_or_formula st
                        ((λ j1, _quadruple_to_idx st (ident st s (-2)) j1 (ident st s (-1)) j)
                           <$> py_range 1 (k st + 1)) true);
          post ← var st (_quadruple_to_idx st (ident st s (-1)) j (get_size st + 1) 0);
          Ok (Implies pre post))
    (λ j f, ∀ v, eval v f
       = implb (if decide (len s = 2)
                then v (_quadruple_to_idx st (ident st s (-2)) 1 (ident st s (-1)) j)
                else existsb v
                       ((λ j1, _quadruple_to_idx st (ident st s (-2)) j1
                                 (ident st s (-1)) j) <$> py_range 1 (k st + 1)))
           (v (_quadruple_to_idx st (ident st s (-1)) j (get_size st + 1) 0)))
    (py_range 1 (k st + 1))) as (result & -> & E).
  { apply Forall_forall. intros j Hj%elem_of_py_range.
    rewrite (snk_var (ident st s (-1)) j) by lia.
    destruct (decide (len s = 2)).
    - rewrite (interior_var (ident st s (-2)) 1 (ident st s (-1)) j) by lia.
      cbn [mbind res_bind]. eexists. split; [done|]. done.
    - destruct (slots_fmap_ok alph kk st Hkk Hcfg
        (λ j1, _quadruple_to_idx st (ident st s (-2)) j1 (ident st s (-1)) j)) as [Hne Hv].
      { intros j1 Hj1. apply interior_var; lia. }
      destruct (get_or_formula_ok st _ Hne Hv) as (g & -> & Eg). cbn [mbind res_bind].
      eexists. split; [done|]. intros v. simpl. by rewrite Eg. }
  cbn [mbind res_bind]. eexists. split; [done|]. intros v. cbn [eval].
  apply forallb_eval_Forall2. eapply Forall2_impl; [exact E|]. intros j f Hf. apply Hf.
Qed.

Lemma sentence_const_b_ok :
  ∃ f, sentence_const_b s true st = (Ok (Some f), st) ∧
    ∀ v, eval v f
         = if decide (k st ≤ 1 ∨ len s ≤ 1) then true
           else (if decide (len s > 2) then sat_b_src st v s && sat_b_common st v s else true)
                && sat_b_snk st v s.
Proof.
  unfold sentence_const_b. erewrite bind_ok by reflexivity.
  destruct (decide (k st ≤ 1)) as [Hk1|Hk1].
  - rewrite bool_decide_eq_true_2 by done. exists (BoolVal true). split.
    + by erewrite bind_ok by (unfold reads; by rewrite (configured_true alph kk st Hcfg)).
    + intros v. by rewrite decide_True by (by left).
  - rewrite bool_decide_eq_false_2 by done.
    unfold _gen_sentence_constraint_b, __gen_constraint_b_formula. cbv zeta.
    destruct (decide (len s ≤ 1)) as [Hl1|Hl1].
    + exists (BoolVal true). split.
      * by erewrite bind_ok by (unfold reads; by rewrite (configured_true alph kk st Hcfg)).
      * intros v. by rewrite decide_True by (by right).
    + destruct (gen_b_snk_ok ltac:(lia)) as (f3 & E3 & V3).
      destruct gen_b_common_ok as (f2 & E2 & V2).
      destruct (decide (len s > 1)) as [_|?]; [|lia].
      destruct (decide (len s > 2)) as [Hl2|Hl2].
      * destruct (gen_b_src_ok Hl2) as (f1 & E1 & V1).
        eexists. split.
        { erewrite bind_ok; [done|]. unfold reads. rewrite E1, E2, E3. done. }
        intros v. rewrite decide_False by lia. cbn [eval app forallb].
        by rewrite V1, V2, V3, !andb_true_r, andb_assoc.
      * eexists. split.
        { erewrite bind_ok; [done|]. unfold reads. rewrite E3. done. }
        intros v. rewrite decide_False by lia. cbn [eval app forallb].
        by rewrite V3, !andb_true_r.
Qed.

Lemma gen_sentence_constraint_ext_ok :
  ∃ fa fb, gen_sentence_constraint s true st = (Ok (Some (And [fa; fb])), st) ∧
    sentence_const_a s true st = (Ok (Some fa), st) ∧
    sentence_const_b s true st = (Ok (Some fb), st).
Proof.
  destruct (sentence_const_a_ok alph kk st Hkk Hcfg s Hs) as (fa & Ea & _).
  destruct sentence_const_b_ok as (fb & Eb & _).
  exists fa, fb. split; [|done]. unfold gen_sentence_constraint.
  erewrite bind_ok by exact Ea. by erewrite bind_ok by exact Eb.
Qed.
End standalone.

(** X10: on an engine configured by [global_init] with [k ≥ 1], whatever its
    tables hold, the standalone formula of a sample over the alphabet is
    always produced: no lookup in [id_table], [var_list] or the sample
    raises, the result is [And(const_a, const_b)], and the state is left as
    it was. *)
Theorem gen_sentence_constraint_ext_total alph kk st s :
  1 ≤ kk → same_config (global_init alph kk) st → over_alphabet alph s →
  ∃ fa fb, gen_sentence_constraint s true st = (Ok (Some (And [fa; fb])), st).
Proof.
  intros Hkk Hcfg Hs.
  destruct (gen_sentence_constraint_ext_ok alph kk st Hkk Hcfg s Hs) as (fa & fb & E & _).
  by exists fa, fb.
Qed.

Lemma gen_sentence_constraint_ext_total_witness :
  ∃ fa fb, gen_sentence_constraint ["b"; "a"; "a"; "b"] true (global_init ["a"; "b"] 3)
           = (Ok (Some (And [fa; fb])), global_init ["a"; "b"] 3).
Proof.
  apply (gen_sentence_constraint_ext_total ["a"; "b"] 3).
  - lia.
  - apply same_config_refl.
  - unfold over_alphabet. apply (bool_decide_unpack _). by vm_compute.
Defined.

(** ** The standalone formula forces an accepting path *)

Lemma existsb_bind {A B} (p : B → bool) (g : A → list B) (l : list A) :
  existsb p (l ≫= g) = existsb (λ x, existsb p (g x)) l.
Proof.
  induction l as [|x l IH]; [done|].
  change ((x :: l) ≫= g) with (g x ++ (l ≫= g)).
  rewrite existsb_app. simpl. by rewrite IH.
Qed.

Lemma existsb_range (p : Z → bool) a b :
  existsb p (py_range a b) = true ↔ ∃ x, a ≤ x < b ∧ p x = true.
Proof.
  rewrite existsb_exists. split.
  - intros (x & Hx & Hp). exists x. split; [|done].
    by apply elem_of_py_range, list_elem_of_In.
  - intros (x & Hx & Hp). exists x. split; [|done].
    by apply list_elem_of_In, elem_of_py_range.
Qed.

Section soundness.
Variables (alph : list string) (kk : Z) (st : engine).
Hypothesis Hkk : 1 ≤ kk.
Hypothesis Hcfg : same_config (global_init alph kk) st.
Variable s : list string.
Hypothesis Hs : over_alphabet alph s.
Variable v : Z → bool.

Lemma first_edge :
  len s > 1 → sat_first st v (pair_at st s 0) = true →
  ∃ j, 1 ≤ j ≤ k st ∧
    v (_quadruple_to_idx st (ident st s 0) 1 (ident st s (0 + 1)) j) = true.
Proof.
  intros Hlen Hsat. unfold sat_first, pair_at, _get_alphabet_to_alphabet_list in Hsat.
  cbn [fst snd] in Hsat. by apply existsb_slots in Hsat.
Qed.

Lemma interior_edge i :
  1 ≤ i ≤ len s - 2 → sat_interior st v (pair_at st s i) = true →
  ∃ k1 k2, 1 ≤ k1 ≤ k st ∧ 1 ≤ k2 ≤ k st ∧
    v (_quadruple_to_idx st (ident st s i) k1 (ident st s (i + 1)) k2) = true.
Proof.
  intros Hi Hsat. unfold sat_interior, pair_at, _get_alphabet_to_alphabet_list in Hsat.
  cbn [fst snd] in Hsat.
  pose proof (vid alph kk st Hcfg s Hs i ltac:(lia)).
  pose proof (vid alph kk st Hcfg s Hs (i + 1) ltac:(lia)).
  rewrite decide_False in Hsat by lia. rewrite decide_False in Hsat by lia.
  rewrite existsb_bind in Hsat. apply existsb_range in Hsat as (k1 & Hk1 & Hsat).
  rewrite existsb_bind in Hsat. apply existsb_range in Hsat as (k2 & Hk2 & Hsat).
  simpl in Hsat. rewrite orb_false_r in Hsat.
  exists k1, k2. repeat split; (lia || done).
Qed.

Lemma snk_edge :
  len s ≠ 0 → sat_snk st v (ident st s (-1)) = true →
  ∃ k1, 1 ≤ k1 ≤ k st ∧
    v (_quadruple_to_idx st (ident st s (-1)) k1 (get_size st + 1) 0) = true.
Proof.
  intros Hlen Hsat. assert (0 ≤ len s) by (unfold len; lia).
  pose proof (vid alph kk st Hcfg s Hs (-1) ltac:(lia)) as Hv.
  destruct (snk_list alph kk st Hkk Hcfg _ Hv) as (El & _).
  unfold sat_snk in Hsat. rewrite El in Hsat. by apply existsb_slots in Hsat.
Qed.

Lemma b_src_step :
  len s > 2 → sat_b_src st v s = true →
  ∀ j, 1 ≤ j ≤ k st →
    v (_quadruple_to_idx st (ident st s 0) 1 (ident st s 1) j) = true →
    ∃ j1, 1 ≤ j1 ≤ k st ∧
      v (_quadruple_to_idx st (ident st s 1) j (ident st s 2) j1) = true.
Proof.
  intros Hlen Hsat j Hj Hpre. unfold sat_b_src in Hsat.
  rewrite forallb_slots in Hsat. specialize (Hsat j ltac:(lia)).
  rewrite Hpre in Hsat. simpl in Hsat. by apply existsb_slots in Hsat.
Qed.

Lemma b_common_step i :
  1 ≤ i ≤ len s - 3 → sat_b_common st v s = true →
  ∀ k1 k2, 1 ≤ k1 ≤ k st → 1 ≤ k2 ≤ k st →
    v (_quadruple_to_idx st (ident st s i) k1 (ident st s (i + 1)) k2) = true →
    ∃ k3, 1 ≤ k3 ≤ k st ∧
      v (_quadruple_to_idx st (ident st s (i + 1)) k2 (ident st s (i + 2)) k3) = true.
Proof.
  intros Hi Hsat k1 k2 Hk1 Hk2 Hpre. unfold sat_b_common in Hsat.
  rewrite forallb_slots in Hsat. specialize (Hsat i ltac:(lia)).
  pose proof (vid alph kk st Hcfg s Hs (i + 2) ltac:(lia)).
  unfold sat_imply, _get_alphabet_to_alphabet_imply_list in Hsat.
  rewrite decide_False in Hsat by lia.
  rewrite forallb_true_iff in Hsat.
  specialize (Hsat
    ((λ k1, _quadruple_to_idx st (ident st s i) k1 (ident st s (i + 1)) k2)
       <$> py_range 1 (k st + 1),
     (λ k3, _quadruple_to_idx st (ident st s (i + 1)) k2 (ident st s (i + 2)) k3)
       <$> py_range 1 (k st + 1))).
  cbn [fst snd] in Hsat.
  assert (existsb v ((λ k1, _quadruple_to_idx st (ident st s i) k1 (ident st s (i + 1)) k2)
                       <$> py_range 1 (k st + 1)) = true) as Hex.
  { apply existsb_slots. by exists k1. }
  rewrite Hex in Hsat. simpl in Hsat. apply existsb_slots. apply Hsat.
  apply (list_elem_of_fmap_2
    (λ k2, ((λ k1, _quadruple_to_idx st (ident st s i) k1 (ident st s (i + 1)) k2)
              <$> py_range 1 (k st + 1),
            (λ k3, _quadruple_to_idx st (ident st s (i + 1)) k2 (ident st s (i + 2)) k3)
              <$> py_range 1 (k st + 1)))).
  apply elem_of_py_range. lia.
Qed.

Lemma b_snk_step :
  len s > 1 → sat_b_snk st v s = true →
  ∀ j1 j, 1 ≤ j1 ≤ k st → 1 ≤ j ≤ k st → (len s = 2 → j1 = 1) →
    v (_quadruple_to_idx st (ident st s (len s - 2)) j1 (ident st s (len s - 1)) j) = true →
    v (_quadruple_to_idx st (ident st s (len s - 1)) j (get_size st + 1) 0) = true.
Proof.
  intros Hlen Hsat j1 j Hj1 Hj Htwo Hpre. unfold sat_b_snk in Hsat.
  rewrite forallb_slots in Hsat. specialize (Hsat j ltac:(lia)).
  rewrite (ident_from_end st s (-2)) in Hsat by lia.
  rewrite (ident_from_end st s (-1)) in Hsat by lia.
  replace (len s + -2) with (len s - 2) in Hsat by lia.
  replace (len s + -1) with (len s - 1) in Hsat by lia.
  destruct (decide (len s = 2)) as [H2|H2].
  - rewrite (Htwo H2) in Hpre. rewrite Hpre in Hsat. done.
  - assert (existsb v
      ((λ j1, _quadruple_to_idx st (ident st s (len s - 2)) j1 (ident st s (len s - 1)) j)
         <$> py_range 1 (k st + 1)) = true) as Hex.
    { apply existsb_slots. by exists j1. }
    rewrite Hex in Hsat. done.
Qed.

(** A path through the first [m + 1] symbols. *)
Lemma path_prefix :
  2 ≤ k st → len s > 1 →
  sat_first st v (pair_at st s 0) = true →
  (len s > 2 → sat_b_src st v s = true ∧ sat_b_common st v s = true) →
  ∀ n : nat, 1 + Z.of_nat n ≤ len s - 1 →
    ∃ slot : Z → Z, slot 0 = 1 ∧
      (∀ i, 0 ≤ i ≤ 1 + Z.of_nat n → 1 ≤ slot i ≤ k st) ∧
      (∀ i, 0 ≤ i < 1 + Z.of_nat n →
         v (_quadruple_to_idx st (ident st s i) (slot i) (ident st s (i + 1))
              (slot (i + 1))) = true).
Proof.
  intros Hk Hlen Hfirst HB n. induction n as [|n IH]; intros Hn.
  - destruct (first_edge Hlen Hfirst) as (j & Hj & Hv).
    exists (λ i, if decide (i = 0) then 1 else j). split; [done|]. split.
    + intros i Hi. destruct (decide (i = 0)); lia.
    + intros i Hi. assert (i = 0) as -> by lia. done.
  - destruct IH as (slot & H0 & Hr & He); [lia|].
    set (m := 1 + Z.of_nat n) in *.
    destruct (HB ltac:(lia)) as [Hbs Hbc].
    assert (∃ j, 1 ≤ j ≤ k st ∧
      v (_quadruple_to_idx st (ident st s m) (slot m) (ident st s (m + 1)) j) = true)
      as (j & Hj & Hv).
    { destruct (decide (m = 1)) as [Hm|Hm].
      - rewrite Hm. apply (b_src_step ltac:(lia) Hbs); [apply Hr; lia|].
        specialize (He 0 ltac:(lia)). rewrite H0 in He. exact He.
      - pose proof (b_common_step (m - 1) ltac:(lia) Hbc (slot (m - 1)) (slot m)
          ltac:(apply Hr; lia) ltac:(apply Hr; lia)) as Hstep.
        replace (m - 1 + 1) with m in Hstep by lia.
        replace (m - 1 + 2) with (m + 1) in Hstep by lia.
        apply Hstep. specialize (He (m - 1) ltac:(lia)).
        by replace (m - 1 + 1) with m in He by lia. }
    exists (λ i, if decide (i = m + 1) then j else slot i).
    replace (1 + Z.of_nat (S n)) with (m + 1) by lia. split; [|split].
    + by rewrite decide_False by lia.
    + intros i Hi. destruct (decide (i = m + 1)); [lia|]. apply Hr. lia.
    + intros i Hi. rewrite (decide_False (P := i = m + 1)) by lia.
      destruct (decide (i + 1 = m + 1)) as [Heq|Hne].
      * assert (i = m) as -> by lia. done.
      * apply He. lia.
Qed.

Lemma accepting_path_of_sat :
  len s ≠ 0 →
  forallb (sat_src st v) (keys_src_to_alphabet1 st s)
  && forallb (sat_first st v) (keys_alphabet1_to_alphabet st s)
  && forallb (sat_interior st v) (keys_alphabet_to_alphabet st s)
  && (if decide (len s = 1)
      then v (_quadruple_to_idx st (ident st s (-1)) 1 (get_size st + 1) 0)
      else forallb (sat_snk st v) (keys_alphabet_to_snk st s)) = true →
  (if decide (k st ≤ 1 ∨ len s ≤ 1) then true
   else (if decide (len s > 2) then sat_b_src st v s && sat_b_common st v s else true)
        && sat_b_snk st v s) = true →
  ∃ slot, accepting_path st v s slot.
Proof.
  intros Hlen Ha Hb. assert (0 ≤ len s) by (unfold len; lia).
  pose proof (configured_k alph kk st Hcfg) as Hk.
  rewrite !andb_true_iff in Ha. destruct Ha as (((A1 & A2) & A3) & A4).
  assert (v (_quadruple_to_idx st 0 0 (ident st s 0) 1) = true) as Fsrc.
  { unfold keys_src_to_alphabet1 in A1. rewrite decide_False in A1 by done.
    cbn [forallb] in A1. rewrite andb_true_r in A1. unfold sat_src in A1.
    pose proof (vid alph kk st Hcfg s Hs 0 ltac:(lia)) as Hv.
    destruct (src_list alph kk st Hkk Hcfg _ Hv) as (El & _). rewrite El in A1.
    cbn [forallb] in A1. by rewrite andb_true_r in A1. }
  assert (ident st s (-1) = ident st s (len s - 1)) as Elast.
  { by rewrite ident_from_end by lia. }
  unfold accepting_path.
  destruct (decide (len s = 1)) as [L1|L1].
  { exists (λ _, 1). split; [done|]. split; [intros; lia|]. split; [done|].
    split; [intros; lia|]. by rewrite <- Elast. }
  assert (sat_first st v (pair_at st s 0) = true) as Ffirst.
  { unfold keys_alphabet1_to_alphabet in A2. rewrite decide_True in A2 by lia.
    cbn [forallb] in A2. by rewrite andb_true_r in A2. }
  assert (∀ i, 1 ≤ i ≤ len s - 2 → sat_interior st v (pair_at st s i) = true) as Fint.
  { intros i Hi. unfold keys_alphabet_to_alphabet in A3.
    rewrite decide_True in A3 by lia. rewrite forallb_true_iff in A3. apply A3.
    apply (list_elem_of_fmap_2 (pair_at st s)). apply elem_of_py_range. lia. }
  assert (sat_snk st v (ident st s (-1)) = true) as Fsnk.
  { unfold keys_alphabet_to_snk in A4. rewrite decide_False in A4 by done.
    cbn [forallb] in A4. by rewrite andb_true_r in A4. }
  destruct (decide (k st ≤ 1)) as [K1|K2].
  - exists (λ _, 1). split; [done|]. split; [intros; lia|]. split; [done|]. split.
    + intros i Hi. destruct (decide (i = 0)) as [->|Hi0].
      * destruct (first_edge ltac:(lia) Ffirst) as (j & Hj & Hv).
        by replace j with 1 in Hv by lia.
      * destruct (interior_edge i ltac:(lia) (Fint i ltac:(lia)))
          as (k1 & k2 & Hk1 & Hk2 & Hv).
        replace k1 with 1 in Hv by lia. by replace k2 with 1 in Hv by lia.
    + destruct (snk_edge Hlen Fsnk) as (k1 & Hk1 & Hv). rewrite <- Elast.
      by replace k1 with 1 in Hv by lia.
  - rewrite decide_False in Hb by lia. apply andb_true_iff in Hb as [Hb1 Hb2].
    destruct (path_prefix ltac:(lia) ltac:(lia) Ffirst) with (n := Z.to_nat (len s - 2))
      as (slot & H0 & Hr & He).
    { intros H2. rewrite decide_True in Hb1 by done. by apply andb_true_iff in Hb1. }
    { lia. }
    replace (1 + Z.of_nat (Z.to_nat (len s - 2))) with (len s - 1) in * by lia.
    exists slot. split; [done|]. split; [intros; apply Hr; lia|]. split; [done|].
    split; [intros; apply He; lia|].
    apply (b_snk_step ltac:(lia) Hb2 (slot (len s - 2)) (slot (len s - 1)));
      [apply Hr; lia|apply Hr; lia| |].
    + intros H2. rewrite H2. exact H0.
    + specialize (He (len s - 2) ltac:(lia)).
      by replace (len s - 2 + 1) with (len s - 1) in He by lia.
Qed.
End soundness.

(** X11: soundness of the standalone formula.  On an engine configured with
    [k ≥ 1], for a non-empty sample over the alphabet, the formula is
    produced, and every assignment that satisfies it describes an automaton
    that accepts the sample: the edge from [src] to the canonical slot of the
    first symbol, a chain of edges from slot to slot through the symbols in
    order, and the edge from the last slot to [snk] are all true. *)
Theorem standalone_formula_sound alph kk st s :
  1 ≤ kk → same_config (global_init alph kk) st → over_alphabet alph s → len s ≠ 0 →
  ∃ f, gen_sentence_constraint s true st = (Ok (Some f), st) ∧
    ∀ v, eval v f = true → ∃ slot, accepting_path st v s slot.
Proof.
  intros Hkk Hcfg Hs Hlen.
  destruct (sentence_const_a_ok alph kk st Hkk Hcfg s Hs) as (fa & Ea & Va).
  destruct (sentence_const_b_ok alph kk st Hkk Hcfg s Hs) as (fb & Eb & Vb).
  exists (And [fa; fb]). split.
  - unfold gen_sentence_constraint.
    erewrite bind_ok by exact Ea. by erewrite bind_ok by exact Eb.
  - intros v Hv. cbn [eval forallb] in Hv. rewrite andb_true_r in Hv.
    apply andb_true_iff in Hv as [Hva Hvb]. rewrite Va in Hva. rewrite Vb in Hvb.
    by apply (accepting_path_of_sat alph kk st Hkk Hcfg s Hs v).
Qed.

Lemma standalone_formula_sound_witness :
  ∃ f, gen_sentence_constraint ["a"; "b"; "b"] true (global_init ["a"; "b"] 2)
       = (Ok (Some f), global_init ["a"; "b"] 2) ∧
    ∀ v, eval v f = true →
      ∃ slot, accepting_path (global_init ["a"; "b"] 2) v ["a"; "b"; "b"] slot.
Proof.
  apply (standalone_formula_sound ["a"; "b"] 2).
  - lia.
  - apply same_config_refl.
  - unfold over_alphabet. apply (bool_decide_unpack _). by vm_compute.
  - by vm_compute.
Defined.

(** ** What the determinism formula says *)

Lemma forallb_fmap {A B} (p : B → bool) (g : A → B) (l : list A) :
  forallb p (g <$> l) = forallb (λ x, p (g x)) l.
Proof. induction l as [|x l IH]; [done|]. rewrite fmap_cons. cbn [forallb]. by rewrite IH. Qed.

Lemma elem_of_filter_range (m : Z) a b x :
  x ∈ filter (λ k2, k2 ≠ m) (py_range a b) ↔ a ≤ x < b ∧ x ≠ m.
Proof. rewrite list_elem_of_filter, elem_of_py_range. tauto. Qed.

(** One of [p m ∧ all others false], for some [m], or [all false]: at most
    one slot is chosen. *)
Lemma one_or_none (p : Z → bool) kk :
  existsb (λ m, p m && forallb (λ k2, negb (p k2))
                          (filter (λ k2, k2 ≠ m) (py_range 1 (kk + 1))))
    (py_range 1 (kk + 1))
  || forallb (λ k2, negb (p k2)) (py_range 1 (kk + 1)) = true
  ↔ ∀ m m', 1 ≤ m ≤ kk → 1 ≤ m' ≤ kk → p m = true → p m' = true → m = m'.
Proof.
  rewrite orb_true_iff, existsb_range, forallb_slots. split.
  - intros [(m0 & Hm0 & Hp)|Hnone] m m' Hm Hm' Hpm Hpm'.
    + apply andb_true_iff in Hp as [Hp0 Hothers]. rewrite forallb_true_iff in Hothers.
      assert (∀ x, 1 ≤ x ≤ kk → p x = true → x = m0) as Huniq.
      { intros x Hx Hpx. destruct (decide (x = m0)) as [|Hne]; [done|].
        specialize (Hothers x). rewrite Hpx in Hothers. simpl in Hothers.
        discriminate Hothers. apply elem_of_filter_range. lia. }
      rewrite (Huniq m), (Huniq m'); auto.
    + specialize (Hnone m ltac:(lia)). by rewrite Hpm in Hnone.
  - intros Huniq.
    destruct (existsb p (py_range 1 (kk + 1))) eqn:Hex.
    + left. apply existsb_range in Hex as (m0 & Hm0 & Hp0). exists m0. split; [done|].
      rewrite Hp0. simpl. apply forallb_true_iff. intros x [Hx Hne]%elem_of_filter_range.
      destruct (p x) eqn:Hpx; [|done]. exfalso. apply Hne. apply Huniq; auto with lia.
    + right. intros x Hx. destruct (p x) eqn:Hpx; [|done].
      assert (existsb p (py_range 1 (kk + 1)) = true) as Hex'.
      { apply existsb_range. exists x. split; [lia|done]. }
      congruence.
Qed.

(** The canonical slot, or no slot at all. *)
Lemma first_or_none (p : Z → bool) kk :
  1 ≤ kk →
  p 1 || forallb (λ k2, negb (p k2)) (py_range 1 (kk + 1)) = true
  ↔ ∀ k2, 1 ≤ k2 ≤ kk → p k2 = true → p 1 = true.
Proof.
  intros Hkk. rewrite orb_true_iff, forallb_slots. split.
  - intros [H1|Hnone] k2 Hk2 Hp; [done|].
    specialize (Hnone k2 ltac:(lia)). by rewrite Hp in Hnone.
  - intros Hall. destruct (p 1) eqn:H1; [by left|right].
    intros x Hx. destruct (p x) eqn:Hpx; [|done].
    exfalso. assert (false = true) by (apply (Hall x); [lia|done]). congruence.
Qed.

Section determinism.
Variables (alph : list string) (kk : Z) (st : engine).
Hypothesis Hkk : 2 ≤ kk.
Hypothesis Hcfg : same_config (global_init alph kk) st.

Lemma and_neg_ok l :
  Forall (is_var st) l →
  ∃ f, _get_and_formula st l false = Ok f ∧ ∀ v, eval v f = forallb (λ i, negb (v i)) l.
Proof.
  intros Hl. unfold _get_and_formula. destruct (decide (len l = 0)) as [H0|H0].
  - rewrite (configured_true alph kk st Hcfg). exists (BoolVal true). split; [done|].
    intros v. by destruct l.
  - destruct (res_mapM_Forall2 (λ i, x ← var st i; Ok (Not x))
      (λ i f, ∀ v, eval v f = negb (v i)) l) as (args & -> & E).
    { eapply Forall_impl; [exact Hl|]. intros i Hi. unfold is_var in Hi. rewrite Hi.
      cbn [mbind res_bind]. eexists. split; [done|]. done. }
    cbn [mbind res_bind]. eexists. split; [done|]. intros v. cbn [eval].
    apply forallb_eval_Forall2. eapply Forall2_impl; [exact E|]. intros i f Hf. apply Hf.
Qed.

Lemma symbol_id ch :
  ch ∈ alph → ∃ id, lookup_id st ch = Ok id ∧ 1 ≤ id ≤ get_size st.
Proof.
  intros Hch. destruct (id_table_global_init alph kk ch Hch) as (i & Hi & Hr).
  exists i. unfold lookup_id. destruct Hcfg as (Ha & _ & _ & ->). rewrite Hi.
  split; [done|]. unfold get_size in *. rewrite Ha. done.
Qed.

Lemma src_var id2 k2 :
  1 ≤ id2 ≤ get_size st → 1 ≤ k2 ≤ k st → is_var st (_quadruple_to_idx st 0 0 id2 k2).
Proof.
  intros. apply (is_var_valid_tuple alph kk); [lia|done|lia|]. left. lia.
Qed.

Lemma inner_var id1 k1 id2 k2 :
  1 ≤ id1 ≤ get_size st → 1 ≤ k1 ≤ k st → 1 ≤ id2 ≤ get_size st → 1 ≤ k2 ≤ k st →
  is_var st (_quadruple_to_idx st id1 k1 id2 k2).
Proof.
  intros. apply (is_var_valid_tuple alph kk); [lia|done|lia|]. do 3 right. lia.
Qed.

Lemma deterministic_clause_ok ch1 ch2 k1 id1 id2 :
  lookup_id st ch1 = Ok id1 → lookup_id st ch2 = Ok id2 →
  1 ≤ id1 ≤ get_size st → 1 ≤ id2 ≤ get_size st → 1 ≤ k1 ≤ k st →
  ∃ f, deterministic_clause st ch1 ch2 k1 = Ok f ∧
    ∀ v, eval v f
         = existsb (λ m, v (_quadruple_to_idx st id1 k1 id2 m)
                         && forallb (λ k2, negb (v (_quadruple_to_idx st id1 k1 id2 k2)))
                              (filter (λ k2, k2 ≠ m) (py_range 1 (k st + 1))))
             (py_range 1 (k st + 1))
           || forallb (λ k2, negb (v (_quadruple_to_idx st id1 k1 id2 k2)))
                (py_range 1 (k st + 1)).
Proof.
  intros E1 E2 H1 H2 Hk1. unfold deterministic_clause. rewrite E1, E2.
  cbn [mbind res_bind].
  destruct (res_mapM_Forall2
    (λ m, p ← var st (_quadruple_to_idx st id1 k1 id2 m);
          n ← _get_and_formula st
                ((λ k2, _quadruple_to_idx st id1 k1 id2 k2)
                   <$> filter (λ k2, k2 ≠ m) (py_range 1 (k st + 1))) false;
          Ok (And [p; n]))
    (λ m f, ∀ v, eval v f
       = v (_quadruple_to_idx st id1 k1 id2 m)
         && forallb (λ k2, negb (v (_quadruple_to_idx st id1 k1 id2 k2)))
              (filter (λ k2, k2 ≠ m) (py_range 1 (k st + 1))))
    (py_range 1 (k st + 1))) as (part_2 & -> & Ep).
  { apply Forall_forall. intros m Hm%elem_of_py_range.
    rewrite (inner_var id1 k1 id2 m) by lia. cbn [mbind res_bind].
    destruct (and_neg_ok ((λ k2, _quadruple_to_idx st id1 k1 id2 k2)
                <$> filter (λ k2, k2 ≠ m) (py_range 1 (k st + 1)))) as (n & -> & En).
    { apply Forall_fmap, Forall_forall. intros k2 [Hk2 _]%elem_of_filter_range. simpl.
      apply inner_var; lia. }
    cbn [mbind res_bind]. eexists. split; [done|]. intros v. cbn [eval forallb].
    by rewrite En, forallb_fmap, andb_true_r. }
  cbn [mbind res_bind].
  destruct (and_neg_ok ((λ k2, _quadruple_to_idx st id1 k1 id2 k2)
              <$> py_range 1 (k st + 1))) as (none & -> & En).
  { apply Forall_fmap, Forall_forall. intros k2 Hk2%elem_of_py_range. simpl.
    apply inner_var; lia. }
  cbn [mbind res_bind]. eexists. split; [done|]. intros v. cbn [eval].
  rewrite existsb_app. cbn [existsb]. rewrite En, forallb_fmap, orb_false_r. f_equal.
  apply existsb_eval_Forall2. eapply Forall2_impl; [exact Ep|]. intros m f Hf. apply Hf.
Qed.

Lemma elem_of_triples (c : string * string * Z) :
  c ∈ (ch1 ← alphabet st; ch2 ← alphabet st; k1 ← py_range 1 (k st + 1); [(ch1, ch2, k1)])
  ↔ c.1.1 ∈ alphabet st ∧ c.1.2 ∈ alphabet st ∧ 1 ≤ c.2 ≤ k st.
Proof.
  destruct c as [[ch1 ch2] k1]. cbn [fst snd]. rewrite list_elem_of_bind. split.
  - intros (x & Hx & Hx1). apply list_elem_of_bind in Hx as (y & Hy & Hy1).
    apply list_elem_of_bind in Hy as (z & Hz & Hz1%elem_of_py_range).
    apply list_elem_of_singleton in Hz. simplify_eq. repeat split; (done || lia).
  - intros (H1 & H2 & H3). exists ch1. split; [|done].
    apply list_elem_of_bind. exists ch2. split; [|done].
    apply list_elem_of_bind. exists k1. split; [apply list_elem_of_singleton; done|].
    apply elem_of_py_range. lia.
Qed.

Lemma gen_deterministic_formula_ok :
  ∃ f, gen_deterministic_formula st = Ok f ∧ ∀ v, eval v f = true ↔ deterministic st v.
Proof.
  pose proof (configured_k alph kk st Hcfg) as Hk.
  assert (alphabet st = alph) as Ha by (by destruct Hcfg as (-> & _)).
  unfold gen_deterministic_formula. rewrite decide_False by lia.
  set (g := λ (v : Z → bool) ch,
    match lookup_id st ch with
    | Ok id2 => v (_quadruple_to_idx st 0 0 id2 1)
                || forallb (λ k2, negb (v (_quadruple_to_idx st 0 0 id2 k2)))
                     (py_range 1 (k st + 1))
    | Raise _ => false
    end).
  set (h := λ (v : Z → bool) (c : string * string * Z),
    match lookup_id st c.1.1, lookup_id st c.1.2 with
    | Ok id1, Ok id2 =>
        existsb (λ m, v (_quadruple_to_idx st id1 c.2 id2 m)
                      && forallb (λ k2, negb (v (_quadruple_to_idx st id1 c.2 id2 k2)))
                           (filter (λ k2, k2 ≠ m) (py_range 1 (k st + 1))))
          (py_range 1 (k st + 1))
        || forallb (λ k2, negb (v (_quadruple_to_idx st id1 c.2 id2 k2)))
             (py_range 1 (k st + 1))
    | _, _ => false
    end).
  destruct (res_mapM_Forall2
    (λ ch, id2 ← lookup_id st ch;
           p ← var st (_quadruple_to_idx st 0 0 id2 1);
           n ← _get_and_formula st
                 ((λ k2, _quadruple_to_idx st 0 0 id2 k2) <$> py_range 1 (k st + 1)) false;
           Ok (Or [p; n]))
    (λ ch f, ∀ v, eval v f = g v ch) (alphabet st)) as (part_1 & -> & E1).
  { apply Forall_forall. intros ch Hch. rewrite Ha in Hch.
    destruct (symbol_id ch Hch) as (id2 & Eid & Hid). subst g. cbv beta. rewrite Eid.
    cbn [mbind res_bind]. rewrite (src_var id2 1) by lia. cbn [mbind res_bind].
    destruct (and_neg_ok ((λ k2, _quadruple_to_idx st 0 0 id2 k2)
                <$> py_range 1 (k st + 1))) as (n & -> & En).
    { apply Forall_fmap, Forall_forall. intros k2 Hk2%elem_of_py_range. simpl.
      apply src_var; lia. }
    cbn [mbind res_bind]. eexists. split; [done|]. intros v. cbn [eval existsb].
    by rewrite En, forallb_fmap, orb_false_r. }
  cbn [mbind res_bind].
  destruct (res_mapM_Forall2
    (λ c : string * string * Z, deterministic_clause st c.1.1 c.1.2 c.2)
    (λ c f, ∀ v, eval v f = h v c)
    (ch1 ← alphabet st; ch2 ← alphabet st; k1 ← py_range 1 (k st + 1); [(ch1, ch2, k1)]))
    as (rest & -> & E2).
  { apply Forall_forall. intros c (H1 & H2 & H3)%elem_of_triples. rewrite Ha in H1, H2.
    destruct (symbol_id _ H1) as (id1 & Eid1 & Hid1).
    destruct (symbol_id _ H2) as (id2 & Eid2 & Hid2).
    destruct (deterministic_clause_ok c.1.1 c.1.2 c.2 id1 id2 Eid1 Eid2 Hid1 Hid2 H3)
      as (f & Ef & Vf).
    exists f. split; [done|]. intros v. subst h. cbv beta. rewrite Eid1, Eid2. apply Vf. }
  cbn [mbind res_bind]. eexists. split; [done|]. intros v. cbn [eval].
  rewrite forallb_app, andb_true_iff.
  rewrite (forallb_eval_Forall2 (g v) v (alphabet st) part_1)
    by (eapply Forall2_impl; [exact E1|]; intros ch f Hf; apply Hf).
  rewrite (forallb_eval_Forall2 (h v) v _ rest)
    by (eapply Forall2_impl; [exact E2|]; intros c f Hf; apply Hf).
  rewrite !forallb_true_iff. unfold deterministic. split.
  - intros [Hg Hh]. split.
    + intros ch id2 k2 Hch Eid Hk2 Hv. specialize (Hg ch Hch). subst g. cbv beta in Hg.
      rewrite Eid in Hg.
      pose proof (proj1 (first_or_none (λ k2, v (_quadruple_to_idx st 0 0 id2 k2)) (k st)
        ltac:(lia)) Hg) as Hg'. by apply (Hg' k2).
    + intros ch1 ch2 id1 id2 k1 m m' H1 H2 Eid1 Eid2 Hk1 Hm Hm' Hv Hv'.
      specialize (Hh (ch1, ch2, k1)). subst h. cbv beta in Hh. cbn [fst snd] in Hh.
      rewrite Eid1, Eid2 in Hh.
      cut (∀ m m', 1 ≤ m ≤ k st → 1 ≤ m' ≤ k st →
             v (_quadruple_to_idx st id1 k1 id2 m) = true →
             v (_quadruple_to_idx st id1 k1 id2 m') = true → m = m'); [by intros Hu; apply Hu|].
      apply (one_or_none (λ m, v (_quadruple_to_idx st id1 k1 id2 m)) (k st)).
      apply Hh. apply elem_of_triples. done.
  - intros [Hc Hd]. split.
    + intros ch Hch. pose proof Hch as Hch'. rewrite Ha in Hch'.
      destruct (symbol_id ch Hch') as (id2 & Eid & Hid). subst g. cbv beta. rewrite Eid.
      apply (first_or_none (λ k2, v (_quadruple_to_idx st 0 0 id2 k2)) (k st)); [lia|].
      intros k2 Hk2 Hv. by apply (Hc ch id2 k2).
    + intros c (H1 & H2 & H3)%elem_of_triples.
      pose proof H1 as H1'. pose proof H2 as H2'. rewrite Ha in H1', H2'.
      destruct (symbol_id _ H1') as (id1 & Eid1 & Hid1).
      destruct (symbol_id _ H2') as (id2 & Eid2 & Hid2).
      subst h. cbv beta. rewrite Eid1, Eid2.
      apply (one_or_none (λ m, v (_quadruple_to_idx st id1 c.2 id2 m)) (k st)).
      intros m m' Hm Hm' Hv Hv'. by apply (Hd c.1.1 c.1.2 id1 id2 c.2 m m').
Qed.
End determinism.

Lemma deterministic_single_slot st v : k st = 1 → deterministic st v.
Proof.
  intros Hk. split.
  - intros ch id2 k2 _ _ Hk2 Hv. by replace 1 with k2 by lia.
  - intros. lia.
Qed.

Lemma deterministic_formula_any_k alph kk st :
  1 ≤ kk → same_config (global_init alph kk) st →
  ∃ f, gen_deterministic_formula st = Ok f ∧ ∀ v, eval v f = true ↔ deterministic st v.
Proof.
  intros Hkk Hcfg. destruct (decide (kk = 1)) as [H1|H1].
  - pose proof (configured_k alph kk st Hcfg) as Hk.
    unfold gen_deterministic_formula. rewrite decide_True by lia.
    rewrite (configured_true alph kk st Hcfg). eexists. split; [done|]. intros v.
    split; [intros _; apply deterministic_single_slot; lia|done].
  - apply (gen_deterministic_formula_ok alph kk); [lia|done].
Qed.

(** X12: what the determinism formula says.  On an engine configured with
    [k ≥ 1] [gen_deterministic_formula] returns a formula, and an assignment
    satisfies it exactly when the automaton it describes is canonical at
    [src] (a symbol entered from [src] at some slot is entered at slot one)
    and deterministic (from any slot of any symbol at most one slot of any
    symbol is reached). *)
Theorem deterministic_formula_meaning alph kk st :
  1 ≤ kk → same_config (global_init alph kk) st →
  ∃ f, gen_deterministic_formula st = Ok f ∧ ∀ v, eval v f = true ↔ deterministic st v.
Proof.
  intros Hkk Hcfg. destruct (decide (kk = 1)) as [H1|H1].
  - assert (k st = 1) as Hk by (by destruct Hcfg as (_ & -> & _)).
    unfold gen_deterministic_formula. rewrite decide_True by done.
    rewrite (configured_true alph kk st Hcfg). eexists. split; [done|]. intros v.
    split; [intros _; by apply deterministic_single_slot|done].
  - apply (gen_deterministic_formula_ok alph kk); [lia|done].
Qed.

Lemma deterministic_formula_meaning_witness :
  ∃ f, gen_deterministic_formula (global_init ["a"; "b"] 2) = Ok f ∧
    ∀ v, eval v f = true ↔ deterministic (global_init ["a"; "b"] 2) v.
Proof.
  apply (deterministic_formula_meaning ["a"; "b"] 2); [lia|apply same_config_refl].
Defined.

(** ** The global constraint, read off the tables *)

Lemma forallb_concat_Forall2 {A} (g : A → bool) v (l : list A) (fss : list (list formula)) :
  Forall2 (λ x fs, forallb (eval v) fs = g x) l fss →
  forallb (eval v) (concat fss) = forallb g l.
Proof.
  induction 1 as [|x fs l fss Hx _ IH]; [done|].
  simpl. by rewrite forallb_app, Hx, IH.
Qed.

Lemma forallb_same_elements {A} (p : A → bool) (l1 l2 : list A) :
  (∀ x, x ∈ l1 ↔ x ∈ l2) → forallb p l1 = forallb p l2.
Proof.
  intros Hsame. apply eq_true_iff_eq. rewrite !forallb_true_iff.
  split; intros H x Hx; apply H; by apply Hsame.
Qed.

Section global_reading.
Variables (alph : list string) (kk : Z) (st : engine).
Hypothesis Hkk : 1 ≤ kk.
Hypothesis Hcfg : same_config (global_init alph kk) st.

Lemma generate_global_constraint_b_sat :
  Forall (λ key, valid_id st key.1.1 ∧ valid_id st key.1.2 ∧ valid_id st key.2)
    (observed (alphabet1_to_alphabet_imply_table st)) →
  Forall (λ key, valid_id st key.1.1 ∧ valid_id st key.1.2 ∧ valid_id st key.2)
    (observed (alphabet_to_alphabet_imply_table st)) →
  Forall (λ key, valid_id st key.1 ∧ valid_id st key.2)
    (observed (alphabet_to_snk_imply_table st)) →
  ∃ parts, _generate_global_constraint_b st = Ok parts ∧
    ∀ v, forallb (eval v) parts
         = forallb (sat_first_triple st v) (observed (alphabet1_to_alphabet_imply_table st))
           && forallb (sat_interior_triple st v)
                (observed (alphabet_to_alphabet_imply_table st))
           && forallb (sat_snk_pair st v) (observed (alphabet_to_snk_imply_table st)).
Proof.
  intros V1 V2 V3. unfold _generate_global_constraint_b.
  destruct (res_mapM_Forall2
    (λ key : Z * Z * Z, imply_formulas st
       (_get_alphabet_to_alphabet_imply_list st key.1.1 key.1.2 key.2 true))
    (λ key fs, ∀ v, forallb (eval v) fs = sat_first_triple st v key)
    (observed (alphabet1_to_alphabet_imply_table st))) as (p1 & -> & E1).
  { eapply Forall_impl; [exact V1|]. intros key (H1 & H2 & H3).
    apply imply_formulas_sat. apply (imply_list_ok alph kk); auto. }
  cbn [mbind res_bind].
  destruct (res_mapM_Forall2
    (λ key : Z * Z * Z, imply_formulas st
       (_get_alphabet_to_alphabet_imply_list st key.1.1 key.1.2 key.2 false))
    (λ key fs, ∀ v, forallb (eval v) fs = sat_interior_triple st v key)
    (observed (alphabet_to_alphabet_imply_table st))) as (p2 & -> & E2).
  { eapply Forall_impl; [exact V2|]. intros key (H1 & H2 & H3).
    apply imply_formulas_sat. apply (imply_list_ok alph kk); auto. }
  cbn [mbind res_bind].
  destruct (res_mapM_Forall2
    (λ key : Z * Z, imply_formulas st
       (_get_alphabet_to_alphabet_imply_list st key.1 key.2 (get_size st + 1) false))
    (λ key fs, ∀ v, forallb (eval v) fs = sat_snk_pair st v key)
    (observed (alphabet_to_snk_imply_table st))) as (p3 & -> & E3).
  { eapply Forall_impl; [exact V3|]. intros key (H1 & H2).
    apply imply_formulas_sat. apply (imply_list_ok alph kk); auto. }
  cbn [mbind res_bind]. eexists. split; [done|]. intros v.
  rewrite !forallb_app.
  rewrite (forallb_concat_Forall2 (sat_first_triple st v) v _ p1)
    by (eapply Forall2_impl; [exact E1|]; intros key fs Hf; apply Hf).
  rewrite (forallb_concat_Forall2 (sat_interior_triple st v) v _ p2)
    by (eapply Forall2_impl; [exact E2|]; intros key fs Hf; apply Hf).
  rewrite (forallb_concat_Forall2 (sat_snk_pair st v) v _ p3)
    by (eapply Forall2_impl; [exact E3|]; intros key fs Hf; apply Hf).
  by rewrite andb_assoc.
Qed.

Lemma generate_global_constraint_sat :
  observed_valid st →
  ∃ f, generate_global_constraint st = Ok f ∧ ∀ v, eval v f = global_sat st v.
Proof.
  intros (V1 & V2 & V3 & V4 & V5 & V6 & V7). unfold generate_global_constraint.
  destruct (generate_global_constraint_a_ok alph kk st Hkk Hcfg V1 V2 V3 V4)
    as (a & Ea & Va).
  destruct (generate_global_constraint_b_sat V5 V6 V7) as (b & -> & Vb).
  rewrite Ea. cbn [mbind res_bind].
  assert (∀ v, forallb (eval v) (a ++ b) = global_sat st v) as Hsat.
  { intros v. rewrite forallb_app, Vb. specialize (Va v). cbn [eval] in Va. rewrite Va.
    unfold global_sat. by rewrite !andb_assoc. }
  destruct (decide (len (a ++ b) = 0)) as [Hnil|Hne].
  - rewrite (configured_true alph kk st Hcfg). eexists. split; [done|]. intros v.
    rewrite <- Hsat. unfold len in Hnil.
    destruct (a ++ b); [done|]. cbn [length] in Hnil. lia.
  - eexists. split; [done|]. intros v. cbn [eval]. apply Hsat.
Qed.
End global_reading.

Lemma sample_sat_same_config st st' v s :
  same_config st st' → sample_sat st' v s = sample_sat st v s.
Proof.
  intros (Ha & Hk & _ & Hi).
  unfold sample_sat, keys_src_to_alphabet1, keys_alphabet_to_snk,
    keys_alphabet1_to_alphabet, keys_alphabet_to_alphabet, keys_alphabet_to_snk_imply,
    keys_alphabet1_to_alphabet_imply, keys_alphabet_to_alphabet_imply,
    pair_at, triple_at, ident, sentence_id, lookup_id,
    sat_src, sat_first, sat_interior, sat_snk, sat_first_triple, sat_interior_triple,
    sat_snk_pair, _get_alphabet_to_alphabet_list, _get_alphabet_to_alphabet_imply_list,
    _quadruple_to_idx, get_number, get_size.
  by rewrite Ha, Hk, Hi.
Qed.

(** After the positive samples have been aggregated from a fresh
    [global_init], the global constraint is the conjunction, over the
    samples, of what each sample's keys say. *)
Lemma global_sat_samples alph kk samples v :
  global_sat (aggregate_all samples (global_init alph kk)) v = true
  ↔ ∀ s, s ∈ samples → sample_sat (aggregate_all samples (global_init alph kk)) v s = true.
Proof.
  set (st0 := global_init alph kk). set (st := aggregate_all samples st0).
  assert (∀ key, key ∈ observed (src_to_alphabet1_table st)
    ↔ ∃ s, s ∈ samples ∧ key ∈ keys_src_to_alphabet1 st s) as O1.
  { intros key. apply (observed_aggregate_all src_to_alphabet1_table keys_src_to_alphabet1);
      [intros; apply src_to_alphabet1_table_aggregate| |done].
    intros st1 st2 s Hi Hk. by destruct (keys_same_table st1 st2 s Hi Hk) as (? & _). }
  assert (∀ key, key ∈ observed (alphabet1_to_alphabet_table st)
    ↔ ∃ s, s ∈ samples ∧ key ∈ keys_alphabet1_to_alphabet st s) as O2.
  { intros key.
    apply (observed_aggregate_all alphabet1_to_alphabet_table keys_alphabet1_to_alphabet);
      [intros; apply alphabet1_to_alphabet_table_aggregate| |done].
    intros st1 st2 s Hi Hk.
    by destruct (keys_same_table st1 st2 s Hi Hk) as (_ & _ & ? & _). }
  assert (∀ key, key ∈ observed (alphabet_to_alphabet_table st)
    ↔ ∃ s, s ∈ samples ∧ key ∈ keys_alphabet_to_alphabet st s) as O3.
  { intros key.
    apply (observed_aggregate_all alphabet_to_alphabet_table keys_alphabet_to_alphabet);
      [intros; apply alphabet_to_alphabet_table_aggregate| |done].
    intros st1 st2 s Hi Hk.
    by destruct (keys_same_table st1 st2 s Hi Hk) as (_ & _ & _ & ? & _). }
  assert (∀ key, key ∈ observed (alphabet_to_snk_table st)
    ↔ ∃ s, s ∈ samples ∧ key ∈ keys_alphabet_to_snk st s) as O4.
  { intros key. apply (observed_aggregate_all alphabet_to_snk_table keys_alphabet_to_snk);
      [intros; apply alphabet_to_snk_table_aggregate| |done].
    intros st1 st2 s Hi Hk. by destruct (keys_same_table st1 st2 s Hi Hk) as (_ & ? & _). }
  assert (∀ key, key ∈ observed (alphabet1_to_alphabet_imply_table st)
    ↔ ∃ s, s ∈ samples ∧ key ∈ keys_alphabet1_to_alphabet_imply st s) as O5.
  { intros key.
    apply (observed_aggregate_all alphabet1_to_alphabet_imply_table
             keys_alphabet1_to_alphabet_imply);
      [intros; apply alphabet1_to_alphabet_imply_table_aggregate| |done].
    intros st1 st2 s Hi Hk.
    by destruct (keys_same_table st1 st2 s Hi Hk) as (_ & _ & _ & _ & _ & ? & _). }
  assert (∀ key, key ∈ observed (alphabet_to_alphabet_imply_table st)
    ↔ ∃ s, s ∈ samples ∧ key ∈ keys_alphabet_to_alphabet_imply st s) as O6.
  { intros key.
    apply (observed_aggregate_all alphabet_to_alphabet_imply_table
             keys_alphabet_to_alphabet_imply);
      [intros; apply alphabet_to_alphabet_imply_table_aggregate| |done].
    intros st1 st2 s Hi Hk.
    by destruct (keys_same_table st1 st2 s Hi Hk) as (_ & _ & _ & _ & _ & _ & ?). }
  assert (∀ key, key ∈ observed (alphabet_to_snk_imply_table st)
    ↔ ∃ s, s ∈ samples ∧ key ∈ keys_alphabet_to_snk_imply st s) as O7.
  { intros key.
    apply (observed_aggregate_all alphabet_to_snk_imply_table keys_alphabet_to_snk_imply);
      [intros; apply alphabet_to_snk_imply_table_aggregate| |done].
    intros st1 st2 s Hi Hk.
    by destruct (keys_same_table st1 st2 s Hi Hk) as (_ & _ & _ & _ & ? & _). }
  unfold global_sat, sample_sat. rewrite !andb_true_iff, !forallb_true_iff. split.
  - intros ((((((H1 & H2) & H3) & H4) & H5) & H6) & H7) s Hs.
    rewrite !andb_true_iff, !forallb_true_iff. repeat split; intros key Hkey.
    + apply H1, O1. eauto.
    + apply H2, O2. eauto.
    + apply H3, O3. eauto.
    + apply H4, O4. eauto.
    + apply H5, O5. eauto.
    + apply H6, O6. eauto.
    + apply H7, O7. eauto.
  - intros Hall. repeat split.
    + intros key (s & Hs & Hkey)%O1. specialize (Hall s Hs).
      rewrite !andb_true_iff, !forallb_true_iff in Hall. by apply Hall.
    + intros key (s & Hs & Hkey)%O2. specialize (Hall s Hs).
      rewrite !andb_true_iff, !forallb_true_iff in Hall. by apply Hall.
    + intros key (s & Hs & Hkey)%O3. specialize (Hall s Hs).
      rewrite !andb_true_iff, !forallb_true_iff in Hall. by apply Hall.
    + intros key (s & Hs & Hkey)%O4. specialize (Hall s Hs).
      rewrite !andb_true_iff, !forallb_true_iff in Hall. by apply Hall.
    + intros key (s & Hs & Hkey)%O5. specialize (Hall s Hs).
      rewrite !andb_true_iff, !forallb_true_iff in Hall. by apply Hall.
    + intros key (s & Hs & Hkey)%O6. specialize (Hall s Hs).
      rewrite !andb_true_iff, !forallb_true_iff in Hall. by apply Hall.
    + intros key (s & Hs & Hkey)%O7. specialize (Hall s Hs).
      rewrite !andb_true_iff, !forallb_true_iff in Hall. by apply Hall.
Qed.

Lemma observed_valid_aggregate_all alph kk samples :
  Forall (over_alphabet alph) samples →
  observed_valid (aggregate_all samples (global_init alph kk)).
Proof.
  intros Hover. rewrite Forall_forall in Hover.
  set (st0 := global_init alph kk). set (st := aggregate_all samples st0).
  pose proof (same_config_aggregate_all samples st0) as Hcfg. fold st in Hcfg.
  assert (∀ s, s ∈ samples →
    Forall (valid_id st) (keys_src_to_alphabet1 st s) ∧
    Forall (λ key, valid_id st key.1 ∧ valid_id st key.2) (keys_alphabet1_to_alphabet st s) ∧
    Forall (λ key, valid_id st key.1 ∧ valid_id st key.2) (keys_alphabet_to_alphabet st s) ∧
    Forall (valid_id st) (keys_alphabet_to_snk st s) ∧
    Forall (λ key, valid_id st key.1.1 ∧ valid_id st key.1.2 ∧ valid_id st key.2)
      (keys_alphabet1_to_alphabet_imply st s) ∧
    Forall (λ key, valid_id st key.1.1 ∧ valid_id st key.1.2 ∧ valid_id st key.2)
      (keys_alphabet_to_alphabet_imply st s) ∧
    Forall (λ key, valid_id st key.1 ∧ valid_id st key.2) (keys_alphabet_to_snk_imply st s))
    as Hkeys.
  { intros s Hs. apply (keys_valid alph kk st Hcfg s). by apply Hover. }
  unfold observed_valid. repeat split; apply Forall_forall; intros key Hkey.
  all: unfold st in Hkey.
  - apply (observed_aggregate_all src_to_alphabet1_table keys_src_to_alphabet1) in Hkey
      as (s & Hs & Hkey);
      [|intros; apply src_to_alphabet1_table_aggregate
       |intros st1 st2 s' Hi Hk; by destruct (keys_same_table st1 st2 s' Hi Hk) as (? & _)
       |done].
    destruct (Hkeys s Hs) as (K & _). rewrite Forall_forall in K. by apply K.
  - apply (observed_aggregate_all alphabet1_to_alphabet_table keys_alphabet1_to_alphabet)
      in Hkey as (s & Hs & Hkey);
      [|intros; apply alphabet1_to_alphabet_table_aggregate
       |intros st1 st2 s' Hi Hk;
        by destruct (keys_same_table st1 st2 s' Hi Hk) as (_ & _ & ? & _)
       |done].
    destruct (Hkeys s Hs) as (_ & K & _). rewrite Forall_forall in K. by apply K.
  - apply (observed_aggregate_all alphabet_to_alphabet_table keys_alphabet_to_alphabet)
      in Hkey as (s & Hs & Hkey);
      [|intros; apply alphabet_to_alphabet_table_aggregate
       |intros st1 st2 s' Hi Hk;
        by destruct (keys_same_table st1 st2 s' Hi Hk) as (_ & _ & _ & ? & _)
       |done].
    destruct (Hkeys s Hs) as (_ & _ & K & _). rewrite Forall_forall in K. by apply K.
  - apply (observed_aggregate_all alphabet_to_snk_table keys_alphabet_to_snk)
      in Hkey as (s & Hs & Hkey);
      [|intros; apply alphabet_to_snk_table_aggregate
       |intros st1 st2 s' Hi Hk;
        by destruct (keys_same_table st1 st2 s' Hi Hk) as (_ & ? & _)
       |done].
    destruct (Hkeys s Hs) as (_ & _ & _ & K & _). rewrite Forall_forall in K. by apply K.
  - apply (observed_aggregate_all alphabet1_to_alphabet_imply_table
             keys_alphabet1_to_alphabet_imply) in Hkey as (s & Hs & Hkey);
      [|intros; apply alphabet1_to_alphabet_imply_table_aggregate
       |intros st1 st2 s' Hi Hk;
        by destruct (keys_same_table st1 st2 s' Hi Hk) as (_ & _ & _ & _ & _ & ? & _)
       |done].
    destruct (Hkeys s Hs) as (_ & _ & _ & _ & K & _). rewrite Forall_forall in K.
    by apply K.
  - apply (observed_aggregate_all alphabet_to_alphabet_imply_table
             keys_alphabet_to_alphabet_imply) in Hkey as (s & Hs & Hkey);
      [|intros; apply alphabet_to_alphabet_imply_table_aggregate
       |intros st1 st2 s' Hi Hk;
        by destruct (keys_same_table st1 st2 s' Hi Hk) as (_ & _ & _ & _ & _ & _ & ?)
       |done].
    destruct (Hkeys s Hs) as (_ & _ & _ & _ & _ & K & _). rewrite Forall_forall in K.
    by apply K.
  - apply (observed_aggregate_all alphabet_to_snk_imply_table keys_alphabet_to_snk_imply)
      in Hkey as (s & Hs & Hkey);
      [|intros; apply alphabet_to_snk_imply_table_aggregate
       |intros st1 st2 s' Hi Hk;
        by destruct (keys_same_table st1 st2 s' Hi Hk) as (_ & _ & _ & _ & ? & _)
       |done].
    destruct (Hkeys s Hs) as (_ & _ & _ & _ & _ & _ & K). rewrite Forall_forall in K.
    by apply K.
Qed.

(** ** The standalone formula against the keys of the sample *)

Lemma forallb_ext_eq {A} (p q : A → bool) (l : list A) :
  (∀ x, p x = q x) → forallb p l = forallb q l.
Proof. intros Hpq. induction l as [|x l IH]; [done|]. simpl. by rewrite Hpq, IH. Qed.

Section standalone_keys.
Variables (alph : list string) (kk : Z) (st : engine).
Hypothesis Hkk : 1 ≤ kk.
Hypothesis Hcfg : same_config (global_init alph kk) st.
Variable s : list string.
Hypothesis Hs : over_alphabet alph s.

Lemma sat_b_src_key v :
  sat_b_src st v s = sat_first_triple st v (triple_at st s 0).
Proof.
  unfold sat_b_src, sat_first_triple, sat_imply, triple_at,
    _get_alphabet_to_alphabet_imply_list. cbn [fst snd].
  rewrite forallb_fmap. apply forallb_ext_eq. intros j. cbn [fst snd existsb].
  by rewrite orb_false_r.
Qed.

Lemma sat_b_common_key v :
  sat_b_common st v s
  = forallb (sat_interior_triple st v) (triple_at st s <$> py_range 1 (len s - 2)).
Proof. unfold sat_b_common. by rewrite forallb_fmap. Qed.

Lemma sat_b_snk_key v :
  len alph ≠ 2 → len s ≠ 2 →
  sat_b_snk st v s = sat_snk_pair st v (pair_at st s (-2)).
Proof.
  intros Halph Hlen. pose proof (configured_size alph kk st Hcfg) as Hsize.
  unfold sat_b_snk, sat_snk_pair, sat_imply, pair_at,
    _get_alphabet_to_alphabet_imply_list. cbn [fst snd].
  destruct (decide (get_size st + 1 = get_size st + 1)); [|done].
  destruct (decide (get_size st + 1 = 3)); [lia|].
  destruct (decide (len s = 2)); [done|].
  rewrite forallb_fmap. apply forallb_ext_eq. intros j. cbn [fst snd existsb].
  by rewrite orb_false_r.
Qed.

(** When every slot is the canonical one, or when the alphabet does not have
    exactly two symbols and the sample is empty or has at least three
    symbols, the standalone formula of a sample says what its keys say in
    the global constraint. *)
Lemma standalone_sample_sat :
  kk = 1 ∨ (len alph ≠ 2 ∧ (len s = 0 ∨ 3 ≤ len s)) →
  ∃ f, gen_sentence_constraint s true st = (Ok (Some f), st) ∧
    ∀ v, eval v f = sample_sat st v s.
Proof.
  intros Hcase. pose proof (configured_k alph kk st Hcfg) as Hk.
  destruct (sentence_const_a_sat alph kk st Hkk Hcfg s Hs) as (fa & Ea & Va).
  { destruct Hcase as [?|[_ ?]]; [by left|right; lia]. }
  destruct (sentence_const_b_ok alph kk st Hkk Hcfg s Hs) as (fb & Eb & Vb).
  exists (And [fa; fb]). split.
  { unfold gen_sentence_constraint. erewrite bind_ok by exact Ea.
    by erewrite bind_ok by exact Eb. }
  intros v. cbn [eval forallb]. rewrite Va, Vb, andb_true_r.
  unfold sample_sat. rewrite <- !andb_assoc. do 4 f_equal.
  unfold keys_alphabet1_to_alphabet_imply, keys_alphabet_to_alphabet_imply,
    keys_alphabet_to_snk_imply.
  destruct (decide (k st ≤ 1)) as [Hk1|Hk1].
  { by rewrite decide_True by (by left). }
  destruct Hcase as [?|[Halph Hlen]]; [lia|].
  destruct (decide (len s > 2)) as [H2|H2].
  - destruct (decide (k st ≤ 1 ∨ len s ≤ 1)); [lia|].
    destruct (decide (len s > 1)); [|lia].
    cbn [forallb]. rewrite !andb_true_r, andb_assoc.
    by rewrite sat_b_src_key, sat_b_common_key, sat_b_snk_key by lia.
  - destruct (decide (k st ≤ 1 ∨ len s ≤ 1)); [|lia].
    destruct (decide (len s > 1)); [lia|]. done.
Qed.
End standalone_keys.

(** ** Aggregation of the positive samples against the standalone formulas *)

Section aggregation.
Variables (alph : list string) (kk : Z).
Hypothesis Hkk : 1 ≤ kk.
Variable samples : list (list string).
Hypothesis Hsamples : Forall (over_alphabet alph) samples.

Lemma aggregate_positive_global_init :
  aggregate_positive samples (global_init alph kk)
  = (Ok (), aggregate_all samples (global_init alph kk)).
Proof.
  apply aggregate_positive_ok.
  - eapply Forall_impl; [exact Hsamples|]. intros s Hs.
    by apply (known_over_alphabet alph kk _ (same_config_refl _)).
  - rewrite var_global_init_0. eauto.
Qed.

Lemma global_formula_samples :
  ∃ g, generate_global_constraint (aggregate_all samples (global_init alph kk)) = Ok g ∧
    ∀ v, eval v g = true
         ↔ ∀ s, s ∈ samples →
             sample_sat (aggregate_all samples (global_init alph kk)) v s = true.
Proof.
  destruct (generate_global_constraint_sat alph kk
              (aggregate_all samples (global_init alph kk)) Hkk
              (same_config_aggregate_all _ _)
              (observed_valid_aggregate_all alph kk samples Hsamples)) as (g & Eg & Vg).
  exists g. split; [done|]. intros v. rewrite Vg. apply global_sat_samples.
Qed.

Lemma standalone_formulas (st : engine) (l : list (list string)) :
  same_config (global_init alph kk) st →
  Forall (over_alphabet alph) l →
  Forall (λ s, kk = 1 ∨ (len alph ≠ 2 ∧ (len s = 0 ∨ 3 ≤ len s))) l →
  ∃ fs, Forall2 (λ s f, gen_sentence_constraint s true st = (Ok (Some f), st) ∧
                        ∀ v, eval v f = sample_sat st v s) l fs.
Proof.
  intros Hcfg Hl Hcase. induction l as [|s l IH]; [by exists []|].
  apply Forall_cons in Hl as [Hs Hl]. apply Forall_cons in Hcase as [Hc Hcase].
  destruct (IH Hl Hcase) as (fs & Hfs).
  destruct (standalone_sample_sat alph kk st Hkk Hcfg s Hs Hc) as (f & Ef & Vf).
  exists (f :: fs). by constructor.
Qed.
End aggregation.

(** ** The global constraint of a list of positive samples *)

Lemma equivalent_same_models f g :
  (∀ v, eval v f = true ↔ eval v g = true) → equivalent f g.
Proof. intros H v. apply eq_true_iff_eq, H. Qed.

(** X13: the global constraint depends on the set of positive samples only.
    Two lists of samples over the alphabet with the same elements, in any
    order and with any repetitions, are both aggregated without an error
    from a fresh engine, and the two global formulas are logically
    equivalent. *)
Theorem global_constraint_order_insensitive alph kk l1 l2 :
  1 ≤ kk → Forall (over_alphabet alph) l1 → Forall (over_alphabet alph) l2 →
  (∀ s, s ∈ l1 ↔ s ∈ l2) →
  ∃ st1 st2 g1 g2,
    aggregate_positive l1 (global_init alph kk) = (Ok (), st1) ∧
    aggregate_positive l2 (global_init alph kk) = (Ok (), st2) ∧
    generate_global_constraint st1 = Ok g1 ∧
    generate_global_constraint st2 = Ok g2 ∧
    equivalent g1 g2.
Proof.
  intros Hkk H1 H2 Hsame.
  destruct (global_formula_samples alph kk Hkk l1 H1) as (g1 & E1 & V1).
  destruct (global_formula_samples alph kk Hkk l2 H2) as (g2 & E2 & V2).
  exists (aggregate_all l1 (global_init alph kk)), (aggregate_all l2 (global_init alph kk)),
    g1, g2.
  split; [by apply aggregate_positive_global_init|].
  split; [by apply aggregate_positive_global_init|].
  split; [done|]. split; [done|].
  apply equivalent_same_models. intros v. rewrite V1, V2.
  assert (∀ s, sample_sat (aggregate_all l1 (global_init alph kk)) v s
               = sample_sat (aggregate_all l2 (global_init alph kk)) v s) as Hst.
  { intros s.
    rewrite (sample_sat_same_config (global_init alph kk) (aggregate_all l1 _))
      by apply same_config_aggregate_all.
    by rewrite (sample_sat_same_config (global_init alph kk) (aggregate_all l2 _))
      by apply same_config_aggregate_all. }
  split; intros H s Hs; [rewrite <- Hst|rewrite Hst]; apply H; by apply Hsame.
Qed.

Lemma global_constraint_order_insensitive_witness :
  ∃ st1 st2 g1 g2,
    aggregate_positive [["a"; "b"]; ["b"]; ["a"; "b"]] (global_init ["a"; "b"] 2)
      = (Ok (), st1) ∧
    aggregate_positive [["b"]; ["a"; "b"]] (global_init ["a"; "b"] 2) = (Ok (), st2) ∧
    generate_global_constraint st1 = Ok g1 ∧
    generate_global_constraint st2 = Ok g2 ∧
    equivalent g1 g2.
Proof.
  apply (global_constraint_order_insensitive ["a"; "b"] 2).
  - lia.
  - unfold over_alphabet. apply (bool_decide_unpack _). by vm_compute.
  - unfold over_alphabet. apply (bool_decide_unpack _). by vm_compute.
  - intros s. rewrite !elem_of_cons, !elem_of_nil. tauto.
Defined.

(** X14: aggregation equivalence without the one-symbol and two-symbol
    exceptions.  When [k = 1], or when the alphabet does not have exactly two
    symbols and every positive sample is empty or has at least three symbols,
    the global formula of the aggregated tables is logically equivalent to
    the conjunction of the standalone formulas of the samples. *)
Theorem aggregation_equivalence_long_samples alph kk samples :
  1 ≤ kk → Forall (over_alphabet alph) samples →
  kk = 1 ∨ (len alph ≠ 2 ∧ Forall (λ s, len s = 0 ∨ 3 ≤ len s) samples) →
  ∃ st g fs,
    aggregate_positive samples (global_init alph kk) = (Ok (), st) ∧
    generate_global_constraint st = Ok g ∧
    Forall2 (λ s f, gen_sentence_constraint s true st = (Ok (Some f), st)) samples fs ∧
    equivalent g (And fs).
Proof.
  intros Hkk Hover Hcase.
  set (st := aggregate_all samples (global_init alph kk)).
  destruct (global_formula_samples alph kk Hkk samples Hover) as (g & Eg & Vg).
  destruct (standalone_formulas alph kk Hkk st samples) as (fs & Hfs).
  { apply same_config_aggregate_all. }
  { done. }
  { destruct Hcase as [?|[Halph Hlen]]; [apply Forall_forall; by left|].
    eapply Forall_impl; [exact Hlen|]. intros s Hs. by right. }
  exists st, g, fs. split; [by apply aggregate_positive_global_init|].
  split; [done|]. split.
  { eapply Forall2_impl; [exact Hfs|]. by intros s f [? _]. }
  apply equivalent_same_models. intros v. rewrite Vg. fold st. cbn [eval].
  rewrite (forallb_eval_Forall2 (sample_sat st v) v samples fs)
    by (eapply Forall2_impl; [exact Hfs|]; intros s f [_ Hf]; apply Hf).
  by rewrite forallb_true_iff.
Qed.

Lemma aggregation_equivalence_long_samples_witness :
  ∃ st g fs,
    aggregate_positive [["a"; "b"; "c"]; []; ["c"; "c"; "a"; "b"]]
      (global_init ["a"; "b"; "c"] 2) = (Ok (), st) ∧
    generate_global_constraint st = Ok g ∧
    Forall2 (λ s f, gen_sentence_constraint s true st = (Ok (Some f), st))
      [["a"; "b"; "c"]; []; ["c"; "c"; "a"; "b"]] fs ∧
    equivalent g (And fs).
Proof.
  apply (aggregation_equivalence_long_samples ["a"; "b"; "c"] 2).
  - lia.
  - unfold over_alphabet. apply (bool_decide_unpack _). by vm_compute.
  - right. split; [by vm_compute|].
    repeat constructor; unfold len; cbn [length]; lia.
Defined.

(** ** Models of the global constraint and the positive samples *)

Section global_models.
Variables (alph : list string) (kk : Z) (st : engine).
Hypothesis Hkk : 1 ≤ kk.
Hypothesis Hcfg : same_config (global_init alph kk) st.
Variable s : list string.
Hypothesis Hs : over_alphabet alph s.
Variable v : Z → bool.

(** For a two-symbol sample the key of the pair before [snk] says at least
    what the standalone formula says. *)
Lemma sat_b_snk_of_key :
  len s = 2 → sat_snk_pair st v (pair_at st s (-2)) = true → sat_b_snk st v s = true.
Proof.
  intros Hlen. pose proof (configured_k alph kk st Hcfg) as Hk.
  unfold sat_b_snk, sat_snk_pair, sat_imply, pair_at,
    _get_alphabet_to_alphabet_imply_list. cbn [fst snd].
  destruct (decide (get_size st + 1 = get_size st + 1)); [|done].
  destruct (decide (len s = 2)); [|done].
  rewrite forallb_fmap, !forallb_slots. intros Hsat j Hj. specialize (Hsat j Hj).
  cbn [fst snd existsb] in Hsat. rewrite orb_false_r in Hsat.
  change (-2 + 1) with (-1) in Hsat.
  destruct (v (_quadruple_to_idx st (ident st s (-2)) 1 (ident st s (-1)) j)) eqn:Hpre;
    [|done].
  destruct (decide (get_size st + 1 = 3)).
  - cbn [existsb] in Hsat. by rewrite Hpre in Hsat.
  - assert (existsb v
      ((λ k1, _quadruple_to_idx st (ident st s (-2)) k1 (ident st s (-1)) j)
         <$> py_range 1 (k st + 1)) = true) as Hex.
    { apply existsb_slots. exists 1. split; [lia|done]. }
    by rewrite Hex in Hsat.
Qed.

Lemma accepting_path_of_keys :
  len s ≠ 0 →
  kk = 1 ∨ len s = 2 ∨ (3 ≤ len s ∧ len alph ≠ 2) →
  sample_sat st v s = true → ∃ slot, accepting_path st v s slot.
Proof.
  intros Hlen Hcase Hsat. pose proof (configured_k alph kk st Hcfg) as Hk.
  unfold sample_sat in Hsat. rewrite !andb_true_iff in Hsat.
  destruct Hsat as ((((((A1 & A2) & A3) & A4) & B1) & B2) & B3).
  apply (accepting_path_of_sat alph kk st Hkk Hcfg s Hs v Hlen).
  - rewrite A1, A2, A3. cbn [andb].
    destruct (decide (len s = 1)) as [L1|L1]; [|done].
    rewrite (snk_part_one_slot alph kk st Hkk Hcfg s Hs v L1); [done|lia].
  - destruct (decide (k st ≤ 1 ∨ len s ≤ 1)) as [|Hb]; [done|].
    revert B1 B2 B3.
    unfold keys_alphabet1_to_alphabet_imply, keys_alphabet_to_alphabet_imply,
      keys_alphabet_to_snk_imply.
    destruct (decide (k st ≤ 1)); [lia|]. destruct (decide (len s > 1)); [|lia].
    destruct (decide (len s > 2)) as [L2|L2]; cbn [forallb]; rewrite ?andb_true_r;
      intros B1 B2 B3.
    + rewrite sat_b_src_key, sat_b_common_key, B1, B2. cbn [andb].
      rewrite (sat_b_snk_key alph kk st Hcfg); [done|lia|lia].
    + cbn [andb]. apply sat_b_snk_of_key; [lia|done].
Qed.

Lemma standalone_accepts :
  len s ≠ 0 →
  ∃ f, gen_sentence_constraint s true st = (Ok (Some f), st) ∧
    (eval v f = true → ∃ slot, accepting_path st v s slot).
Proof.
  intros Hlen.
  destruct (sentence_const_a_ok alph kk st Hkk Hcfg s Hs) as (fa & Ea & Va).
  destruct (sentence_const_b_ok alph kk st Hkk Hcfg s Hs) as (fb & Eb & Vb).
  exists (And [fa; fb]). split.
  - unfold gen_sentence_constraint.
    erewrite bind_ok by exact Ea. by erewrite bind_ok by exact Eb.
  - intros Hv. cbn [eval forallb] in Hv. rewrite andb_true_r in Hv.
    apply andb_true_iff in Hv as [Hva Hvb]. rewrite Va in Hva. rewrite Vb in Hvb.
    by apply (accepting_path_of_sat alph kk st Hkk Hcfg s Hs v).
Qed.
End global_models.

(** X15: the automata the global constraint allows accept the positive
    samples.  After the samples have been aggregated, every assignment that
    satisfies the global formula describes an automaton with an accepting
    path for each positive sample that has two symbols, or at least three
    symbols when the alphabet does not have exactly two, and for every
    non-empty sample when [k = 1]. *)
Theorem global_models_accept_positive alph kk samples :
  1 ≤ kk → Forall (over_alphabet alph) samples →
  ∃ st g,
    aggregate_positive samples (global_init alph kk) = (Ok (), st) ∧
    generate_global_constraint st = Ok g ∧
    ∀ v, eval v g = true →
      ∀ s, s ∈ samples → len s ≠ 0 →
        kk = 1 ∨ len s = 2 ∨ (3 ≤ len s ∧ len alph ≠ 2) →
        ∃ slot, accepting_path st v s slot.
Proof.
  intros Hkk Hover.
  destruct (global_formula_samples alph kk Hkk samples Hover) as (g & Eg & Vg).
  exists (aggregate_all samples (global_init alph kk)), g.
  split; [by apply aggregate_positive_global_init|]. split; [done|].
  intros v Hv s Hs Hlen Hcase. rewrite Forall_forall in Hover.
  apply (accepting_path_of_keys alph kk _ Hkk (same_config_aggregate_all _ _) s);
    [by apply Hover|done|done|].
  by apply Vg.
Qed.

Lemma global_models_accept_positive_witness :
  ∃ st g,
    aggregate_positive [["a"; "b"]; ["b"; "a"; "a"]] (global_init ["a"; "b"; "c"] 2)
      = (Ok (), st) ∧
    generate_global_constraint st = Ok g ∧
    ∀ v, eval v g = true →
      ∀ s, s ∈ [["a"; "b"]; ["b"; "a"; "a"]] → len s ≠ 0 →
        2 = 1 ∨ len s = 2 ∨ (3 ≤ len s ∧ len ["a"; "b"; "c"] ≠ 2) →
        ∃ slot, accepting_path st v s slot.
Proof.
  apply (global_models_accept_positive ["a"; "b"; "c"] 2).
  - lia.
  - unfold over_alphabet. apply (bool_decide_unpack _). by vm_compute.
Defined.

(** ** The formula handed to the solver *)

Lemma M_mapM_Forall2 {A B} (f : A → M B) (Q : A → B → Prop) (l : list A) st :
  Forall (λ x, ∃ y, f x st = (Ok y, st) ∧ Q x y) l →
  ∃ ys, M_mapM f l st = (Ok ys, st) ∧ Forall2 Q l ys.
Proof.
  induction 1 as [|x l (y & Hy & HQ) _ (ys & Hys & HF)]; cbn [M_mapM].
  - by exists [].
  - exists (y :: ys). erewrite bind_ok by exact Hy. erewrite bind_ok by exact Hys.
    split; [done|]. by constructor.
Qed.

Lemma Forall2_negated {A} (P : A → formula → Prop) (l : list A) (nfs : list formula) :
  Forall2 (λ s nf, ∃ f, nf = Not f ∧ P s f) l nfs →
  ∃ negs, nfs = Not <$> negs ∧ Forall2 P l negs.
Proof.
  induction 1 as [|s nf l nfs (f & -> & Hf) _ (negs & -> & IH)].
  - by exists [].
  - exists (f :: negs). split; [done|]. by constructor.
Qed.

Lemma deterministic_same_config st st' v :
  same_config st st' → deterministic st v → deterministic st' v.
Proof.
  intros (Ha & Hk & _ & Hi).
  unfold deterministic, lookup_id, _quadruple_to_idx, get_number, get_size.
  by rewrite Ha, Hk, Hi.
Qed.

Section solver_formula.
Variables (alph : list string) (kk : Z).
Hypothesis Hkk : 1 ≤ kk.
Variables sen_pos sen_neg : list (list string).
Hypothesis Hpos : Forall (over_alphabet alph) sen_pos.
Hypothesis Hneg : Forall (over_alphabet alph) sen_neg.

Lemma generate_fomula_ok :
  ∃ d g negs,
    generate_fomula sen_pos sen_neg (global_init alph kk)
    = (Ok (And [d; g; And (BoolVal true :: (Not <$> negs))]),
       aggregate_all sen_pos (global_init alph kk)) ∧
    (∀ v, eval v d = true ↔ deterministic (global_init alph kk) v) ∧
    (∀ v, eval v g = true
          ↔ ∀ s, s ∈ sen_pos →
              sample_sat (aggregate_all sen_pos (global_init alph kk)) v s = true) ∧
    Forall2 (λ s f, gen_sentence_constraint s true
                      (aggregate_all sen_pos (global_init alph kk))
                    = (Ok (Some f), aggregate_all sen_pos (global_init alph kk)))
      sen_neg negs.
Proof.
  set (st0 := global_init alph kk). set (st := aggregate_all sen_pos st0).
  destruct (deterministic_formula_any_k alph kk st0 Hkk (same_config_refl _))
    as (d & Ed & Vd).
  destruct (global_formula_samples alph kk Hkk sen_pos Hpos) as (g & Eg & Vg).
  destruct (M_mapM_Forall2
    (λ s, st_const ← gen_sentence_constraint s true;
          match st_const with
          | Some f => mret (Not f)
          | None => raise Z3Exception
          end)
    (λ s nf, ∃ f, nf = Not f ∧ gen_sentence_constraint s true st = (Ok (Some f), st))
    sen_neg st) as (nfs & En & Hn).
  { eapply Forall_impl; [exact Hneg|]. intros s Hs.
    destruct (gen_sentence_constraint_ext_ok alph kk st Hkk
                (same_config_aggregate_all _ _) s Hs) as (fa & fb & E & _).
    exists (Not (And [fa; fb])). split; [by erewrite bind_ok by exact E|]. eauto. }
  assert (∃ negs, nfs = Not <$> negs ∧
    Forall2 (λ s f, gen_sentence_constraint s true st = (Ok (Some f), st)) sen_neg negs)
    as (negs & -> & Hnegs).
  { by apply Forall2_negated. }
  exists d, g, negs. split; [|done].
  subst st st0. unfold generate_fomula.
  erewrite bind_ok by (unfold reads; by rewrite Ed).
  erewrite bind_ok by (by apply aggregate_positive_global_init).
  erewrite bind_ok by (unfold reads; by rewrite Eg).
  by erewrite bind_ok by exact En.
Qed.
End solver_formula.

(** X16: the formula [generate_fomula] hands to the solver.  For positive and
    negative samples over the alphabet and [k ≥ 1] it is always produced, and
    its models are exactly the assignments that describe a deterministic
    automaton, satisfy what the keys of every positive sample say, and
    falsify the standalone formula of every negative sample. *)
Theorem generate_fomula_models alph kk sen_pos sen_neg :
  1 ≤ kk → Forall (over_alphabet alph) sen_pos → Forall (over_alphabet alph) sen_neg →
  ∃ f st negs,
    generate_fomula sen_pos sen_neg (global_init alph kk) = (Ok f, st) ∧
    Forall2 (λ s n, gen_sentence_constraint s true st = (Ok (Some n), st)) sen_neg negs ∧
    ∀ v, eval v f = true
         ↔ deterministic st v
           ∧ (∀ s, s ∈ sen_pos → sample_sat st v s = true)
           ∧ (∀ n, n ∈ negs → eval v n = false).
Proof.
  intros Hkk Hpos Hneg.
  destruct (generate_fomula_ok alph kk Hkk sen_pos sen_neg Hpos Hneg)
    as (d & g & negs & E & Vd & Vg & Hn).
  eexists _, _, negs. split; [exact E|]. split; [done|]. intros v.
  cbn [eval forallb]. rewrite !andb_true_r, !andb_true_iff, Vd, Vg.
  rewrite forallb_fmap, forallb_true_iff.
  assert (deterministic (global_init alph kk) v
          ↔ deterministic (aggregate_all sen_pos (global_init alph kk)) v) as ->.
  { split; apply deterministic_same_config.
    - apply same_config_aggregate_all.
    - destruct (same_config_aggregate_all sen_pos (global_init alph kk))
        as (?&?&?&?). by repeat split. }
  split.
  - intros (? & ? & _ & Hall). split; [done|]. split; [done|]. intros n Hn'.
    specialize (Hall n Hn'). cbn [eval] in Hall. by apply negb_true_iff.
  - intros (? & ? & Hall). split; [done|]. split; [done|]. split; [done|].
    intros n Hn'. cbn [eval]. apply negb_true_iff. by apply Hall.
Qed.

Lemma generate_fomula_models_witness :
  ∃ f st negs,
    generate_fomula [["a"; "b"]; ["a"; "b"; "b"]] [["b"]; ["b"; "a"]]
      (global_init ["a"; "b"] 2) = (Ok f, st) ∧
    Forall2 (λ s n, gen_sentence_constraint s true st = (Ok (Some n), st))
      [["b"]; ["b"; "a"]] negs ∧
    ∀ v, eval v f = true
         ↔ deterministic st v
           ∧ (∀ s, s ∈ [["a"; "b"]; ["a"; "b"; "b"]] → sample_sat st v s = true)
           ∧ (∀ n, n ∈ negs → eval v n = false).
Proof.
  apply (generate_fomula_models ["a"; "b"] 2).
  - lia.
  - unfold over_alphabet. apply (bool_decide_unpack _). by vm_compute.
  - unfold over_alphabet. apply (bool_decide_unpack _). by vm_compute.
Defined.

(** X17: a sample given both as positive and as negative makes the problem
    unsatisfiable.  When [k = 1], or when the alphabet does not have exactly
    two symbols and the sample is empty or has at least three symbols, the
    formula [generate_fomula] returns has no model. *)
Theorem contradictory_samples_unsat alph kk sen_pos sen_neg s :
  1 ≤ kk → Forall (over_alphabet alph) sen_pos → Forall (over_alphabet alph) sen_neg →
  s ∈ sen_pos → s ∈ sen_neg →
  kk = 1 ∨ (len alph ≠ 2 ∧ (len s = 0 ∨ 3 ≤ len s)) →
  ∃ f st,
    generate_fomula sen_pos sen_neg (global_init alph kk) = (Ok f, st) ∧
    ∀ v, eval v f = false.
Proof.
  intros Hkk Hpos Hneg Hsp Hsn Hcase.
  destruct (generate_fomula_ok alph kk Hkk sen_pos sen_neg Hpos Hneg)
    as (d & g & negs & E & Vd & Vg & Hn).
  eexists _, _. split; [exact E|]. intros v.
  apply not_true_is_false. cbn [eval forallb].
  rewrite !andb_true_r, !andb_true_iff, Vg, forallb_fmap, forallb_true_iff.
  intros (_ & Hall & _ & Hnone).
  set (st := aggregate_all sen_pos (global_init alph kk)) in *.
  rewrite Forall_forall in Hneg.
  destruct (standalone_sample_sat alph kk st Hkk (same_config_aggregate_all _ _) s
              (Hneg s Hsn) Hcase) as (f & Ef & Vf).
  apply list_elem_of_lookup in Hsn as (i & Hi).
  destruct (Forall2_lookup_l _ _ _ _ _ Hn Hi) as (n & Hni & En).
  assert (n = f) as -> by congruence.
  specialize (Hnone f ltac:(by eapply list_elem_of_lookup_2)). cbn [eval] in Hnone.
  rewrite Vf, (Hall s Hsp) in Hnone. done.
Qed.

Lemma contradictory_samples_unsat_witness :
  ∃ f st,
    generate_fomula [["a"; "b"; "c"]; ["c"; "a"; "a"; "b"]] [["b"]; ["c"; "a"; "a"; "b"]]
      (global_init ["a"; "b"; "c"] 2) = (Ok f, st) ∧
    ∀ v, eval v f = false.
Proof.
  apply (contradictory_samples_unsat ["a"; "b"; "c"] 2 _ _ ["c"; "a"; "a"; "b"]).
  - lia.
  - unfold over_alphabet. apply (bool_decide_unpack _). by vm_compute.
  - unfold over_alphabet. apply (bool_decide_unpack _). by vm_compute.
  - rewrite !elem_of_cons. tauto.
  - rewrite !elem_of_cons. tauto.
  - right. split; [by vm_compute|]. right. by vm_compute.
Defined.

(** ** A symbol without an id *)

Lemma sentence_id_dichotomy st s i :
  - len s ≤ i < len s →
  (∃ x, sentence_id st s i = Ok x) ∨ sentence_id st s i = Raise KeyError.
Proof.
  intros Hi. destruct (py_index_in_range s i Hi) as (ch & Hch & _).
  unfold sentence_id, lookup_id. rewrite Hch. cbn [mbind res_bind].
  destruct (id_table st !! ch); eauto.
Qed.

Lemma known_of_ids st s :
  (∀ i, 0 ≤ i < len s → ∃ x, sentence_id st s i = Ok x) → known st s.
Proof.
  intros Hall. apply Forall_lookup. intros n ch Hn.
  pose proof (lookup_lt_Some _ _ _ Hn) as Hlt.
  destruct (Hall (Z.of_nat n)) as [x Hx]; [unfold len; lia|].
  unfold sentence_id in Hx.
  rewrite (py_index_nonneg s (Z.of_nat n) ch) in Hx; [|lia|by rewrite Nat2Z.id].
  cbn [mbind res_bind] in Hx. unfold lookup_id in Hx.
  destruct (id_table st !! ch); [eauto|done].
Qed.

Lemma read_id_cases st0 s i st :
  id_table st = id_table st0 → - len s ≤ i < len s →
  (∃ x, sentence_id st0 s i = Ok x ∧ reads (λ st, sentence_id st s i) st = (Ok x, st)) ∨
  reads (λ st, sentence_id st s i) st = (Raise KeyError, st).
Proof.
  intros Ht Hi. unfold reads. rewrite (sentence_id_same_table st0 st s i Ht).
  destruct (sentence_id_dichotomy st0 s i Hi) as [(x & ->) | ->]; eauto.
Qed.

Lemma pair_loop_outcome st0 s (n : nat) a st :
  id_table st = id_table st0 → 1 ≤ a → a + Z.of_nat n ≤ len s - 1 →
  (∃ st', id_table st' = id_table st0 ∧
     M_for (py_range a (a + Z.of_nat n)) (λ i,
       id1 ← reads (λ st, sentence_id st s i);
       id2 ← reads (λ st, sentence_id st s (i + 1));
       on_alphabet_to_alphabet_table (bump (id1, id2))) st = (Ok (), st') ∧
     ∀ i, a ≤ i < a + Z.of_nat n → ∃ x, sentence_id st0 s (i + 1) = Ok x) ∨
  (∃ st', M_for (py_range a (a + Z.of_nat n)) (λ i,
       id1 ← reads (λ st, sentence_id st s i);
       id2 ← reads (λ st, sentence_id st s (i + 1));
       on_alphabet_to_alphabet_table (bump (id1, id2))) st = (Raise KeyError, st')).
Proof.
  revert a st. induction n as [|n IH]; intros a st Ht Ha Hb.
  { left. exists st. rewrite py_range_empty by lia. split; [done|].
    split; [done|]. intros; lia. }
  rewrite py_range_cons by lia. cbn [M_for].
  destruct (read_id_cases st0 s a st Ht ltac:(lia)) as [(x1 & _ & E1)|E1]; last first.
  { right. eexists. apply bind_raise. apply bind_raise. exact E1. }
  destruct (read_id_cases st0 s (a + 1) st Ht ltac:(lia)) as [(x2 & H2 & E2)|E2];
    last first.
  { right. eexists. apply bind_raise. erewrite bind_ok by exact E1.
    apply bind_raise. exact E2. }
  erewrite bind_ok; last first.
  { erewrite bind_ok by exact E1. erewrite bind_ok by exact E2.
    unfold on_alphabet_to_alphabet_table. rewrite bump_ok. reflexivity. }
  cbn [fst snd].
  replace (a + Z.of_nat (S n)) with (a + 1 + Z.of_nat n) by lia.
  destruct (IH (a + 1)
    (set_alphabet_to_alphabet_table (dict_bump (x1, x2) (alphabet_to_alphabet_table st)) st))
    as [(st' & Ht' & E & Hids)|(st' & E)]; [done|lia|lia| |].
  - left. exists st'. split; [done|]. split; [done|]. intros i Hi.
    destruct (decide (i = a)) as [->|]; [eauto|]. apply Hids. lia.
  - right. eauto.
Qed.

(** The aggregation of Part a either runs to its end, on a sentence whose
    symbols all have ids, or raises [KeyError]. *)
Lemma gen_sentence_constraint_a_outcome st s :
  len s ≠ 0 →
  (∃ st', _gen_sentence_constraint_a s false st = (Ok None, st') ∧ known st s) ∨
  (∃ st', _gen_sentence_constraint_a s false st = (Raise KeyError, st')).
Proof.
  intros Hlen. assert (0 ≤ len s) by (unfold len; lia).
  unfold _gen_sentence_constraint_a. cbv zeta.
  destruct (read_id_cases st s 0 st eq_refl ltac:(lia)) as [(x0 & H0 & E0)|E0];
    last first.
  { right. eexists. apply bind_raise. exact E0. }
  erewrite bind_ok by exact E0.
  erewrite bind_ok by (unfold on_src_to_alphabet1_table; rewrite bump_ok; reflexivity).
  cbn [fst snd].
  set (st1 := set_src_to_alphabet1_table _ st).
  destruct (read_id_cases st s (-1) st1 eq_refl ltac:(lia)) as [(xl & Hl & El)|El];
    last first.
  { right. eexists. apply bind_raise. exact El. }
  erewrite bind_ok by exact El.
  erewrite bind_ok by (unfold on_alphabet_to_snk_table; rewrite bump_ok; reflexivity).
  cbn [fst snd].
  set (st2 := set_alphabet_to_snk_table _ st1).
  destruct (decide (len s > 1)) as [L1|L1]; last first.
  { rewrite decide_False by lia. left. eexists. split; [reflexivity|].
    apply known_of_ids. intros i Hi. assert (i = 0) as -> by lia. eauto. }
  destruct (read_id_cases st s 0 st2 eq_refl ltac:(lia)) as [(y0 & _ & F0)|F0];
    last first.
  { right. eexists. apply bind_raise. apply bind_raise. exact F0. }
  destruct (read_id_cases st s 1 st2 eq_refl ltac:(lia)) as [(x1 & H1 & E1)|E1];
    last first.
  { right. eexists. apply bind_raise. erewrite bind_ok by exact F0.
    apply bind_raise. exact E1. }
  erewrite bind_ok; last first.
  { erewrite bind_ok by exact F0. erewrite bind_ok by exact E1.
    unfold on_alphabet1_to_alphabet_table. rewrite bump_ok. reflexivity. }
  cbn [fst snd].
  set (st3 := set_alphabet1_to_alphabet_table _ st2).
  destruct (decide (len s > 2)) as [L2|L2]; last first.
  { left. eexists. split; [reflexivity|].
    apply known_of_ids. intros i Hi.
    destruct (decide (i = 0)) as [->|]; [eauto|]. assert (i = 1) as -> by lia. eauto. }
  destruct (pair_loop_outcome st s (Z.to_nat (len s - 2)) 1 st3 eq_refl ltac:(lia)
              ltac:(lia)) as [(st' & _ & E & Hids)|(st' & E)].
  - replace (1 + Z.of_nat (Z.to_nat (len s - 2))) with (len s - 1) in * by lia.
    left. exists st'. split; [by erewrite bind_ok by exact E|].
    apply known_of_ids. intros i Hi.
    destruct (decide (i = 0)) as [->|]; [eauto|].
    destruct (decide (i = 1)) as [->|]; [eauto|].
    destruct (Hids (i - 1) ltac:(lia)) as [x Hx].
    replace (i - 1 + 1) with i in Hx by lia. eauto.
  - replace (1 + Z.of_nat (Z.to_nat (len s - 2))) with (len s - 1) in * by lia.
    right. exists st'. by apply bind_raise.
Qed.

Lemma unknown_symbol_outcome st s ch :
  ch ∈ s → id_table st !! ch = None →
  ∃ st', gen_sentence_constraint s false st = (Raise KeyError, st').
Proof.
  intros Hin Hnone.
  assert (len s ≠ 0) as Hlen.
  { destruct s; [by apply elem_of_nil in Hin|]. unfold len. cbn [length]. lia. }
  destruct (gen_sentence_constraint_a_outcome st s Hlen) as [(st' & _ & Hk)|(st' & E)].
  - unfold known in Hk. rewrite Forall_forall in Hk.
    destruct (Hk ch Hin) as [x Hx]. congruence.
  - exists st'. unfold gen_sentence_constraint. apply bind_raise.
    unfold sentence_const_a. by rewrite decide_False by done.
Qed.

(** X18: a symbol without an id.  Whatever the engine holds, aggregating a
    sample with a symbol that is missing from [id_table] raises [KeyError];
    the configuration of the engine is kept, the tables may already have
    been updated. *)
Theorem unknown_symbol_raises st s ch :
  ch ∈ s → id_table st !! ch = None →
  ∃ st', gen_sentence_constraint s false st = (Raise KeyError, st') ∧ same_config st st'.
Proof.
  intros Hin Hnone. destruct (unknown_symbol_outcome st s ch Hin Hnone) as [st' E].
  exists st'. split; [done|].
  pose proof (keeps_config_gen_sentence_constraint s false st) as Hc.
  by rewrite E in Hc.
Qed.

Lemma unknown_symbol_raises_witness :
  ∃ st', gen_sentence_constraint ["a"; "c"; "b"] false (global_init ["a"; "b"] 2)
         = (Raise KeyError, st') ∧ same_config (global_init ["a"; "b"] 2) st'.
Proof.
  apply (unknown_symbol_raises (global_init ["a"; "b"] 2) ["a"; "c"; "b"] "c").
  - rewrite !elem_of_cons. tauto.
  - by vm_compute.
Defined.

Lemma id_table_global_init_None alph kk ch :
  ch ∉ alph → ch ≠ "src" → ch ≠ "snk" → id_table (global_init alph kk) !! ch = None.
Proof.
  intros Hch Hsrc Hsnk. unfold global_init, gen_var_list, gen_id_table.
  cbn [id_table alphabet]. rewrite insert_enumerate_fresh by done.
  by rewrite !lookup_insert_ne by done.
Qed.

Lemma aggregate_positive_raises sen_pos st s ch :
  (∃ f, var st 0 = Ok f) →
  s ∈ sen_pos → ch ∈ s → id_table st !! ch = None →
  ∃ st', aggregate_positive sen_pos st = (Raise KeyError, st') ∧ same_config st st'.
Proof.
  revert st. induction sen_pos as [|s0 l IH]; intros st Hvar Hs Hch Hnone.
  { by apply elem_of_nil in Hs. }
  unfold aggregate_positive. cbn [M_for].
  destruct (decide (Forall (λ ch, is_Some (id_table st !! ch)) s0)) as [Hk|Hk].
  - erewrite bind_ok; last first.
    { erewrite bind_ok; [reflexivity|].
      apply gen_sentence_constraint_aggregates; [done|]. by intros _. }
    destruct (same_config_aggregate st s0) as (Ha & Hkk & Hv & Hi).
    destruct (IH (aggregate s0 st)) as (st' & E & Hc).
    + unfold var in *. by rewrite Hv.
    + apply elem_of_cons in Hs as [->|Hs]; [|done].
      rewrite Forall_forall in Hk.
      destruct (Hk ch Hch) as [x Hx]. congruence.
    + done.
    + by rewrite Hi.
    + exists st'. split; [exact E|].
      eapply same_config_trans; [apply (same_config_aggregate st s0)|done].
  - apply not_Forall_Exists in Hk; [|intros ch'; apply _].
    apply Exists_exists in Hk as (ch' & Hin' & Hnot).
    destruct (unknown_symbol_outcome st s0 ch' Hin') as (st' & E).
    { destruct (id_table st !! ch') eqn:El; [|done]. destruct Hnot. eauto. }
    exists st'. split; [apply bind_raise; apply bind_raise; exact E|].
    pose proof (keeps_config_gen_sentence_constraint s0 false st) as Hc.
    by rewrite E in Hc.
Qed.

(** X19: a positive sample outside the alphabet.  When some positive sample
    has a symbol that is not in the configured alphabet and is not spelled
    [src] or [snk], [generate_fomula] raises [KeyError] while it aggregates
    the positive samples, whatever the other samples are. *)
Theorem generate_fomula_unknown_symbol alph kk sen_pos sen_neg s ch :
  1 ≤ kk → s ∈ sen_pos → ch ∈ s → ch ∉ alph → ch ≠ "src" → ch ≠ "snk" →
  ∃ st', generate_fomula sen_pos sen_neg (global_init alph kk) = (Raise KeyError, st') ∧
         same_config (global_init alph kk) st'.
Proof.
  intros Hkk Hs Hch Halph Hsrc Hsnk.
  destruct (deterministic_formula_any_k alph kk _ Hkk (same_config_refl _))
    as (d & Ed & _).
  destruct (aggregate_positive_raises sen_pos (global_init alph kk) s ch)
    as (st' & E & Hc); [|done|done| |].
  { rewrite var_global_init_0. eauto. }
  { by apply id_table_global_init_None. }
  exists st'. split; [|done]. unfold generate_fomula.
  erewrite bind_ok by (unfold reads; by rewrite Ed).
  apply bind_raise. exact E.
Qed.

Lemma generate_fomula_unknown_symbol_witness :
  ∃ st', generate_fomula [["a"; "b"]; ["a"; "c"]] [["b"; "a"]] (global_init ["a"; "b"] 2)
         = (Raise KeyError, st') ∧
         same_config (global_init ["a"; "b"] 2) st'.
Proof.
  apply (generate_fomula_unknown_symbol ["a"; "b"] 2 _ _ ["a"; "c"] "c").
  - lia.
  - rewrite !elem_of_cons. tauto.
  - rewrite !elem_of_cons. tauto.
  - rewrite !elem_of_cons, elem_of_nil. intros [?|[?|?]]; done.
  - done.
  - done.
Defined.

(** ** Reading the samples (ts_demo.py) *)

Lemma split_nonempty sep s : split sep s ≠ [].
Proof.
  induction s as [|c s IH]; cbn [split]; [done|].
  destruct (decide (c = sep)); [done|]. by destruct (split sep s).
Qed.

Lemma split_concat sep s : String.concat (String sep EmptyString) (split sep s) = s.
Proof.
  induction s as [|c s IH]; cbn [split]; [done|].
  pose proof (split_nonempty sep s) as Hne.
  destruct (decide (c = sep)) as [->|Hc].
  - destruct (split sep s) as [|w ws]; [done|]. by rewrite <- IH.
  - destruct (split sep s) as [|w ws]; [done|].
    destruct ws as [|w' ws]; by rewrite <- IH.
Qed.

Lemma split_chars sep s w c :
  w ∈ split sep s → c ∈ String.list_ascii_of_string w →
  c ≠ sep ∧ c ∈ String.list_ascii_of_string s.
Proof.
  revert w. induction s as [|c' s IH]; intros w; cbn [split].
  - intros ->%list_elem_of_singleton. by intros ?%elem_of_nil.
  - pose proof (split_nonempty sep s) as Hne. cbn [String.list_ascii_of_string].
    destruct (decide (c' = sep)) as [->|Hc].
    + intros [->|Hw]%elem_of_cons Hin; [by apply elem_of_nil in Hin|].
      destruct (IH w Hw Hin). split; [done|]. by apply elem_of_cons; right.
    + destruct (split sep s) as [|w0 ws]; [done|].
      intros [->|Hw]%elem_of_cons Hin.
      * cbn [String.list_ascii_of_string] in Hin. apply elem_of_cons in Hin as [->|Hin].
        { split; [done|]. by apply elem_of_cons; left. }
        destruct (IH w0 ltac:(by apply elem_of_cons; left) Hin).
        split; [done|]. by apply elem_of_cons; right.
      * destruct (IH w ltac:(by apply elem_of_cons; right) Hin).
        split; [done|]. by apply elem_of_cons; right.
Qed.

Lemma remove_char_chars c s c' :
  c' ∈ String.list_ascii_of_string (remove_char c s) ↔ c' ≠ c ∧ c' ∈ String.list_ascii_of_string s.
Proof.
  induction s as [|c0 s IH]; cbn [remove_char String.list_ascii_of_string].
  - rewrite elem_of_nil. tauto.
  - destruct (decide (c0 = c)) as [->|Hc]; cbn [String.list_ascii_of_string];
      rewrite ?elem_of_cons, IH; [tauto|]. split; [|tauto].
    intros [->|[? ?]]; tauto.
Qed.

(** X20: what a line of a sample file becomes.  A line always yields at
    least one symbol, so no sample read from a file is empty (a blank line
    is the one-symbol sample of the empty string); no symbol contains a
    comma, a line feed or a carriage return; and joining the symbols with
    commas gives the line back without its line feeds and carriage
    returns. *)
Theorem parse_line_round_trip line :
  parse_line line ≠ [] ∧
  (∀ w c, w ∈ parse_line line → c ∈ String.list_ascii_of_string w →
     c ≠ ","%char ∧ c ≠ "010"%char ∧ c ≠ "013"%char) ∧
  String.concat "," (parse_line line) = remove_char "013" (remove_char "010" line).
Proof.
  unfold parse_line. split; [apply split_nonempty|]. split; [|apply split_concat].
  intros w c Hw Hc. destruct (split_chars _ _ _ _ Hw Hc) as [Hsep Hin].
  apply remove_char_chars in Hin as [Hcr Hin].
  apply remove_char_chars in Hin as [Hlf _]. done.
Qed.

Lemma fold_alphabet (tmp : list string) (a : gset string) ch :
  ch ∈ foldl (λ alphabet ch, alphabet ∪ {[ch]}) a tmp ↔ ch ∈ a ∨ ch ∈ tmp.
Proof.
  revert a. induction tmp as [|x tmp IH]; intros a; cbn [foldl].
  - rewrite elem_of_nil. tauto.
  - rewrite IH, elem_of_union, elem_of_singleton, elem_of_cons. tauto.
Qed.

Lemma read_file_fold (fin : list string) (acc : list (list string) * gset string) :
  (foldl (λ acc line,
      let tmp := parse_line line in
      (acc.1 ++ [tmp], foldl (λ alphabet ch, alphabet ∪ {[ch]}) acc.2 tmp)) acc fin).1
  = acc.1 ++ (parse_line <$> fin) ∧
  ∀ ch, ch ∈ (foldl (λ acc line,
      let tmp := parse_line line in
      (acc.1 ++ [tmp], foldl (λ alphabet ch, alphabet ∪ {[ch]}) acc.2 tmp)) acc fin).2
        ↔ ch ∈ acc.2 ∨ ∃ line, line ∈ fin ∧ ch ∈ parse_line line.
Proof.
  set (f := λ (acc : list (list string) * gset string) (line : string),
      let tmp := parse_line line in
      (acc.1 ++ [tmp], foldl (λ alphabet ch, alphabet ∪ {[ch]}) acc.2 tmp)).
  revert acc. induction fin as [|line fin IH]; intros acc; cbn [foldl].
  - split; [by rewrite app_nil_r|]. intros ch. split; [by left|].
    intros [?|(line & Hl & _)]; [done|]. by apply elem_of_nil in Hl.
  - destruct (IH (f acc line)) as [IH1 IH2]. split.
    + rewrite IH1. cbn [f fst fmap list_fmap]. by rewrite <- app_assoc.
    + intros ch. rewrite IH2. cbn [f snd]. rewrite fold_alphabet. split.
      * intros [[?|?]|(l & Hl & Hch)]; [by left| |].
        { right. exists line. split; [by apply elem_of_cons; left|done]. }
        right. exists l. split; [by apply elem_of_cons; right|done].
      * intros [?|(l & [->|Hl]%elem_of_cons & Hch)]; [by left; left|by left; right|].
        right. eauto.
Qed.

Lemma read_file_samples fin : (read_file fin).1 = parse_line <$> fin.
Proof. exact (proj1 (read_file_fold fin ([], ∅))). Qed.

Lemma read_file_symbols fin ch :
  ch ∈ (read_file fin).2 ↔ ∃ line, line ∈ fin ∧ ch ∈ parse_line line.
Proof.
  pose proof (proj2 (read_file_fold fin ([], ∅)) ch) as H. cbn [snd] in H.
  rewrite elem_of_empty in H. unfold read_file. tauto.
Qed.

(** *** [sorted] *)

Lemma insert_sorted_perm x l : insert_sorted x l ≡ₚ x :: l.
Proof.
  induction l as [|y l IH]; cbn [insert_sorted]; [done|].
  destruct (String.leb x y); [done|]. rewrite IH. apply Permutation_swap.
Qed.

Lemma sorted_perm l : sorted l ≡ₚ l.
Proof.
  unfold sorted. induction l as [|x l IH]; cbn [foldr]; [done|].
  by rewrite insert_sorted_perm, IH.
Qed.

Lemma insert_sorted_ascending x l :
  Sorted (λ a b, String.leb a b = true) l →
  Sorted (λ a b, String.leb a b = true) (insert_sorted x l).
Proof.
  induction 1 as [|y l Hl IH Hy]; cbn [insert_sorted].
  - by repeat constructor.
  - destruct (String.leb x y) eqn:E.
    + constructor; [by constructor|]. by constructor.
    + constructor; [done|].
      assert (String.leb y x = true) as Hyx.
      { destruct (String.leb_total x y); congruence. }
      destruct l as [|z l]; cbn [insert_sorted]; [by constructor|].
      destruct (String.leb x z); constructor; [done|]. by inversion Hy.
Qed.

Lemma sorted_ascending l : Sorted (λ a b, String.leb a b = true) (sorted l).
Proof.
  unfold sorted. induction l as [|x l IH]; cbn [foldr]; [constructor|].
  by apply insert_sorted_ascending.
Qed.

Lemma step1_unfold pos_file neg_file :
  step1 pos_file neg_file
  = (parse_line <$> pos_file,
     match neg_file with Some file => parse_line <$> file | None => [] end,
     sorted (elements
       match neg_file with
       | Some file => (read_file pos_file).2 ∩ (read_file file).2
       | None => (read_file pos_file).2
       end)).
Proof.
  unfold step1, get_pos_from_file, get_pos_and_neg_from_file.
  pose proof (read_file_samples pos_file) as Hp.
  destruct (read_file pos_file) as [sen_pos a1]. cbn [fst snd] in *. subst sen_pos.
  destruct neg_file as [file|]; [|done].
  pose proof (read_file_samples file) as Hn.
  destruct (read_file file) as [sen_neg a2]. cbn [fst snd] in *. by subst sen_neg.
Qed.

Lemma step1_symbols pos_file neg_file ch :
  ch ∈ (step1 pos_file neg_file).2
  ↔ (∃ line, line ∈ pos_file ∧ ch ∈ parse_line line) ∧
    ∀ file, neg_file = Some file → ∃ line, line ∈ file ∧ ch ∈ parse_line line.
Proof.
  rewrite step1_unfold. cbn [snd]. rewrite sorted_perm, elem_of_elements.
  destruct neg_file as [file|].
  - rewrite elem_of_intersection, !read_file_symbols. split.
    + intros [? ?]. split; [done|]. by intros ? [= <-].
    + intros [? Hn]. split; [done|]. by apply Hn.
  - rewrite read_file_symbols. split; [|tauto]. intros ?. split; [done|]. by intros ? [=].
Qed.

(** X21: what [step1] returns.  There is one sample for each line, in the
    order of the lines; the alphabet is in ascending order without
    repetition; with no negative file it holds exactly the symbols of the
    positive samples, with one exactly the symbols that occur in both
    files. *)
Theorem step1_alphabet pos_file neg_file :
  let '(sen_pos, sen_neg, alphabet) := step1 pos_file neg_file in
  sen_pos = parse_line <$> pos_file ∧
  sen_neg = match neg_file with Some file => parse_line <$> file | None => [] end ∧
  NoDup alphabet ∧ Sorted (λ a b, String.leb a b = true) alphabet ∧
  ∀ ch, ch ∈ alphabet
        ↔ (∃ s, s ∈ sen_pos ∧ ch ∈ s) ∧
          (neg_file = None ∨ ∃ s, s ∈ sen_neg ∧ ch ∈ s).
Proof.
  pose proof (step1_symbols pos_file neg_file) as Hsym. rewrite step1_unfold in *.
  cbn [snd] in Hsym.
  split; [done|]. split; [done|]. split.
  { rewrite sorted_perm. apply NoDup_elements. }
  split; [apply sorted_ascending|]. intros ch. rewrite Hsym.
  split.
  - intros [(l1 & ? & ?) Hn]. split.
    { exists (parse_line l1). split; [apply list_elem_of_fmap; eauto|done]. }
    destruct neg_file as [file|]; [right|by left].
    destruct (Hn file eq_refl) as (l2 & ? & ?).
    exists (parse_line l2). split; [apply list_elem_of_fmap; eauto|done].
  - intros [(s1 & (l1 & -> & ?)%list_elem_of_fmap & ?) Hn]. split; [eauto|].
    intros file ->.
    destruct Hn as [?|(s2 & (l2 & -> & ?)%list_elem_of_fmap & ?)]; [done|]. eauto.
Qed.

(** ** From the files to the formula *)

Lemma over_alphabet_parsed (file : list string) (alphabet : list string) :
  (∀ ch, (∃ line, line ∈ file ∧ ch ∈ parse_line line) → ch ∈ alphabet) →
  Forall (over_alphabet alphabet) (parse_line <$> file).
Proof.
  intros Hall. apply Forall_fmap, Forall_forall. intros line Hline.
  apply Forall_forall. intros ch Hch. apply Hall. eauto.
Qed.

(** X22: a run whose files agree on the symbols is translated.  With
    [k ≥ 1], when there is no negative file, or when the two files have the
    same set of symbols, [step2] applied to what [step1] returns produces a
    formula: no sample raises. *)
Theorem step2_translates pos_file neg_file kk :
  1 ≤ kk →
  (∀ file, neg_file = Some file → (read_file pos_file).2 = (read_file file).2) →
  let '(sen_pos, sen_neg, alphabet) := step1 pos_file neg_file in
  ∃ f st, step2 sen_pos sen_neg alphabet kk = (Ok f, st).
Proof.
  intros Hkk Hsame. pose proof (step1_symbols pos_file neg_file) as Halph.
  rewrite step1_unfold in *. cbn [snd] in Halph.
  set (alphabet := sorted _) in *.
  assert (∀ file, neg_file = Some file →
     ∀ ch, (∃ line, line ∈ pos_file ∧ ch ∈ parse_line line)
           ↔ (∃ line, line ∈ file ∧ ch ∈ parse_line line)) as Hsym.
  { intros file Hfile ch. rewrite <- !read_file_symbols. by rewrite (Hsame file Hfile). }
  assert (Forall (over_alphabet alphabet) (parse_line <$> pos_file)) as Hpos.
  { apply over_alphabet_parsed. intros ch Hch. apply Halph. split; [done|].
    intros file Hfile. by apply (Hsym file Hfile). }
  assert (Forall (over_alphabet alphabet)
            match neg_file with Some file => parse_line <$> file | None => [] end) as Hneg.
  { destruct neg_file as [file|]; [|constructor].
    apply over_alphabet_parsed. intros ch Hch. apply Halph. split.
    - by apply (Hsym file eq_refl).
    - by intros ? [= <-]. }
  destruct (generate_fomula_ok alphabet kk Hkk _ _ Hpos Hneg) as (d & g & negs & E & _).
  unfold step2. rewrite E. eauto.
Qed.

Lemma step2_translates_witness :
  let '(sen_pos, sen_neg, alphabet) :=
    step1 ["a,b,b"; "b"; ""] (Some ["b,a"; ""; "a"]) in
  ∃ f st, step2 sen_pos sen_neg alphabet 2 = (Ok f, st).
Proof.
  apply (step2_translates ["a,b,b"; "b"; ""] (Some ["b,a"; ""; "a"]) 2).
  - lia.
  - intros file [= <-]. apply (bool_decide_unpack _). by vm_compute.
Defined.

(** X23: a symbol that only the positive file has.  The alphabet of a run
    with a negative file holds the symbols that occur in both files, so a
    positive sample with a symbol that no negative sample has, other than
    [src] and [snk], makes [step2] raise [KeyError]. *)
Theorem step2_symbol_missing_from_negatives pos_file neg_file kk line ch :
  1 ≤ kk → line ∈ pos_file → ch ∈ parse_line line →
  (∀ l, l ∈ neg_file → ch ∉ parse_line l) → ch ≠ "src" → ch ≠ "snk" →
  let '(sen_pos, sen_neg, alphabet) := step1 pos_file (Some neg_file) in
  ∃ st, step2 sen_pos sen_neg alphabet kk = (Raise KeyError, st).
Proof.
  intros Hkk Hline Hch Hmiss Hsrc Hsnk.
  pose proof (step1_symbols pos_file (Some neg_file) ch) as Halph.
  rewrite step1_unfold in *. cbn [snd] in Halph.
  set (alphabet := sorted _) in *.
  assert (ch ∉ alphabet) as Hout.
  { intros [_ Hn]%Halph. destruct (Hn neg_file eq_refl) as (l & Hl & Hin).
    by apply (Hmiss l). }
  destruct (deterministic_formula_any_k alphabet kk _ Hkk (same_config_refl _))
    as (d & Ed & _).
  destruct (aggregate_positive_raises (parse_line <$> pos_file) (global_init alphabet kk)
              (parse_line line) ch) as (st & E & _).
  { rewrite var_global_init_0. eauto. }
  { apply list_elem_of_fmap. eauto. }
  { done. }
  { by apply id_table_global_init_None. }
  exists st. unfold step2, generate_fomula.
  erewrite bind_ok by (unfold reads; by rewrite Ed).
  apply bind_raise. exact E.
Qed.

Lemma step2_symbol_missing_from_negatives_witness :
  let '(sen_pos, sen_neg, alphabet) := step1 ["a,b"; "a,c"] (Some ["b,a"]) in
  ∃ st, step2 sen_pos sen_neg alphabet 2 = (Raise KeyError, st).
Proof.
  apply (step2_symbol_missing_from_negatives ["a,b"; "a,c"] ["b,a"] 2 "a,c" "c").
  - lia.
  - rewrite !elem_of_cons. tauto.
  - apply (bool_decide_unpack _). by vm_compute.
  - intros l ->%list_elem_of_singleton. apply (bool_decide_unpack _). by vm_compute.
  - done.
  - done.
Defined.
